(** * gasyncio: an asyncio event loop driven by the GLib main loop

    A shallow embedding of [gasyncio/gevents.py] and
    [gasyncio/threadselector.py], and the properties of the bridge that
    were checked against it.

    Python objects are records, dicts are [gmap], sets are [gset];
    methods thread the object (and the GLib main context they talk to)
    through a small state-and-exception monad in which, as in Python,
    whatever was mutated before a [raise] stays mutated. *)

From Stdlib Require Import ZArith QArith Qminmax Lia Lqa.
From stdpp Require Import base option list gmap sets strings.

Local Open Scope Z_scope.

(* ------------------------------------------------------------------ *)
(** ** Python results and exceptions *)

Inductive exn : Type :=
| KeyError
| ValueError
| RuntimeError
| NameError (name : string)
| AttributeError
| AssertionError
| TypeError
| BlockingIOError
| OSError (errno : Z).

Inductive result (A : Type) : Type :=
| Ok (a : A)
| Raise (e : exn).
Arguments Ok {A} a.
Arguments Raise {A} e.

(** A method of an object of state [S] returning an [A]. *)
Definition M (S A : Type) : Type := S -> result A * S.

Definition ret {S A} (a : A) : M S A := fun s => (Ok a, s).
Definition raise {S A} (e : exn) : M S A := fun s => (Raise e, s).
Definition bind {S A B} (m : M S A) (f : A -> M S B) : M S B :=
  fun s => match m s with
           | (Ok a, s') => f a s'
           | (Raise e, s') => (Raise e, s')
           end.
Definition get {S} : M S S := fun s => (Ok s, s).
Definition modify_state {S} (f : S -> S) : M S unit := fun s => (Ok tt, f s).

(** [try: m except: h] for the exceptions [h] chooses to handle. *)
Definition try_except {S A} (m : M S A) (h : exn -> option (M S A)) : M S A :=
  fun s => match m s with
           | (Ok a, s') => (Ok a, s')
           | (Raise e, s') =>
               match h e with
               | Some k => k s'
               | None => (Raise e, s')
               end
           end.

Declare Scope py_scope.
Delimit Scope py_scope with py.
Notation "'do' x <- m ; k" := (bind m (fun x => k))
  (at level 10, x name, m at level 100, k at level 200, only parsing) : py_scope.
Notation "'run' m ; k" := (bind m (fun _ => k))
  (at level 10, m at level 100, k at level 200, only parsing) : py_scope.
Local Open Scope py_scope.

(* ------------------------------------------------------------------ *)
(** ** selectors: event masks, file objects, keys *)

Definition EVENT_READ : Z := 1.
Definition EVENT_WRITE : Z := 2.

(** What can be handed to a selector: an integer descriptor, or an
    object with identity [oid] whose [fileno()] currently answers
    [fileno] ([None] when the call fails). *)
Inductive fileobj : Type :=
| FdInt (n : Z)
| FdObj (oid : nat) (fileno : option Z).

(** The key under which Python's [==] and [hash] see a file object:
    the number for an int, the identity for an object. *)
Definition py_eq_key (f : fileobj) : Z + nat :=
  match f with
  | FdInt n => inl n
  | FdObj oid _ => inr oid
  end.

(** [a is b]. *)
Definition py_is (a b : fileobj) : bool :=
  bool_decide (py_eq_key a = py_eq_key b).

(** asyncio keeps [(reader, writer)] handles as the key's data. *)
Definition handle : Type := nat.
Definition key_data : Type := (option handle * option handle)%type.

Record SelectorKey : Type := mkKey {
  key_fileobj : fileobj;
  key_fd : Z;
  key_events : Z;
  key_data_ : key_data
}.

Global Instance fileobj_eq_dec : EqDecision fileobj.
Proof. solve_decision. Defined.
Global Instance fileobj_countable : Countable fileobj.
Proof.
  refine (inj_countable'
    (fun f => match f with FdInt n => inl n | FdObj o fn => inr (o, fn) end)
    (fun x => match x with inl n => FdInt n | inr (o, fn) => FdObj o fn end) _).
  now intros [].
Defined.
Global Instance SelectorKey_eq_dec : EqDecision SelectorKey.
Proof. solve_decision. Defined.
Global Instance SelectorKey_countable : Countable SelectorKey.
Proof.
  refine (inj_countable'
    (fun k => (key_fileobj k, key_fd k, key_events k, key_data_ k))
    (fun t => match t with (f, d, e, x) => mkKey f d e x end) _).
  now intros [].
Defined.
Global Instance exn_eq_dec : EqDecision exn.
Proof. solve_decision. Defined.

(** [selectors._fileobj_to_fd]. *)
Definition _fileobj_to_fd (f : fileobj) : result Z :=
  match f with
  | FdInt n => if n <? 0 then Raise ValueError else Ok n
  | FdObj _ None => Raise ValueError
  | FdObj _ (Some n) => if n <? 0 then Raise ValueError else Ok n
  end.

(** The part of a selector that [selectors._BaseSelectorImpl] owns. *)
Class BaseSelector (S : Type) : Type := {
  fd_to_key : S -> gmap Z SelectorKey;
  set_fd_to_key : gmap Z SelectorKey -> S -> S
}.

Module BaseSelectorImpl.
Section Base.
Context {S : Type} `{BaseSelector S}.

(** [_fileobj_lookup]: the descriptor of [f], falling back on a
  search by identity among the registered keys. *)
Definition _fileobj_lookup (f : fileobj) : M S Z :=
fun s =>
  match _fileobj_to_fd f with
  | Ok n => (Ok n, s)
  | Raise _ =>
      match List.find (fun kv => py_is (key_fileobj (snd kv)) f)
                      (map_to_list (fd_to_key s)) with
      | Some kv => (Ok (key_fd (snd kv)), s)
      | None => (Raise ValueError, s)
      end
  end.

Definition invalid_events (events : Z) : bool :=
(events =? 0) || negb (Z.land events (Z.lnot (Z.lor EVENT_READ EVENT_WRITE)) =? 0).

Definition register (f : fileobj) (events : Z) (data : key_data) : M S SelectorKey :=
if invalid_events events then raise ValueError else
do n <- _fileobj_lookup f;
let key := mkKey f n events data in
do s <- get;
if decide (is_Some (fd_to_key s !! key_fd key)) then raise KeyError else
run modify_state (fun s => set_fd_to_key (<[key_fd key := key]> (fd_to_key s)) s);
ret key.

Definition unregister (f : fileobj) : M S SelectorKey :=
do n <- _fileobj_lookup f;
do s <- get;
match fd_to_key s !! n with
| None => raise KeyError
| Some key =>
    run modify_state (fun s => set_fd_to_key (delete n (fd_to_key s)) s);
    ret key
end.

(** [modify] calls [self.unregister] and [self.register]: the
  subclass's methods, passed here explicitly.  What it returns is
  whatever the subclass's [register] returns ([of_key] embeds a key
  on the path that does not go through [register]). *)
Definition modify {K U : Type} (of_key : SelectorKey -> K)
  (self_unregister : fileobj -> M S U)
  (self_register : fileobj -> Z -> key_data -> M S K)
  (f : fileobj) (events : Z) (data : key_data) : M S K :=
do n <- _fileobj_lookup f;
do s <- get;
match fd_to_key s !! n with
| None => raise KeyError
| Some key =>
    if negb (events =? key_events key) then
      run self_unregister f;
      self_register f events data
    else if negb (bool_decide (data = key_data_ key)) then
      let key' := mkKey (key_fileobj key) (key_fd key) (key_events key) data in
      run modify_state (fun s => set_fd_to_key (<[key_fd key' := key']> (fd_to_key s)) s);
      ret (of_key key')
    else ret (of_key key)
end.
End Base.
End BaseSelectorImpl.

(* ------------------------------------------------------------------ *)
(** ** The GLib main context, as far as the bridge uses it *)

Module GLib.

(** [GLib.IOCondition] flags. *)
Definition IO_IN : Z := 1.
Definition IO_OUT : Z := 4.
Definition IO_HUP : Z := 16.
Definition PRIORITY_DEFAULT : Z := 0.

Record IOChannel : Type := mkChannel {
  chan_id : nat;               (* identity of the wrapper object *)
  chan_fd : Z;
  chan_encoding : option string;
  chan_buffered : bool;
  chan_close_on_unref : bool
}.

(** The Python callables the bridge attaches to sources. *)
Inductive callback : Type :=
| Cb_giterate                            (* loop._giterate *)
| Cb_timeout (timer : nat)               (* loop._timeout_cb, timer *)
| Cb_channel_watch (key : SelectorKey).  (* selector._channel_watch_cb, key *)

Inductive source : Type :=
| Timeout (interval : Q) (cb : callback)
| IOWatch (channel : IOChannel) (priority : Z) (condition : Z) (cb : callback).

Record MainContext : Type := mkContext {
  next_source_id : nat;
  sources : list (nat * source);
  channels_created : nat
}.

(** Source ids are positive. *)
Definition empty : MainContext := mkContext 1 [] 0.

Definition attach (src : source) (g : MainContext) : nat * MainContext :=
  (next_source_id g,
   mkContext (Datatypes.S (next_source_id g))
             (sources g ++ [(next_source_id g, src)])
             (channels_created g)).

Definition timeout_add (interval : Q) (cb : callback) (g : MainContext) :=
  attach (Timeout interval cb) g.

Definition io_add_watch (ch : IOChannel) (priority condition : Z)
    (cb : callback) (g : MainContext) :=
  attach (IOWatch ch priority condition cb) g.

Definition source_remove (id : nat) (g : MainContext) : MainContext :=
  mkContext (next_source_id g)
            (List.filter (fun p => negb (Nat.eqb (fst p) id)) (sources g))
            (channels_created g).

(** [GLib.IOChannel.unix_new] / [win32_new_socket]: a fresh wrapper
    with GLib's defaults. *)
Definition IOChannel_new_socket (n : Z) (g : MainContext)
    : IOChannel * MainContext :=
  (mkChannel (channels_created g) n (Some "UTF-8"%string) true false,
   mkContext (next_source_id g) (sources g) (Datatypes.S (channels_created g))).

Definition set_encoding (e : option string) (c : IOChannel) : IOChannel :=
  mkChannel (chan_id c) (chan_fd c) e (chan_buffered c) (chan_close_on_unref c).
Definition set_buffered (b : bool) (c : IOChannel) : IOChannel :=
  mkChannel (chan_id c) (chan_fd c) (chan_encoding c) b (chan_close_on_unref c).
Definition set_close_on_unref (b : bool) (c : IOChannel) : IOChannel :=
  mkChannel (chan_id c) (chan_fd c) (chan_encoding c) (chan_buffered c) b.

End GLib.

(* ------------------------------------------------------------------ *)
(** ** gevents.GAsyncIOSelector *)

(** Python truth of an integer. *)
Definition truthy (n : Z) : bool := negb (n =? 0).

Module GAsyncIOSelector.

Record t : Type := mk {
  _fd_to_key : gmap Z SelectorKey;
  _sources : gmap Z nat;
  _io_channels : gmap Z GLib.IOChannel;
  _fileobj_preserve : gset (Z + nat);
  _hups : gset SelectorKey
}.

(** The selector together with what it acts on: the main context it
    attaches watches to, and the asyncio handles it has run. *)
Record world : Type := mkWorld {
  self : t;
  main : GLib.MainContext;
  ran : list handle
}.

(** [__init__]. *)
Definition init : t := mk ∅ ∅ ∅ ∅ ∅.
Definition init_world : world := mkWorld init GLib.empty [].

Definition on_self (f : t -> t) : M world unit :=
  modify_state (fun w => mkWorld (f (self w)) (main w) (ran w)).
Definition set_sources (f : gmap Z nat -> gmap Z nat) : M world unit :=
  on_self (fun s => mk (_fd_to_key s) (f (_sources s)) (_io_channels s)
                       (_fileobj_preserve s) (_hups s)).
Definition set_io_channels
    (f : gmap Z GLib.IOChannel -> gmap Z GLib.IOChannel) : M world unit :=
  on_self (fun s => mk (_fd_to_key s) (_sources s) (f (_io_channels s))
                       (_fileobj_preserve s) (_hups s)).
Definition set_fileobj_preserve
    (f : gset (Z + nat) -> gset (Z + nat)) : M world unit :=
  on_self (fun s => mk (_fd_to_key s) (_sources s) (_io_channels s)
                       (f (_fileobj_preserve s)) (_hups s)).
Definition set_hups (f : gset SelectorKey -> gset SelectorKey) : M world unit :=
  on_self (fun s => mk (_fd_to_key s) (_sources s) (_io_channels s)
                       (_fileobj_preserve s) (f (_hups s))).

(** A call into GLib that returns a value. *)
Definition glib_call {A} (f : GLib.MainContext -> A * GLib.MainContext)
    : M world A :=
  fun w => (Ok (fst (f (main w))), mkWorld (self w) (snd (f (main w))) (ran w)).
Definition glib_exec (f : GLib.MainContext -> GLib.MainContext) : M world unit :=
  modify_state (fun w => mkWorld (self w) (f (main w)) (ran w)).

(** [handle._run()]; a missing handle is [None._run()]. *)
Definition run_handle (h : option handle) : M world unit :=
  match h with
  | Some h => modify_state (fun w => mkWorld (self w) (main w) (ran w ++ [h]))
  | None => raise AttributeError
  end.

Global Instance base : BaseSelector world := {|
  fd_to_key w := _fd_to_key (self w);
  set_fd_to_key m w :=
    mkWorld (mk m (_sources (self w)) (_io_channels (self w))
                (_fileobj_preserve (self w)) (_hups (self w)))
            (main w) (ran w)
|}.

Definition _events_to_io_condition (events : Z) : Z :=
  Z.lor (if truthy (Z.land events EVENT_READ) then GLib.IO_IN else 0)
        (if truthy (Z.land events EVENT_WRITE) then GLib.IO_OUT else 0).

Definition _io_condition_to_events (condition : Z) : Z :=
  Z.lor (if truthy (Z.land condition GLib.IO_IN) then EVENT_READ else 0)
        (if truthy (Z.land condition GLib.IO_OUT) then EVENT_WRITE else 0).

Definition register (f : fileobj) (events : Z) (data : key_data)
    : M world SelectorKey :=
  do key <- BaseSelectorImpl.register f events data;
  do w <- get;
  if decide (is_Some (_sources (self w) !! key_fd key)) then raise KeyError else
  do io_channel <-
    match _io_channels (self w) !! key_fd key with
    | Some c => ret c
    | None =>
        do c <- glib_call (GLib.IOChannel_new_socket (key_fd key));
        let c := GLib.set_close_on_unref false
                   (GLib.set_buffered false (GLib.set_encoding None c)) in
        run set_io_channels (insert (key_fd key) c);
        ret c
    end;
  do source <- glib_call
    (GLib.io_add_watch io_channel GLib.PRIORITY_DEFAULT
       (Z.lor (_events_to_io_condition events) GLib.IO_HUP)
       (GLib.Cb_channel_watch key));
  run set_sources (insert (key_fd key) source);
  ret key.

Definition unregister (f : fileobj) : M world SelectorKey :=
  do key <- BaseSelectorImpl.unregister f;
  do w <- get;
  match _sources (self w) !! key_fd key with
  | None => raise KeyError
  | Some source =>
      run set_sources (delete (key_fd key));
      run glib_exec (GLib.source_remove source);
      if decide (py_eq_key f ∈ _fileobj_preserve (self w)) then ret key else
      match _io_channels (self w) !! key_fd key with
      | None => raise KeyError
      | Some _ =>
          run set_io_channels (delete (key_fd key));
          ret key
      end
  end.

Definition modify (f : fileobj) (events : Z) (data : key_data)
    : M world SelectorKey :=
  run set_fileobj_preserve (fun p => {[py_eq_key f]} ∪ p);
  do r <- BaseSelectorImpl.modify id unregister register f events data;
  do w <- get;
  if decide (py_eq_key f ∈ _fileobj_preserve (self w)) then
    run set_fileobj_preserve (fun p => p ∖ {[py_eq_key f]});
    ret r
  else raise KeyError.

Definition _channel_watch_cb (channel : GLib.IOChannel) (condition : Z)
    (key : SelectorKey) : M world bool :=
  let '(handle_in, handle_out) := key_data_ key in
  run (if truthy (Z.land condition GLib.IO_IN) then run_handle handle_in
       else ret tt);
  run (if truthy (Z.land condition GLib.IO_OUT) then run_handle handle_out
       else ret tt);
  run (if truthy (Z.land condition GLib.IO_HUP)
       then set_hups (fun h => {[key]} ∪ h) else ret tt);
  ret true.

Definition select (timeout : option Q) : M world (list (SelectorKey * Z)) :=
  do w <- get;
  let ready :=
    List.map (fun key => (key, Z.land (key_events key)
                                      (Z.lor EVENT_READ EVENT_WRITE)))
             (elements (_hups (self w))) in
  run set_hups (fun _ => ∅);
  ret ready.

(** The calls a selector receives, and the worlds they lead to from
    a fresh selector. *)
Inductive call : Type :=
| Call_register (f : fileobj) (events : Z) (data : key_data)
| Call_unregister (f : fileobj)
| Call_modify (f : fileobj) (events : Z) (data : key_data)
| Call_select (timeout : option Q)
| Call_channel_watch_cb (channel : GLib.IOChannel) (condition : Z)
    (key : SelectorKey).

Definition after (c : call) (w : world) : world :=
  match c with
  | Call_register f events data => snd (register f events data w)
  | Call_unregister f => snd (unregister f w)
  | Call_modify f events data => snd (modify f events data w)
  | Call_select timeout => snd (select timeout w)
  | Call_channel_watch_cb ch cond key => snd (_channel_watch_cb ch cond key w)
  end.


Inductive reachable : world -> Prop :=
| reachable_init g : reachable (mkWorld init g [])
| reachable_call c w : reachable w -> reachable (after c w).

(** The three maps are kept in step: a descriptor has a key exactly
    when it has a watch, every watched descriptor has a wrapper, and
    a key sits under its own descriptor. *)
Record maps_in_step (s : t) : Prop := {
  key_has_source : forall n, is_Some (_fd_to_key s !! n) -> is_Some (_sources s !! n);
  source_has_key : forall n, is_Some (_sources s !! n) -> is_Some (_fd_to_key s !! n);
  source_has_channel : forall n, is_Some (_sources s !! n) -> is_Some (_io_channels s !! n);
  key_under_fd : forall n k, _fd_to_key s !! n = Some k -> key_fd k = n
}.

End GAsyncIOSelector.

(* ------------------------------------------------------------------ *)
(** ** gevents.GAsyncIOEventLoop *)

(** The selector classes a loop may be built on, and the lookup of the
    class attribute [_schedule_periodic_giterate] on an instance. *)
Inductive selector_class : Type :=
| GAsyncIOSelector_class
| NoWaitSelectSelector_class
| ThreadSelector_class          (* threadselector.ThreadSelector *)
| SelectSelector_class.         (* selectors.SelectSelector *)

(** Only [NoWaitSelectSelector] defines the attribute; [ThreadSelector]
    derives from [selectors.SelectSelector], which does not. *)
Definition attr__schedule_periodic_giterate (c : selector_class) : option bool :=
  match c with
  | NoWaitSelectSelector_class => Some true
  | GAsyncIOSelector_class | ThreadSelector_class | SelectSelector_class => None
  end.

(** [getattr(obj, name, default)]. *)
Definition getattr {A} (attr : option A) (default : A) : A :=
  match attr with Some a => a | None => default end.

(** What is given to [call_at] as its callback. *)
Inductive callable : Type :=
| Function (id : nat)
| Coroutine (id : nat)
| NotCallable.

Record TimerHandle : Type := mkTimer {
  _when : Q;
  _callback : callable;
  _scheduled : option nat      (* GLib source id, or [False] *)
}.

Module GAsyncIOEventLoop.

Record t : Type := mk {
  _is_slave : bool;
  _giteration : option nat;
  _selector : selector_class;
  _closed : bool;
  _debug : bool;
  _ready : list handle;
  _old_agen_hooks : option (option nat);
  _coroutine_origin_tracking : bool
}.

(** The loop (object [loop_id]) with the process state it acts on:
    the main context, the clock, asyncio's running loop, the
    interpreter's asyncgen hooks and the timer handles allocated. *)
Record world : Type := mkWorld {
  self : t;
  loop_id : nat;
  main : GLib.MainContext;
  clock : Q;
  running_loop : option nat;
  asyncgen_hooks : option nat;
  timers : list TimerHandle;
  ran : list callable
}.

Definition platform_selector (win32 : bool) : selector_class :=
  if win32 then NoWaitSelectSelector_class else GAsyncIOSelector_class.

(** [__init__(selector)], with [UserSelector] and the platform. *)
Definition init (UserSelector selector : option selector_class) (win32 : bool) : t :=
  mk false None
     (match selector with
      | Some s => s
      | None => match UserSelector with
                | Some s => s
                | None => platform_selector win32
                end
      end)
     false false [] None false.

Definition init_world (sel : selector_class) : world :=
  mkWorld (init None (Some sel) false) 0 GLib.empty 0%Q None None [] [].

Definition on_self (f : t -> t) : M world unit :=
  modify_state (fun w => mkWorld (f (self w)) (loop_id w) (main w) (clock w)
                           (running_loop w) (asyncgen_hooks w) (timers w) (ran w)).
Definition set_is_slave (b : bool) : M world unit :=
  on_self (fun l => mk b (_giteration l) (_selector l) (_closed l) (_debug l)
                      (_ready l) (_old_agen_hooks l) (_coroutine_origin_tracking l)).
Definition set_giteration (g : option nat) : M world unit :=
  on_self (fun l => mk (_is_slave l) g (_selector l) (_closed l) (_debug l)
                      (_ready l) (_old_agen_hooks l) (_coroutine_origin_tracking l)).
Definition set_closed (b : bool) : M world unit :=
  on_self (fun l => mk (_is_slave l) (_giteration l) (_selector l) b (_debug l)
                      (_ready l) (_old_agen_hooks l) (_coroutine_origin_tracking l)).
Definition set_ready (r : list handle) : M world unit :=
  on_self (fun l => mk (_is_slave l) (_giteration l) (_selector l) (_closed l)
                      (_debug l) r (_old_agen_hooks l) (_coroutine_origin_tracking l)).
Definition set_old_agen_hooks (h : option (option nat)) : M world unit :=
  on_self (fun l => mk (_is_slave l) (_giteration l) (_selector l) (_closed l)
                      (_debug l) (_ready l) h (_coroutine_origin_tracking l)).
Definition _set_coroutine_origin_tracking (b : bool) : M world unit :=
  on_self (fun l => mk (_is_slave l) (_giteration l) (_selector l) (_closed l)
                      (_debug l) (_ready l) (_old_agen_hooks l) b).

Definition glib_call {A} (f : GLib.MainContext -> A * GLib.MainContext)
    : M world A :=
  fun w => (Ok (fst (f (main w))),
            mkWorld (self w) (loop_id w) (snd (f (main w))) (clock w)
                    (running_loop w) (asyncgen_hooks w) (timers w) (ran w)).
Definition glib_exec (f : GLib.MainContext -> GLib.MainContext) : M world unit :=
  glib_call (fun g => (tt, f g)).
Definition _set_running_loop (l : option nat) : M world unit :=
  modify_state (fun w => mkWorld (self w) (loop_id w) (main w) (clock w) l
                           (asyncgen_hooks w) (timers w) (ran w)).
Definition set_asyncgen_hooks (h : option nat) : M world unit :=
  modify_state (fun w => mkWorld (self w) (loop_id w) (main w) (clock w)
                           (running_loop w) h (timers w) (ran w)).
Definition set_timers (f : list TimerHandle -> list TimerHandle) : M world unit :=
  modify_state (fun w => mkWorld (self w) (loop_id w) (main w) (clock w)
                           (running_loop w) (asyncgen_hooks w) (f (timers w)) (ran w)).
Definition run_callable (c : callable) : M world unit :=
  modify_state (fun w => mkWorld (self w) (loop_id w) (main w) (clock w)
                           (running_loop w) (asyncgen_hooks w) (timers w)
                           (ran w ++ [c])).

Definition is_running : M world bool :=
  do w <- get; ret (_is_slave (self w)).

(** asyncio's [_check_closed], [_check_running], [_check_callback]. *)
Definition _check_closed : M world unit :=
  do w <- get; if _closed (self w) then raise RuntimeError else ret tt.

Definition _check_running : M world unit :=
  do r <- is_running;
  if r then raise RuntimeError else
  do w <- get;
  if decide (is_Some (running_loop w)) then raise RuntimeError else ret tt.

(** [_check_thread] compares with the thread id that [run_forever]
    records; this loop is never run that way, so there is none and
    the check passes. *)
Definition _check_thread : M world unit := ret tt.

Definition _check_callback (c : callable) : M world unit :=
  match c with
  | Function _ => ret tt
  | Coroutine _ | NotCallable => raise TypeError
  end.

Definition start_slave_loop : M world unit :=
  run _check_closed;
  run _check_running;
  do w <- get;
  run _set_coroutine_origin_tracking (_debug (self w));
  run set_old_agen_hooks (Some (asyncgen_hooks w));
  run set_asyncgen_hooks (Some (loop_id w));
  run _set_running_loop (Some (loop_id w));
  set_is_slave true.

Definition stop_slave_loop : M world unit :=
  do w <- get;
  if negb (_is_slave (self w)) then raise RuntimeError else
  run set_is_slave false;
  run _set_running_loop None;
  run _set_coroutine_origin_tracking false;
  match _old_agen_hooks (self w) with
  | Some h => set_asyncgen_hooks h
  | None => raise AttributeError
  end.

(** The delay [call_at] computes, in milliseconds.  Python's times
    are floats; they are taken here as exact rationals. *)
Definition call_at_delay (when now : Q) : Q :=
  let delay := ((when - now) * 1000)%Q in
  if Qlt_le_dec delay 0 then 0%Q else delay.

(** [call_at]; the timer handle is returned as its index in
    [timers].  The delay goes to [GLib.timeout_add] as it is computed:
    the binding's conversion of it to a 32-bit count of milliseconds,
    which raises for a delay it cannot hold, is not followed, so what
    is said of [call_at] is said of the calls its checks refuse and
    of the calls that return. *)
Definition call_at (when : Q) (callback : callable) : M world nat :=
  run _check_closed;
  do w <- get;
  run (if _debug (self w)
       then run _check_thread; _check_callback callback
       else ret tt);
  let timer := length (timers w) in
  run set_timers (fun ts => ts ++ [mkTimer when callback None]);
  let delay := call_at_delay when (clock w) in
  do source <- glib_call (GLib.timeout_add delay (GLib.Cb_timeout timer));
  run set_timers (alter (fun t => mkTimer (_when t) (_callback t) (Some source)) timer);
  ret timer.

Definition _timer_handle_cancelled (timer : nat) : M world unit :=
  do w <- get;
  match timers w !! timer with
  | None => raise AttributeError
  | Some t =>
      run match _scheduled t with
          | Some source => glib_exec (GLib.source_remove source)
          | None => ret tt
          end;
      set_timers (alter (fun t => mkTimer (_when t) (_callback t) None) timer)
  end.

Definition _timeout_cb (timer : nat) : M world bool :=
  do w <- get;
  match timers w !! timer with
  | None => raise AttributeError
  | Some t =>
      run run_callable (_callback t);
      run set_timers (alter (fun t => mkTimer (_when t) (_callback t) None) timer);
      ret false
  end.

(** [with self._lock:] on a lock nobody else holds; the interleaving
    of several callers is the subject of [Threads] below. *)
Definition _schedule_giteration : M world unit :=
  do w <- get;
  match _giteration (self w) with
  | None =>
      do id <- glib_call (GLib.timeout_add 0 GLib.Cb_giterate);
      set_giteration (Some id)
  | Some _ => ret tt
  end.

(** [_call_soon]: asyncio's makes the handle and queues it, then the
    drain is requested. *)
Definition _call_soon (h : handle) : M world handle :=
  do w <- get;
  run set_ready (_ready (self w) ++ [h]);
  run _schedule_giteration;
  ret h.

Section SelectorClose.
(** asyncio's [_close_self_pipe], which has the selector drop the
    loop's wake-up reader, and [self._selector.close()] with the reset
    of [self._selector] to [None] that follows it.  Both run the
    selector's code and nothing is assumed of them: they may raise,
    and [ThreadSelector.close] may wait for its thread for ever, in
    which case [close] has no result at all. *)
Variable _close_self_pipe : M world unit.
Variable selector_close : M world unit.

(** [asyncio.BaseEventLoop.close]. *)
Definition BaseEventLoop_close : M world unit :=
  do r <- is_running;
  if r then raise RuntimeError else
  do w <- get;
  if _closed (self w) then ret tt else
  run set_closed true;
  set_ready [].

(** [asyncio.selector_events.BaseSelectorEventLoop.close].  No signal
    handler is installed, so the platform's loop adds nothing. *)
Definition BaseSelectorEventLoop_close : M world unit :=
  do r <- is_running;
  if r then raise RuntimeError else
  do w <- get;
  if _closed (self w) then ret tt else
  run _close_self_pipe;
  run BaseEventLoop_close;
  selector_close.

(** [close]: the pending drain is removed, then [super().close()]. *)
Definition close : M world unit :=
  do w <- get;
  run match _giteration (self w) with
      | Some id =>
          run glib_exec (GLib.source_remove id);
          set_giteration None
      | None => ret tt
      end;
  BaseSelectorEventLoop_close.
End SelectorClose.

Section RunOnce.
(** asyncio's [BaseEventLoop._run_once]: one pass of its dispatch
    cycle.  It runs user callbacks, so nothing is assumed of it. *)
Variable _run_once : M world unit.

Definition _giterate : M world bool :=
  run _run_once;
  do w <- get;
  if negb (bool_decide (_ready (self w) = [])) then ret true else
  run (if getattr (attr__schedule_periodic_giterate (_selector (self w))) false
       then
         do id <- glib_call (GLib.timeout_add 10 GLib.Cb_giterate);
         set_giteration (Some id)
       else set_giteration None);
  ret false.

(** The main context dispatching the timeout source [id] that
    carries [_giterate]: the source is destroyed when the callback
    returns [False]. *)
Definition dispatch_giterate (id : nat) : M world unit :=
  do again <- _giterate;
  if again then ret tt else glib_exec (GLib.source_remove id).
End RunOnce.

(** The ids of the drain sources attached to a main context. *)
Definition is_drain (p : nat * GLib.source) : bool :=
  match snd p with
  | GLib.Timeout _ GLib.Cb_giterate => true
  | _ => false
  end.
Definition drain_sources (g : GLib.MainContext) : list nat :=
  List.map fst (List.filter is_drain (GLib.sources g)).

(** What [_giteration] says and what the main context holds agree. *)
Definition consistent (g : option nat) (c : GLib.MainContext) : Prop :=
  match g with
  | None => drain_sources c = []
  | Some id => drain_sources c = [id]
  end.

(** The same of a loop and its main context. *)
Definition agrees (w : world) : Prop :=
  consistent (_giteration (self w)) (main w).

(** [n] calls in a row. *)
Fixpoint repeat_schedule (n : nat) : M world unit :=
  match n with
  | O => ret tt
  | Datatypes.S n' => run _schedule_giteration; repeat_schedule n'
  end.

(** A loop on [ThreadSelector] whose drain is pending and whose pass
    finds nothing to do. *)
Definition thread_loop_pending : world :=
  snd (_schedule_giteration (init_world ThreadSelector_class)).

(** A deadline two seconds in the past, on a loop whose clock reads
    five seconds. *)
Definition late_world : world :=
  mkWorld (init None (Some GAsyncIOSelector_class) false) 0 GLib.empty 5%Q
          None None [] [].

End GAsyncIOEventLoop.

(* ------------------------------------------------------------------ *)
(** ** Several threads inside [_schedule_giteration]

    [call_soon_threadsafe] brings callers from any thread.  Each call
    is cut at the points where another thread can run: taking the lock,
    reading [_giteration], calling [GLib.timeout_add], storing the id,
    releasing the lock. *)

Module Threads.
Import GAsyncIOEventLoop.

Inductive pc : Type :=
| Acquire
| Check
| Add
| Store (id : nat)
| Release
| Finished.

Record state : Type := mkState {
  lock : bool;                       (* [self._lock] is held *)
  giteration : option nat;           (* [self._giteration] *)
  context : GLib.MainContext;
  pcs : list pc                      (* one per call in progress *)
}.

(** [n] calls about to start on a loop whose drain id is [g]. *)
Definition start (n : nat) (g : option nat) (c : GLib.MainContext) : state :=
  mkState false g c (replicate n Acquire).

Definition set_pc (i : nat) (p : pc) (st : state) : list pc :=
  <[i := p]> (pcs st).

(** One step of call [i]; [None] when it cannot move (blocked on the
    lock, finished, or no such call). *)
Definition thread_step (i : nat) (st : state) : option state :=
  match pcs st !! i with
  | Some Acquire =>
      if lock st then None
      else Some (mkState true (giteration st) (context st) (set_pc i Check st))
  | Some Check =>
      Some (mkState (lock st) (giteration st) (context st)
              (set_pc i (match giteration st with
                         | None => Add
                         | Some _ => Release
                         end) st))
  | Some Add =>
      let r := GLib.timeout_add 0 GLib.Cb_giterate (context st) in
      Some (mkState (lock st) (giteration st) (snd r) (set_pc i (Store (fst r)) st))
  | Some (Store id) =>
      Some (mkState (lock st) (Some id) (context st) (set_pc i Release st))
  | Some Release =>
      Some (mkState false (giteration st) (context st) (set_pc i Finished st))
  | Some Finished | None => None
  end.

(** A schedule names the call that is given the processor at each
    turn; a call that cannot move loses its turn. *)
Fixpoint run_schedule (sched : list nat) (st : state) : state :=
  match sched with
  | [] => st
  | i :: sched' =>
      run_schedule sched' (match thread_step i st with
                           | Some st' => st'
                           | None => st
                           end)
  end.

Definition all_finished (st : state) : Prop :=
  Forall (fun p => p = Finished) (pcs st).

(** The steps a call has left at most. *)
Definition steps_left (p : pc) : nat :=
  match p with
  | Acquire => 5
  | Check => 4
  | Add => 3
  | Store _ => 2
  | Release => 1
  | Finished => 0
  end.

(** The calls that are between taking and releasing the lock. *)
Definition critical (p : pc) : Prop :=
  match p with
  | Check | Add | Store _ | Release => True
  | Acquire | Finished => False
  end.

(** What a call inside the lock finds, by where it stands. *)
Definition phase (p : pc) (st : state) : Prop :=
  match p with
  | Check => consistent (giteration st) (context st)
  | Add => giteration st = None /\ drain_sources (context st) = []
  | Store id => giteration st = None /\ drain_sources (context st) = [id]
  | Release => exists id, giteration st = Some id /\
                          drain_sources (context st) = [id]
  | Acquire | Finished => True
  end.

Record invariant (st : state) : Prop := {
  inv_critical : forall i p, pcs st !! i = Some p -> critical p ->
    lock st = true /\ phase p st;
  inv_alone : forall i p j q, pcs st !! i = Some p -> critical p ->
    pcs st !! j = Some q -> critical q -> i = j;
  inv_outside : (forall i p, pcs st !! i = Some p -> ~ critical p) ->
    consistent (giteration st) (context st);
  inv_finished : giteration st = None ->
    forall i, pcs st !! i <> Some Finished;
  inv_at_most_one : (length (drain_sources (context st)) <= 1)%nat
}.

(** Call [i] run from start to end without interruption. *)
Definition alone (i : nat) : list nat := [i; i; i; i; i].

(** Every call in turn given the processor for as long as a whole call
    takes, twice over: a call found inside the lock comes out of it in
    the first round, and the calls it kept waiting go through in the
    second. *)
Definition to_the_end (n : nat) : list nat :=
  flat_map alone (seq 0 n) ++ flat_map alone (seq 0 n).

(** A lock that is held is held by a call. *)
Definition lock_is_held (st : state) : Prop :=
  lock st = true -> exists i p, pcs st !! i = Some p /\ critical p.

(** Where the calls stand, started on drain id [g] and main context
    [c]: with a drain pending at the start nothing is ever attached;
    without one, either nothing has been attached yet, or the one
    [timeout_add] has been made on [c] and its id is stored or about
    to be. *)
Definition tracks (g : option nat) (c : GLib.MainContext) (st : state) : Prop :=
  match g with
  | Some _ => giteration st = g /\ context st = c
  | None =>
      (giteration st = None /\ context st = c /\
       forall i id, pcs st !! i <> Some (Store id)) \/
      (context st = snd (GLib.timeout_add 0 GLib.Cb_giterate c) /\
       (giteration st = Some (GLib.next_source_id c) \/
        (giteration st = None /\
         forall i id, pcs st !! i = Some (Store id) ->
                      id = GLib.next_source_id c)))
  end.

(** The same calls without the lock: [Acquire] and [Release] do not
    touch it. *)
Definition thread_step_unlocked (i : nat) (st : state) : option state :=
  match pcs st !! i with
  | Some Acquire =>
      Some (mkState (lock st) (giteration st) (context st) (set_pc i Check st))
  | _ => thread_step i st
  end.

Fixpoint run_schedule_unlocked (sched : list nat) (st : state) : state :=
  match sched with
  | [] => st
  | i :: sched' =>
      run_schedule_unlocked sched'
        (match thread_step_unlocked i st with
         | Some st' => st'
         | None => st
         end)
  end.
End Threads.

(* ------------------------------------------------------------------ *)
(** ** threadselector.ThreadSelector *)

(** The names bound at the top level of [threadselector.py] (its
    imports and its class), and the builtins it refers to. *)
Definition threadselector_globals : list string :=
  ["socket"; "select"; "selectors"; "asyncio"; "threading"; "ThreadSelector"]%string.
Definition builtins_used : list string :=
  ["getattr"; "frozenset"; "OSError"; "RuntimeError"; "AttributeError";
   "BlockingIOError"]%string.

(** Reading a global name inside the module. *)
Definition load_global (name : string) : result string :=
  if bool_decide (name ∈ threadselector_globals ++ builtins_used)
  then Ok name else Raise (NameError name).

(** What the standard [errno] module offers on a platform. *)
Record errno_module : Type := mkErrno {
  WSAENOTSOCK : option Z;
  EBADF : Z
}.
Definition errno_posix : errno_module := mkErrno None 9.
Definition errno_win32 : errno_module := mkErrno (Some 10038) 9.

Module ThreadSelector.

Record t : Type := mk {
  _fd_to_key : gmap Z SelectorKey;      (* selectors._BaseSelectorImpl *)
  _readers : gset Z;                    (* selectors.SelectSelector *)
  _writers : gset Z;
  _loop : option nat;
  _thread : option nat;
  _closed : bool;
  _waker_r : option fileobj;
  _waker_w : option fileobj
}.

(** The selector with the process state it acts on: asyncio's
    running loop, the wake socket pair's buffer, and the counters
    objects and descriptors are allocated from. *)
Record world : Type := mkWorld {
  self : t;
  running_loop : option nat;
  waker_bytes : nat;
  waker_room : nat;
  next_fd : Z;
  next_oid : nat;
  threads_started : nat;
  threads_joined : nat
}.

(** [__init__]. *)
Definition init : t := mk ∅ ∅ ∅ None None false None None.
Definition init_world (running : option nat) : world :=
  mkWorld init running 0 4096 3 0 0 0.

Definition on_self (f : t -> t) : M world unit :=
  modify_state (fun w => mkWorld (f (self w)) (running_loop w) (waker_bytes w)
                           (waker_room w) (next_fd w) (next_oid w)
                           (threads_started w) (threads_joined w)).

Global Instance base : BaseSelector world := {|
  fd_to_key w := _fd_to_key (self w);
  set_fd_to_key m w :=
    mkWorld (mk m (_readers (self w)) (_writers (self w)) (_loop (self w))
                (_thread (self w)) (_closed (self w)) (_waker_r (self w))
                (_waker_w (self w)))
            (running_loop w) (waker_bytes w) (waker_room w) (next_fd w)
            (next_oid w) (threads_started w) (threads_joined w)
|}.

Definition set_readers_writers (fr fw : gset Z -> gset Z) : M world unit :=
  on_self (fun s => mk (_fd_to_key s) (fr (_readers s)) (fw (_writers s))
                       (_loop s) (_thread s) (_closed s) (_waker_r s) (_waker_w s)).

(** [selectors.SelectSelector.register] and [unregister], the
    [super()] of this class. *)
Definition SelectSelector_register (f : fileobj) (events : Z) (data : key_data)
    : M world SelectorKey :=
  do key <- BaseSelectorImpl.register f events data;
  run set_readers_writers
        (fun r => if truthy (Z.land events EVENT_READ) then {[key_fd key]} ∪ r else r)
        (fun w => if truthy (Z.land events EVENT_WRITE) then {[key_fd key]} ∪ w else w);
  ret key.

Definition SelectSelector_unregister (f : fileobj) : M world SelectorKey :=
  do key <- BaseSelectorImpl.unregister f;
  run set_readers_writers (fun r => r ∖ {[key_fd key]}) (fun w => w ∖ {[key_fd key]});
  ret key.

(** [asyncio.get_running_loop()]. *)
Definition get_running_loop : M world nat :=
  do w <- get;
  match running_loop w with
  | Some l => ret l
  | None => raise RuntimeError
  end.

(** [self._waker_w.send(b"W")] on the non-blocking socket. *)
Definition waker_send : M world unit :=
  do w <- get;
  match _waker_w (self w) with
  | None => raise AttributeError
  | Some _ =>
      if (waker_bytes w <? waker_room w)%nat then
        modify_state (fun w =>
          mkWorld (self w) (running_loop w) (Datatypes.S (waker_bytes w))
                  (waker_room w) (next_fd w) (next_oid w)
                  (threads_started w) (threads_joined w))
      else raise BlockingIOError
  end.

(** [self._waker_r.recv(1024)]. *)
Definition waker_recv : M world unit :=
  do w <- get;
  match _waker_r (self w) with
  | None => raise AttributeError
  | Some _ =>
      if (waker_bytes w =? 0)%nat then raise BlockingIOError else
      modify_state (fun w =>
        mkWorld (self w) (running_loop w) (waker_bytes w - 1024)%nat
                (waker_room w) (next_fd w) (next_oid w)
                (threads_started w) (threads_joined w))
  end.

Definition swallow_BlockingIOError (e : exn) : option (M world unit) :=
  match e with BlockingIOError => Some (ret tt) | _ => None end.

Section Loop.
(** [self._loop.add_reader] and [remove_reader] are the owning
    loop's, from asyncio. *)
Variable add_reader : fileobj -> M world unit.
Variable remove_reader : fileobj -> M world unit.

Definition create_thread : M world unit :=
  do w <- get;
  let r := FdObj (next_oid w) (Some (next_fd w)) in
  let wr := FdObj (Datatypes.S (next_oid w)) (Some (next_fd w + 1)) in
  run modify_state (fun w =>
    mkWorld (mk (_fd_to_key (self w)) (_readers (self w)) (_writers (self w))
                (_loop (self w)) (Some (threads_started w)) (_closed (self w))
                (Some r) (Some wr))
            (running_loop w) (waker_bytes w) (waker_room w) (next_fd w + 2)
            (Datatypes.S (Datatypes.S (next_oid w)))
            (Datatypes.S (threads_started w)) (threads_joined w));
  add_reader r.

Definition _wake_selector : M world unit :=
  do running <-
    try_except (do l <- get_running_loop; ret (Some l))
               (fun e => match e with
                         | RuntimeError => Some (ret None)
                         | _ => None
                         end);
  match running with
  | None => ret tt
  | Some loop =>
      do w <- get;
      run match _thread (self w) with
          | None =>
              run on_self (fun s => mk (_fd_to_key s) (_readers s) (_writers s)
                                      (Some loop) (_thread s) (_closed s)
                                      (_waker_r s) (_waker_w s));
              create_thread
          | Some _ => ret tt
          end;
      do w <- get;
      if negb (bool_decide (_loop (self w) = Some loop)) then raise AssertionError
      else try_except waker_send swallow_BlockingIOError
  end.

(** Python's [None] is [None] here: neither method has a [return]. *)
Definition register (f : fileobj) (events : Z) (data : key_data)
    : M world (option SelectorKey) :=
  run SelectSelector_register f events data;
  run _wake_selector;
  ret None.

Definition unregister (f : fileobj) : M world (option SelectorKey) :=
  do key <- SelectSelector_unregister f;
  run _wake_selector;
  ret None.

(** [modify] is inherited from [_BaseSelectorImpl]. *)
Definition modify (f : fileobj) (events : Z) (data : key_data)
    : M world (option SelectorKey) :=
  BaseSelectorImpl.modify Some unregister register f events data.

Definition select (timeout : option Q) : M world (list (SelectorKey * Z)) :=
  ret [].

Definition close : M world unit :=
  do w <- get;
  if _closed (self w) then ret tt else
  run on_self (fun s => mk (_fd_to_key s) (_readers s) (_writers s) (_loop s)
                          (_thread s) true (_waker_r s) (_waker_w s));
  match _thread (self w) with
  | None => ret tt
  | Some _ =>
      run _wake_selector;
      run modify_state (fun w =>
        mkWorld (self w) (running_loop w) (waker_bytes w) (waker_room w)
                (next_fd w) (next_oid w) (threads_started w)
                (Datatypes.S (threads_joined w)));
      match _waker_r (self w) with
      | Some r => remove_reader r
      | None => raise AttributeError
      end
  end.

Definition _consume_waker : M world unit :=
  do w <- get;
  match _thread (self w) with
  | None => ret tt
  | Some _ => try_except waker_recv swallow_BlockingIOError
  end.
End Loop.

(** *** The background thread

    One turn of the [while] loop of [_run_select] meets: the value of
    [self._closed] when it is tested, what the blocking
    [select.select] does, what the zero-timeout poll of the wake
    socket does if it comes to that, and whether
    [call_soon_threadsafe] raises. *)
Inductive selected : Type :=
| Selected (rs ws xs : list Z)
| SelectRaises (e : exn).

Record turn : Type := mkTurn {
  closed_now : bool;
  blocking : selected;
  waker_poll : selected;
  handoff : option exn
}.

Inductive thread_end : Type :=
| Returned            (* the loop saw [_closed] *)
| Died (e : exn)      (* an exception left [_run_select] *)
| Waiting.            (* still in the loop *)

Section Platform.
Variable platform : errno_module.

(** [getattr(errno, "WSAENOTSOCK", errno.EBADF)], read in a module
    that does not import [errno]. *)
Definition not_a_socket_code : result Z :=
  match load_global "getattr", load_global "errno" with
  | Raise e, _ => Raise e
  | Ok _, Raise e => Raise e
  | Ok _, Ok _ => Ok (getattr (WSAENOTSOCK platform) (EBADF platform))
  end.

(** The first [try] of the loop body: the ready lists handed on, or
    the exception that leaves the thread. *)
Definition wait_ready (t : turn) : result (list Z * list Z) :=
  match blocking t with
  | Selected rs ws xs => Ok (rs, ws ++ xs)
  | SelectRaises (OSError e) =>
      match not_a_socket_code with
      | Raise x => Raise x
      | Ok code =>
          if e =? code then
            match waker_poll t with
            | Selected [] _ _ => Raise (OSError e)
            | Selected rs _ _ => Ok (rs, [])
            | SelectRaises x => Raise x
            end
          else Raise (OSError e)
      end
  | SelectRaises x => Raise x
  end.

(** [_run_select] against a script of turns: what it handed to the
    owner, and how it ended. *)
Fixpoint _run_select (script : list turn)
    : list (list Z * list Z) * thread_end :=
  match script with
  | [] => ([], Waiting)
  | t :: rest =>
      if closed_now t then ([], Returned) else
      match wait_ready t with
      | Raise e => ([], Died e)
      | Ok ready =>
          match handoff t with
          | None =>
              let r := _run_select rest in (ready :: fst r, snd r)
          | Some RuntimeError | Some AttributeError => _run_select rest
          | Some e => ([], Died e)
          end
      end
  end.
End Platform.

(** [EBADF] on a POSIX platform while the wake socket (descriptor 3)
    is readable, followed by a turn that would have gone well. *)
Definition spurious_wakeup : list turn :=
  [mkTurn false (SelectRaises (OSError (EBADF errno_posix)))
          (Selected [3] [] []) None;
   mkTurn false (Selected [5] [] []) (Selected [] [] []) None].

End ThreadSelector.

(* ------------------------------------------------------------------ *)
(** ** The watches a selector keeps in the main context *)

Module Watches.
Import GAsyncIOSelector.

(** The world a fresh selector, on an empty main context, is brought
    to by a list of calls. *)
Definition history (cs : list call) : world :=
  foldl (fun w c => after c w) init_world cs.

(** The source ids handed out so far are below the next one. *)
Definition ids_below (g : GLib.MainContext) : Prop :=
  Forall (fun p => (fst p < GLib.next_source_id g)%nat) (GLib.sources g).

(** A wrapper as [register] configures it: over descriptor [n], no
    encoding, unbuffered, not closing the descriptor with it. *)
Definition raw_channel (n : Z) (c : GLib.IOChannel) : Prop :=
  GLib.chan_fd c = n /\ GLib.chan_encoding c = None /\
  GLib.chan_buffered c = false /\ GLib.chan_close_on_unref c = false.

(** The watch [register] attaches for a key on a wrapper. *)
Definition watch_for (ch : GLib.IOChannel) (key : SelectorKey) : GLib.source :=
  GLib.IOWatch ch GLib.PRIORITY_DEFAULT
    (Z.lor (_events_to_io_condition (key_events key)) GLib.IO_HUP)
    (GLib.Cb_channel_watch key).

(** Two keys that differ at most in their data. *)
Definition same_registration (k k' : SelectorKey) : Prop :=
  key_fileobj k = key_fileobj k' /\ key_fd k = key_fd k' /\
  key_events k = key_events k'.

Record watches_in_step (w : world) : Prop := {
  ids_fresh : ids_below (main w);
  ids_distinct : NoDup (List.map fst (GLib.sources (main w)));
  watch_of_source : forall n id, _sources (self w) !! n = Some id ->
    exists ch k key,
      _io_channels (self w) !! n = Some ch /\
      _fd_to_key (self w) !! n = Some k /\
      same_registration key k /\
      (id, watch_for ch key) ∈ GLib.sources (main w);
  source_of_watch : forall id src, (id, src) ∈ GLib.sources (main w) ->
    exists n, _sources (self w) !! n = Some id;
  sources_injective : forall n m id,
    _sources (self w) !! n = Some id -> _sources (self w) !! m = Some id ->
    n = m;
  channels_raw : forall n c, _io_channels (self w) !! n = Some c ->
    raw_channel n c
}.

End Watches.

(* ------------------------------------------------------------------ *)
(** ** The main context firing a timer, and the module-level stop *)

Module HostLoop.
Import GAsyncIOEventLoop.

(** The main context dispatching the timeout source [id] that carries
    [_timeout_cb] for [timer]: the source is destroyed when the
    callback returns [False]. *)
Definition dispatch_timeout (timer id : nat) : M world unit :=
  do again <- _timeout_cb timer;
  if again then ret tt else glib_exec (GLib.source_remove id).

(** [_add_callback], with asyncio's [_add_callback] as it is: a handle
    that is cancelled is not queued, and there is no [return], so
    [None] comes back.  [cancelled] is the handle's [_cancelled]. *)
Definition _add_callback (cancelled : bool) (h : handle)
    : M world (option handle) :=
  do w <- get;
  run (if cancelled then ret tt else set_ready (_ready (self w) ++ [h]));
  run _schedule_giteration;
  ret None.

(** The module's [stop_slave_loop()], on the loop that
    [asyncio.get_event_loop()] returns: stop it, then close it (the
    reset of asyncio's policy that follows touches nothing here). *)
Definition module_stop_slave_loop
    (_close_self_pipe selector_close : M world unit) : M world unit :=
  run stop_slave_loop;
  close _close_self_pipe selector_close.

(** What is asked of the selector's part in closing, where [close] is
    said to return: it returns, and it leaves alone what the loop keeps
    of its state and of its drain (the selector attribute itself is
    its to reset), the drain sources, the running loop and the
    asyncgen hooks.  [GAsyncIOSelector] does so (dropping the wake-up
    reader removes an IO watch); [ThreadSelector.close] need not
    return. *)
Definition keeps_loop (m : M world unit) : Prop :=
  forall w, exists w',
    m w = (Ok tt, w') /\
    _is_slave (self w') = _is_slave (self w) /\
    _closed (self w') = _closed (self w) /\
    _giteration (self w') = _giteration (self w) /\
    _ready (self w') = _ready (self w) /\
    drain_sources (main w') = drain_sources (main w) /\
    running_loop w' = running_loop w /\
    asyncgen_hooks w' = asyncgen_hooks w.

End HostLoop.

(* ------------------------------------------------------------------ *)
(** ** ThreadSelector on the owner's thread *)

Module ThreadSelectorOwner.
Import ThreadSelector.

(** [(fd in r and EVENT_READ) | (fd in w and EVENT_WRITE)]: a [False]
    operand of [|] counts as 0. *)
Definition ready_events (r w : gset Z) (fd : Z) : Z :=
  Z.lor (if bool_decide (fd ∈ r) then EVENT_READ else 0)
        (if bool_decide (fd ∈ w) then EVENT_WRITE else 0).

(** The list [_handle_select] builds from the raw descriptors. *)
Definition ready_list (s : t) (r w : list Z) : list (SelectorKey * Z) :=
  let r : gset Z := list_to_set r in
  let w : gset Z := list_to_set w in
  flat_map (fun fd => match _fd_to_key s !! fd with
                      | Some key =>
                          [(key, Z.land (ready_events r w fd) (key_events key))]
                      | None => []
                      end)
           (elements (r ∪ w)).

Section Owner.
(** [self._loop._process_events] is the owning loop's, from asyncio. *)
Variable _process_events : list (SelectorKey * Z) -> M world unit.

Definition _handle_select (r w : list Z) : M world unit :=
  do wd <- get;
  let ready := ready_list (self wd) r w in
  match _loop (self wd) with
  | Some _ => _process_events ready
  | None => raise AttributeError
  end.
End Owner.

(** A turn of the background thread in which nothing is wrong: the
    selector is open, [select.select] returns, and the hand-off either
    goes through or fails with one of the two errors that are
    swallowed. *)
Definition goes_well (t : turn) : Prop :=
  closed_now t = false /\
  (exists rs ws xs, blocking t = Selected rs ws xs) /\
  (handoff t = None \/ handoff t = Some RuntimeError \/
   handoff t = Some AttributeError).

(** What such a turn hands to the owner. *)
Definition handed_over (t : turn) : list (list Z * list Z) :=
  match blocking t, handoff t with
  | Selected rs ws xs, None => [(rs, ws ++ xs)]
  | _, _ => []
  end.

(** The calls a selector receives on the owner's thread, and asyncio's
    running loop changing between them. *)
Inductive call : Type :=
| Call_register (f : fileobj) (events : Z) (data : key_data)
| Call_unregister (f : fileobj)
| Call_modify (f : fileobj) (events : Z) (data : key_data)
| Call_close
| Call__consume_waker
| Running_loop_becomes (l : option nat).

Section Calls.
Variable add_reader : fileobj -> M world unit.
Variable remove_reader : fileobj -> M world unit.

Definition after (c : call) (w : world) : world :=
  match c with
  | Call_register f events data => snd (register add_reader f events data w)
  | Call_unregister f => snd (unregister add_reader f w)
  | Call_modify f events data => snd (modify add_reader f events data w)
  | Call_close => snd (close add_reader remove_reader w)
  | Call__consume_waker => snd (_consume_waker w)
  | Running_loop_becomes l =>
      mkWorld (self w) l (waker_bytes w) (waker_room w) (next_fd w)
              (next_oid w) (threads_started w) (threads_joined w)
  end.

Definition history (cs : list call) : world :=
  foldl (fun w c => after c w) (init_world None) cs.
End Calls.

(** What is asked of the loop's [add_reader] and [remove_reader]: on a
    selector whose thread has been started they start no thread and
    leave the thread and the wake sockets in place. *)
Definition keeps_thread (m : fileobj -> M world unit) : Prop :=
  forall f w, is_Some (_thread (self w)) ->
    _thread (self (snd (m f w))) = _thread (self w) /\
    _waker_r (self (snd (m f w))) = _waker_r (self w) /\
    _waker_w (self (snd (m f w))) = _waker_w (self w) /\
    threads_started (snd (m f w)) = threads_started w.

(** The thread, the wake sockets and the count of threads started go
    together. *)
Definition thread_in_step (w : world) : Prop :=
  match _thread (self w) with
  | None => threads_started w = 0%nat
  | Some _ => threads_started w = 1%nat /\
              is_Some (_waker_r (self w)) /\ is_Some (_waker_w (self w))
  end.

(** One wake byte, if the socket has room for it. *)
Definition one_more_byte (w : world) : nat :=
  if (waker_bytes w <? waker_room w)%nat
  then Datatypes.S (waker_bytes w) else waker_bytes w.

(** A method that keeps them together. *)
Definition keeps_in_step {A} (m : M world A) : Prop :=
  forall w, thread_in_step w -> thread_in_step (snd (m w)).

End ThreadSelectorOwner.
(* ================================================================== *)
(** * Properties *)

Lemma bind_ok {S A B} (m : M S A) (f : A -> M S B) s a s' :
  m s = (Ok a, s') -> bind m f s = f a s'.
Proof. intros H. unfold bind. now rewrite H. Qed.

Lemma bind_raise {S A B} (m : M S A) (f : A -> M S B) s e s' :
  m s = (Raise e, s') -> bind m f s = (Raise e, s').
Proof. intros H. unfold bind. now rewrite H. Qed.

(** A computation that succeeded, seen through [bind]. *)
Lemma bind_inv_ok {S A B} (m : M S A) (f : A -> M S B) s b s'' :
  bind m f s = (Ok b, s'') ->
  exists a s', m s = (Ok a, s') /\ f a s' = (Ok b, s'').
Proof.
  unfold bind. destruct (m s) as [[a|e] s'] eqn:E; intros H.
  - eauto.
  - discriminate.
Qed.

Lemma bind_inv_raise {S A B} (m : M S A) (f : A -> M S B) s e s'' :
  bind m f s = (Raise e, s'') ->
  m s = (Raise e, s'') \/
  exists a s', m s = (Ok a, s') /\ f a s' = (Raise e, s'').
Proof.
  unfold bind. destruct (m s) as [[a|e'] s'] eqn:E; intros H.
  - right. eauto.
  - left. congruence.
Qed.

(* ------------------------------------------------------------------ *)
(** ** selectors._BaseSelectorImpl *)

Module BaseFacts.
Section Base.
Context {S : Type} `{BaseSelector S}.
Import BaseSelectorImpl.

Lemma _fileobj_lookup_state (f : fileobj) (s : S) :
snd (_fileobj_lookup f s) = s.
Proof.
unfold _fileobj_lookup. destruct (_fileobj_to_fd f); [done|].
now destruct (List.find _ _).
Qed.

(** A descriptor found by the search is a registered one. *)
Lemma _fileobj_lookup_search (f : fileobj) (s : S) (n : Z) :
(forall m k, fd_to_key s !! m = Some k -> key_fd k = m) ->
_fileobj_to_fd f = Raise ValueError ->
fst (_fileobj_lookup f s) = Ok n ->
is_Some (fd_to_key s !! n).
Proof.
intros Hfd Hf. unfold _fileobj_lookup. rewrite Hf.
destruct (List.find _ _) as [[m k]|] eqn:E; simpl; [|done].
intros [= <-]. apply find_some in E as [Hin _].
apply list_elem_of_In, elem_of_map_to_list in Hin.
simpl. rewrite (Hfd _ _ Hin). eauto.
Qed.
End Base.
End BaseFacts.

(* ------------------------------------------------------------------ *)
(** ** GAsyncIOSelector *)

Module GAsyncIOSelectorFacts.
Import GAsyncIOSelector.

Ltac unfold_py :=
  unfold register, unregister, modify, select, _channel_watch_cb,
    BaseSelectorImpl.register, BaseSelectorImpl.unregister,
    BaseSelectorImpl.modify, run_handle,
    set_sources, set_io_channels, set_fileobj_preserve, set_hups, on_self,
    glib_call, glib_exec, bind, get, ret, raise, modify_state in *.

Lemma lookup_ok_state (f : fileobj) (w : world) (n : Z) :
  fst (BaseSelectorImpl._fileobj_lookup f w) = Ok n ->
  BaseSelectorImpl._fileobj_lookup f w = (Ok n, w).
Proof.
  intros H. rewrite <- (BaseFacts._fileobj_lookup_state f w) at 2.
  rewrite <- H. now destruct (BaseSelectorImpl._fileobj_lookup f w).
Qed.

Lemma lookup_raise_state (f : fileobj) (w : world) e w' :
  BaseSelectorImpl._fileobj_lookup f w = (Raise e, w') -> w' = w.
Proof.
  intros H. rewrite <- (BaseFacts._fileobj_lookup_state f w), H. done.
Qed.


(** Under the invariant the selector's own duplicate check never
    fires: a descriptor with a watch already has a key, and the
    inherited [register] has refused it before. *)
Lemma register_cases (w : world) f events data :
  maps_in_step (self w) ->
  (exists e, register f events data w = (Raise e, w)) \/
  (exists key w', register f events data w = (Ok key, w') /\
     BaseSelectorImpl._fileobj_lookup f w = (Ok (key_fd key), w) /\
     _fd_to_key (self w) !! key_fd key = None /\
     key = mkKey f (key_fd key) events data /\
     _fd_to_key (self w') = <[key_fd key := key]> (_fd_to_key (self w)) /\
     (exists src, _sources (self w') = <[key_fd key := src]> (_sources (self w))) /\
     _fileobj_preserve (self w') = _fileobj_preserve (self w) /\
     _hups (self w') = _hups (self w) /\
     ran w' = ran w /\
     match _io_channels (self w) !! key_fd key with
     | Some c => _io_channels (self w') = _io_channels (self w) /\
                 GLib.channels_created (main w') = GLib.channels_created (main w)
     | None => (exists c, _io_channels (self w') = <[key_fd key := c]> (_io_channels (self w))) /\
               GLib.channels_created (main w') = Datatypes.S (GLib.channels_created (main w))
     end).
Proof.
  intros Hinv. unfold_py.
  destruct (BaseSelectorImpl.invalid_events events); [left; eauto|].
  destruct (BaseSelectorImpl._fileobj_lookup f w) as [[n|e] w1] eqn:El.
  2:{ left. exists e. by rewrite (lookup_raise_state _ _ _ _ El). }
  assert (w1 = w) as ->
    by (rewrite <- (BaseFacts._fileobj_lookup_state f w), El; done).
  simpl. destruct (decide (is_Some (_fd_to_key (self w) !! n))) as [Hk|Hk];
    [left; eauto|].
  simpl. destruct (decide (is_Some (_sources (self w) !! n))) as [Hs|Hs].
  { exfalso. apply Hk. by apply (source_has_key _ Hinv). }
  right. apply eq_None_not_Some in Hk.
  destruct (_io_channels (self w) !! n) as [c|] eqn:Ec; simpl;
    do 2 eexists; (split; [reflexivity|]); simpl; rewrite ?Ec;
    repeat split; eauto.
Qed.

Lemma unregister_cases (w : world) f :
  maps_in_step (self w) ->
  (exists e, unregister f w = (Raise e, w)) \/
  (exists key w', unregister f w = (Ok key, w') /\
     BaseSelectorImpl._fileobj_lookup f w = (Ok (key_fd key), w) /\
     _fd_to_key (self w) !! key_fd key = Some key /\
     _fd_to_key (self w') = delete (key_fd key) (_fd_to_key (self w)) /\
     _sources (self w') = delete (key_fd key) (_sources (self w)) /\
     _fileobj_preserve (self w') = _fileobj_preserve (self w) /\
     _hups (self w') = _hups (self w) /\
     ran w' = ran w /\
     GLib.channels_created (main w') = GLib.channels_created (main w) /\
     _io_channels (self w') =
       if decide (py_eq_key f ∈ _fileobj_preserve (self w))
       then _io_channels (self w)
       else delete (key_fd key) (_io_channels (self w))).
Proof.
  intros Hinv. unfold_py.
  destruct (BaseSelectorImpl._fileobj_lookup f w) as [[n|e] w1] eqn:El.
  2:{ left. exists e. by rewrite (lookup_raise_state _ _ _ _ El). }
  assert (w1 = w) as ->
    by (rewrite <- (BaseFacts._fileobj_lookup_state f w), El; done).
  simpl. destruct (_fd_to_key (self w) !! n) as [key|] eqn:Ek; [|left; eauto].
  pose proof (key_under_fd _ Hinv _ _ Ek) as Hfd. simpl. rewrite Hfd.
  destruct (key_has_source _ Hinv n) as [src Hsrc]; [eauto|]. rewrite Hsrc.
  destruct (source_has_channel _ Hinv n) as [c Hc]; [eauto|].
  right. simpl.
  destruct (decide (py_eq_key f ∈ _fileobj_preserve (self w))); simpl;
    rewrite ?Hc; simpl; do 2 eexists; (split; [reflexivity|]); simpl;
    rewrite ?Hfd; repeat split; eauto.
Qed.

Lemma maps_in_step_init : maps_in_step init.
Proof.
  split; simpl; intros *; rewrite ?lookup_empty;
    try (intros [? ?]; done); done.
Qed.

Lemma register_in_step w f events data :
  maps_in_step (self w) ->
  maps_in_step (self (snd (register f events data w))).
Proof.
  intros Hinv.
  destruct (register_cases w f events data Hinv)
    as [[e ->]|(key & w' & -> & _ & Hnone & Hkey & Hk & [src Hs] & _ & _ & _ & Hc)];
    [done|]. simpl.
  assert (exists c, _io_channels (self w') !! key_fd key = Some c /\
            forall n, n <> key_fd key ->
              _io_channels (self w') !! n = _io_channels (self w) !! n)
    as (c & Hcn & Hco).
  { destruct (_io_channels (self w) !! key_fd key) as [c|] eqn:Ec.
    - destruct Hc as [-> _]. eauto.
    - destruct Hc as [[c ->] _]. exists c. rewrite lookup_insert_eq.
      split; [done|]. intros n Hn. by rewrite lookup_insert_ne. }
  split; intros n.
  - rewrite Hk, Hs. destruct (decide (n = key_fd key)) as [->|Hn].
    + rewrite !lookup_insert_eq. eauto.
    + rewrite !lookup_insert_ne by done. apply (key_has_source _ Hinv).
  - rewrite Hk, Hs. destruct (decide (n = key_fd key)) as [->|Hn].
    + rewrite !lookup_insert_eq. eauto.
    + rewrite !lookup_insert_ne by done. apply (source_has_key _ Hinv).
  - rewrite Hs. destruct (decide (n = key_fd key)) as [->|Hn].
    + rewrite Hcn. eauto.
    + rewrite lookup_insert_ne, Hco by done. apply (source_has_channel _ Hinv).
  - intros k. rewrite Hk. destruct (decide (n = key_fd key)) as [->|Hn].
    + rewrite lookup_insert_eq. by intros [= <-].
    + rewrite lookup_insert_ne by done. apply (key_under_fd _ Hinv).
Qed.

Lemma unregister_in_step w f :
  maps_in_step (self w) ->
  maps_in_step (self (snd (unregister f w))).
Proof.
  intros Hinv.
  destruct (unregister_cases w f Hinv)
    as [[e ->]|(key & w' & -> & _ & Hkey & Hk & Hs & _ & _ & _ & _ & Hc)];
    [done|]. simpl.
  split; intros n.
  - rewrite Hk, Hs. destruct (decide (n = key_fd key)) as [->|Hn].
    + rewrite !lookup_delete_eq. intros [? ?]; done.
    + rewrite !lookup_delete_ne by done. apply (key_has_source _ Hinv).
  - rewrite Hk, Hs. destruct (decide (n = key_fd key)) as [->|Hn].
    + rewrite !lookup_delete_eq. intros [? ?]; done.
    + rewrite !lookup_delete_ne by done. apply (source_has_key _ Hinv).
  - rewrite Hs, Hc. destruct (decide (n = key_fd key)) as [->|Hn].
    + rewrite lookup_delete_eq. intros [? ?]; done.
    + rewrite lookup_delete_ne by done. intros H.
      apply (source_has_channel _ Hinv) in H.
      destruct (decide _); [done|]. by rewrite lookup_delete_ne.
  - intros k. rewrite Hk. destruct (decide (n = key_fd key)) as [->|Hn].
    + by rewrite lookup_delete_eq.
    + rewrite lookup_delete_ne by done. apply (key_under_fd _ Hinv).
Qed.

(** The invariant only reads the three maps. *)
Lemma maps_in_step_ext (s s' : t) :
  _fd_to_key s' = _fd_to_key s -> _sources s' = _sources s ->
  _io_channels s' = _io_channels s ->
  maps_in_step s -> maps_in_step s'.
Proof.
  intros Hk Hs Hc [H1 H2 H3 H4].
  split; intros n; rewrite ?Hk, ?Hs, ?Hc; auto.
Qed.

(** [_fileobj_lookup] only reads the key map. *)
Lemma lookup_ext (f : fileobj) (w w' : world) :
  _fd_to_key (self w') = _fd_to_key (self w) ->
  fst (BaseSelectorImpl._fileobj_lookup f w') =
  fst (BaseSelectorImpl._fileobj_lookup f w).
Proof.
  intros Hk. unfold BaseSelectorImpl._fileobj_lookup. simpl. rewrite Hk.
  destruct (_fileobj_to_fd f); [done|]. by destruct (List.find _ _).
Qed.

Lemma lookup_pair (f : fileobj) (w : world) :
  BaseSelectorImpl._fileobj_lookup f w =
  (fst (BaseSelectorImpl._fileobj_lookup f w), w).
Proof.
  rewrite <- (BaseFacts._fileobj_lookup_state f w) at 3.
  by destruct (BaseSelectorImpl._fileobj_lookup f w).
Qed.

(** A descriptor that resolves but has no key was resolved directly,
    not by the search among the keys. *)
Lemma lookup_unregistered_direct (f : fileobj) (w : world) (n : Z) :
  maps_in_step (self w) ->
  fst (BaseSelectorImpl._fileobj_lookup f w) = Ok n ->
  _fd_to_key (self w) !! n = None ->
  _fileobj_to_fd f = Ok n.
Proof.
  intros Hinv Hl Hnone.
  destruct (_fileobj_to_fd f) as [m|e] eqn:Ef.
  - unfold BaseSelectorImpl._fileobj_lookup in Hl. rewrite Ef in Hl.
    simpl in Hl. congruence.
  - assert (e = ValueError) as ->.
    { destruct f as [m|o [m|]]; simpl in Ef; repeat case_match; congruence. }
    pose proof (BaseFacts._fileobj_lookup_search f w n
                  (key_under_fd _ Hinv) Ef Hl) as [k Hk].
    simpl in Hk. congruence.
Qed.

Lemma lookup_direct (f : fileobj) (w : world) (n : Z) :
  _fileobj_to_fd f = Ok n ->
  fst (BaseSelectorImpl._fileobj_lookup f w) = Ok n.
Proof. intros Ef. unfold BaseSelectorImpl._fileobj_lookup. by rewrite Ef. Qed.

Lemma base_modify_frame w f events data res w' :
  maps_in_step (self w) ->
  py_eq_key f ∈ _fileobj_preserve (self w) ->
  BaseSelectorImpl.modify id unregister register f events data w = (res, w') ->
  _io_channels (self w') = _io_channels (self w) /\
  GLib.channels_created (main w') = GLib.channels_created (main w) /\
  _fileobj_preserve (self w') = _fileobj_preserve (self w) /\
  maps_in_step (self w').
Proof.
  intros Hinv Hp H. unfold BaseSelectorImpl.modify in H.
  unfold bind at 1 in H. rewrite (lookup_pair f w) in H.
  destruct (fst (BaseSelectorImpl._fileobj_lookup f w)) as [n|e] eqn:El;
    [|by simplify_eq].
  unfold bind at 1, get in H. cbv beta iota in H.
  change (fd_to_key w) with (_fd_to_key (self w)) in H.
  destruct (_fd_to_key (self w) !! n) as [key|] eqn:Ek;
    [|unfold raise in H; by simplify_eq].
  destruct (negb (events =? key_events key)).
  - unfold bind in H.
    pose proof (unregister_in_step w f Hinv) as Hinv1.
    destruct (unregister_cases w f Hinv)
      as [[e He]|(key1 & w1 & He & Hl1 & Hk1 & Hfk & Hs & Hpres & _ & _ & Hcc & Hc)];
      rewrite He in *; [by simplify_eq|].
    simpl in Hinv1. rewrite decide_True in Hc by done.
    pose proof (register_in_step w1 f events data Hinv1) as Hinv2.
    destruct (register_cases w1 f events data Hinv1)
      as [[e Hr]|(key2 & w2 & Hr & Hl2 & Hnone & _ & _ & _ & Hpres2 & _ & _ & Hc2)];
      rewrite Hr in *; simplify_eq/=.
    { by rewrite Hc, Hcc, Hpres. }
    assert (key_fd key2 = key_fd key1) as Hsame.
    { assert (_fileobj_to_fd f = Ok (key_fd key2)) as Hd.
      { apply (lookup_unregistered_direct f w1); [done| |done]. by rewrite Hl2. }
      pose proof (lookup_direct f w _ Hd) as Hl. rewrite Hl1 in Hl. simpl in Hl.
      congruence. }
    destruct (source_has_channel _ Hinv (key_fd key1)) as [c Hch].
    { apply (key_has_source _ Hinv). eauto. }
    rewrite Hsame, Hc, Hch in Hc2. destruct Hc2 as [Hc2 Hcc2].
    by rewrite Hc2, Hcc2, Hpres2, Hcc, Hpres.
  - pose proof (key_under_fd _ Hinv _ _ Ek) as Hfd.
    destruct (negb (bool_decide (data = key_data_ key)));
      unfold bind, modify_state, ret in H; simplify_eq/=;
      repeat split; try done; try apply Hinv; simpl.
    + intros m. destruct (decide (m = key_fd key)) as [->|Hm].
      * intros _. apply (key_has_source _ Hinv). eauto.
      * rewrite lookup_insert_ne by done. apply (key_has_source _ Hinv).
    + intros m Hm. destruct (decide (m = key_fd key)) as [->|Hne].
      * rewrite lookup_insert_eq. eauto.
      * rewrite lookup_insert_ne by done. by apply (source_has_key _ Hinv).
    + intros m k. destruct (decide (m = key_fd key)) as [->|Hne].
      * rewrite lookup_insert_eq. by intros [= <-].
      * rewrite lookup_insert_ne by done. apply (key_under_fd _ Hinv).
Qed.

Lemma modify_frame w f events data res w' :
  maps_in_step (self w) ->
  modify f events data w = (res, w') ->
  _io_channels (self w') = _io_channels (self w) /\
  GLib.channels_created (main w') = GLib.channels_created (main w) /\
  maps_in_step (self w') /\
  (forall key, res = Ok key ->
     _fileobj_preserve (self w') = _fileobj_preserve (self w) ∖ {[py_eq_key f]}).
Proof.
  intros Hinv H.
  unfold modify, set_fileobj_preserve, on_self in H.
  unfold bind at 1 in H. unfold modify_state at 1 in H. cbv beta iota in H.
  set (w0 := mkWorld _ (main w) (ran w)) in H.
  assert (Hinv0 : maps_in_step (self w0)) by (by apply (maps_in_step_ext (self w))).
  assert (Hp0 : py_eq_key f ∈ _fileobj_preserve (self w0)) by (simpl; set_solver).
  unfold bind at 1 in H.
  destruct (BaseSelectorImpl.modify id unregister register f events data w0)
    as [[r|e] w2] eqn:Em;
    destruct (base_modify_frame w0 f events data _ _ Hinv0 Hp0 Em)
      as (Hc & Hcc & Hp & Hi); simpl in *.
  - unfold bind, get, modify_state, ret, raise in H. simpl in H.
    rewrite Hp in H. rewrite decide_True in H by set_solver.
    simplify_eq/=. split; [done|split; [done|split]].
    + by apply (maps_in_step_ext (self w2)).
    + intros ? _. rewrite Hp. apply set_eq. intros x.
      rewrite !elem_of_difference, elem_of_union. tauto.
  - simplify_eq. split; [done|split; [done|split; [done|intros; discriminate]]].
Qed.

(** The mark is taken off on the path that returns only. *)
Lemma modify_raise_keeps_mark w f events data e w' :
  maps_in_step (self w) ->
  modify f events data w = (Raise e, w') ->
  py_eq_key f ∈ _fileobj_preserve (self w').
Proof.
  intros Hinv H.
  unfold modify, set_fileobj_preserve, on_self in H.
  unfold bind at 1 in H. unfold modify_state at 1 in H. cbv beta iota in H.
  set (w0 := mkWorld _ (main w) (ran w)) in H.
  assert (Hinv0 : maps_in_step (self w0)) by (by apply (maps_in_step_ext (self w))).
  assert (Hp0 : py_eq_key f ∈ _fileobj_preserve (self w0))
    by (apply elem_of_union_l, elem_of_singleton; done).
  unfold bind at 1 in H.
  destruct (BaseSelectorImpl.modify id unregister register f events data w0)
    as [[r|e'] w2] eqn:Em;
    destruct (base_modify_frame w0 f events data _ _ Hinv0 Hp0 Em)
      as (_ & _ & Hp & _).
  - unfold bind, get, modify_state, ret, raise in H. simpl in H.
    rewrite Hp in H. rewrite decide_True in H by done. simplify_eq.
  - simplify_eq. by rewrite Hp.
Qed.

Lemma select_and_watch_keep_maps c w :
  match c with
  | Call_select _ | Call_channel_watch_cb _ _ _ => True
  | _ => False
  end ->
  _fd_to_key (self (after c w)) = _fd_to_key (self w) /\
  _sources (self (after c w)) = _sources (self w) /\
  _io_channels (self (after c w)) = _io_channels (self w).
Proof.
  destruct c as [| | |timeout|ch cond key]; try done; intros _; simpl.
  unfold _channel_watch_cb. destruct (key_data_ key) as [[hi|] [ho|]];
    unfold bind, run_handle, set_hups, on_self, modify_state, ret, raise;
    repeat (case_match; simpl in *; simplify_eq); done.
Qed.

(** Every world a fresh selector can be brought to keeps the maps in
    step. *)
Lemma reachable_in_step w : reachable w -> maps_in_step (self w).
Proof.
  induction 1 as [g|c w Hr IH]; [apply maps_in_step_init|].
  destruct c as [f e d|f|f e d|timeout|ch cond key].
  - by apply register_in_step.
  - by apply unregister_in_step.
  - simpl. destruct (modify f e d w) as [res w'] eqn:Em.
    by destruct (modify_frame _ _ _ _ _ _ IH Em) as (_ & _ & ? & _).
  - destruct (select_and_watch_keep_maps (Call_select timeout) w I)
      as (? & ? & ?). by apply (maps_in_step_ext (self w)).
  - destruct (select_and_watch_keep_maps (Call_channel_watch_cb ch cond key) w I)
      as (? & ? & ?). by apply (maps_in_step_ext (self w)).
Qed.
End GAsyncIOSelectorFacts.

(** *** What the selector promises *)

Module GAsyncIOSelectorSpec.
Import GAsyncIOSelector GAsyncIOSelectorFacts.







(** C10.  In every world a selector can be brought to, a [register]
    that raises [KeyError] has changed nothing: key map, source map,
    channel map and main context are the ones from before the call. *)
Theorem register_KeyError_is_atomic (w w' : world) f events data :
  reachable w ->
  register f events data w = (Raise KeyError, w') ->
  w' = w.
Proof.
  intros Hr H. apply reachable_in_step in Hr.
  destruct (register_cases w f events data Hr)
    as [[e He]|(key & w2 & He & _)]; congruence.
Qed.

Lemma register_KeyError_is_atomic_witness :
  let w := after (Call_register (FdInt 5) EVENT_READ (Some 0%nat, None))
                 init_world in
  snd (register (FdObj 7 (Some 5)) EVENT_WRITE (None, Some 2%nat) w) = w.
Proof.
  intros w.
  apply (register_KeyError_is_atomic w _ (FdObj 7 (Some 5)) EVENT_WRITE
           (None, Some 2%nat)).
  - apply reachable_call, reachable_init.
  - vm_compute. reflexivity.
Defined.

(** Inside [modify] the mark is set, and [unregister] then leaves
    the wrapper where it is. *)
Lemma unregister_marked_keeps_channel (w : world) f :
  maps_in_step (self w) ->
  py_eq_key f ∈ _fileobj_preserve (self w) ->
  _io_channels (self (snd (unregister f w))) = _io_channels (self w) /\
  GLib.channels_created (main (snd (unregister f w))) =
    GLib.channels_created (main w).
Proof.
  intros Hinv Hp.
  destruct (unregister_cases w f Hinv)
    as [[e ->]|(key & w' & -> & _ & _ & _ & _ & _ & _ & _ & Hcc & Hc)];
    [done|].
  simpl. by rewrite Hc, decide_True.
Qed.

(** C7.  [modify] has no [try]/[finally]: when it raises, the mark it
    set stays.  The wrapper is kept across the failed [modify], as
    across any; but from then on [unregister] takes the file object
    for one inside a [modify]: registered again and unregistered,
    outside any [modify], its wrapper is not destroyed but stays in
    the channel map, and the mark stays with it. *)
Theorem unregister_after_failed_modify_keeps_wrapper
    (w w1 w2 : world) f events data e events' data' key :
  reachable w ->
  modify f events data w = (Raise e, w1) ->
  register f events' data' w1 = (Ok key, w2) ->
  py_eq_key f ∈ _fileobj_preserve (self w1) /\
  _io_channels (self w1) = _io_channels (self w) /\
  exists ch w3,
    unregister f w2 = (Ok key, w3) /\
    _io_channels (self w2) !! key_fd key = Some ch /\
    _io_channels (self w3) !! key_fd key = Some ch /\
    _fd_to_key (self w3) !! key_fd key = None /\
    py_eq_key f ∈ _fileobj_preserve (self w3).
Proof.
  intros Hr Hm Hreg. apply reachable_in_step in Hr.
  destruct (modify_frame _ _ _ _ _ _ Hr Hm) as (Hc & _ & Hr1 & _).
  pose proof (modify_raise_keeps_mark _ _ _ _ _ _ Hr Hm) as Hmark.
  split; [done|]. split; [done|].
  destruct (register_cases w1 f events' data' Hr1)
    as [[e' He']|(key' & w2' & He' & Hl1 & Hnone & _ & Hk2 & _ & Hp2 & _)];
    [congruence|].
  rewrite Hreg in He'. injection He' as <- <-.
  assert (maps_in_step (self w2)) as Hr2.
  { pose proof (register_in_step w1 f events' data' Hr1) as H.
    by rewrite Hreg in H. }
  assert (_fd_to_key (self w2) !! key_fd key = Some key) as Hkey
    by (by rewrite Hk2, lookup_insert_eq).
  assert (fst (BaseSelectorImpl._fileobj_lookup f w2) = Ok (key_fd key)) as Hl2.
  { apply lookup_direct.
    apply (lookup_unregistered_direct f w1); [done| |done]. by rewrite Hl1. }
  destruct (source_has_channel _ Hr2 (key_fd key)) as [ch Hch];
    [apply (key_has_source _ Hr2); eauto|].
  assert (py_eq_key f ∈ _fileobj_preserve (self w2)) as Hmark2
    by (by rewrite Hp2).
  destruct (unregister_cases w2 f Hr2)
    as [[e' He']|(key' & w3 & He' & Hl3 & Hk3 & Hd3 & _ & Hp3 & _ & _ & _ & Hc3)].
  - exfalso. revert He'. unfold unregister, BaseSelectorImpl.unregister.
    unfold bind at 1. unfold bind at 1. rewrite (lookup_pair f w2), Hl2.
    unfold bind at 1, get. simpl. rewrite Hkey.
    pose proof (key_under_fd _ Hr2 _ _ Hkey) as Hfd.
    destruct (key_has_source _ Hr2 (key_fd key)) as [src Hs]; [eauto|].
    unfold bind, modify_state, ret, raise. simpl. rewrite Hs. simpl.
    rewrite decide_True by done. done.
  - rewrite (lookup_pair f w2), Hl2 in Hl3. injection Hl3 as Hfd.
    rewrite <- Hfd in Hk3, Hd3, Hc3. rewrite Hkey in Hk3. injection Hk3 as <-.
    exists ch, w3. split; [done|]. split; [done|].
    rewrite Hc3, decide_True by done. split; [done|].
    split; [by rewrite Hd3, lookup_delete_eq|]. by rewrite Hp3.
Qed.

Lemma unregister_after_failed_modify_keeps_wrapper_witness :
  let w := after (Call_register (FdInt 5) EVENT_READ (Some 0%nat, None))
                 init_world in
  let w1 := snd (modify (FdInt 5) 0 (Some 0%nat, None) w) in
  let w2 := snd (register (FdInt 5) EVENT_READ (Some 0%nat, None) w1) in
  fst (modify (FdInt 5) 0 (Some 0%nat, None) w) = Raise ValueError /\
  exists ch w3,
    unregister (FdInt 5) w2
      = (Ok (mkKey (FdInt 5) 5 EVENT_READ (Some 0%nat, None)), w3) /\
    _io_channels (self w3) !! 5 = Some ch.
Proof.
  intros w w1 w2. split; [reflexivity|].
  destruct (unregister_after_failed_modify_keeps_wrapper w w1 w2 (FdInt 5) 0
              (Some 0%nat, None) ValueError EVENT_READ (Some 0%nat, None)
              (mkKey (FdInt 5) 5 EVENT_READ (Some 0%nat, None)))
    as (_ & _ & ch & w3 & Hu & _ & Hch & _).
  - apply reachable_call, reachable_init.
  - reflexivity.
  - reflexivity.
  - exists ch, w3. split; [exact Hu|exact Hch].
Defined.

(** The watch callback files a hangup under the key of the watch. *)
Lemma hangup_recorded (w : world) ch cond key :
  truthy (Z.land cond GLib.IO_IN) = false ->
  truthy (Z.land cond GLib.IO_OUT) = false ->
  truthy (Z.land cond GLib.IO_HUP) = true ->
  _channel_watch_cb ch cond key w =
    (Ok true, mkWorld (mk (_fd_to_key (self w)) (_sources (self w))
                          (_io_channels (self w)) (_fileobj_preserve (self w))
                          ({[key]} ∪ _hups (self w)))
                      (main w) (ran w)).
Proof.
  intros Hi Ho Hh. unfold _channel_watch_cb.
  destruct (key_data_ key) as [hi ho]. rewrite Hi, Ho, Hh. done.
Qed.

Lemma filter_key_once {B} (h : SelectorKey -> B) (l : list SelectorKey) key :
  NoDup l -> key ∈ l ->
  length (List.filter (fun p => bool_decide (fst p = key))
            (List.map (fun k => (k, h k)) l)) = 1%nat.
Proof.
  induction 1 as [|k l Hnotin Hnd IH]; intros Hin.
  - by apply elem_of_nil in Hin.
  - simpl. destruct (bool_decide_reflect (k = key)) as [->|Hne].
    + simpl. f_equal.
      clear IH Hin. induction l as [|k' l IHl]; [done|].
      simpl. apply not_elem_of_cons in Hnotin as [Hne Hnotin].
      apply NoDup_cons in Hnd as [_ Hnd].
      rewrite bool_decide_eq_false_2 by done. auto.
    + apply elem_of_cons in Hin as [->|Hin]; [done|]. auto.
Qed.

(** C6.  Every key in the hangup set comes out of [select] in exactly
    one pair, with the events the key was registered for, cut to
    read and write; the set is empty afterwards, so the next [select]
    returns nothing; a key registered for reading alone comes out as
    [(key, EVENT_READ)], without [EVENT_WRITE]. *)
Theorem select_surfaces_each_hangup_once (w : world) timeout key :
  key ∈ _hups (self w) ->
  exists ready w',
    select timeout w = (Ok ready, w') /\
    length (List.filter (fun p => bool_decide (fst p = key)) ready) = 1%nat /\
    (forall m, (key, m) ∈ ready <->
               m = Z.land (key_events key) (Z.lor EVENT_READ EVENT_WRITE)) /\
    _hups (self w') = ∅ /\
    (forall timeout', fst (select timeout' w') = Ok []) /\
    (key_events key = EVENT_READ ->
       (key, EVENT_READ) ∈ ready /\
       forall m, (key, m) ∈ ready -> Z.land m EVENT_WRITE = 0).
Proof.
  intros Hin. unfold select, bind, get, set_hups, on_self, modify_state, ret.
  simpl. do 2 eexists. split; [reflexivity|]. simpl.
  assert (Hmem : forall m,
    (key, m) ∈ List.map (fun k => (k, Z.land (key_events k)
                                        (Z.lor EVENT_READ EVENT_WRITE)))
                        (elements (_hups (self w))) <->
    m = Z.land (key_events key) (Z.lor EVENT_READ EVENT_WRITE)).
  { intros m. rewrite list_elem_of_In, in_map_iff. split.
    - intros (k & [= -> <-] & _). done.
    - intros ->. exists key. split; [done|].
      by apply list_elem_of_In, elem_of_elements. }
  split; [|split; [exact Hmem|split; [done|split]]].
  - apply filter_key_once; [apply NoDup_elements|by apply elem_of_elements].
  - intros _. by rewrite elements_empty.
  - intros Hev. split.
    + apply Hmem. by rewrite Hev.
    + intros m ->%Hmem. by rewrite Hev.
Qed.

Lemma select_surfaces_each_hangup_once_witness :
  let key := mkKey (FdInt 5) 5 EVENT_READ (Some 0%nat, None) in
  let w := after (Call_channel_watch_cb
                    (GLib.mkChannel 0 5 None false false) GLib.IO_HUP key)
             (after (Call_register (FdInt 5) EVENT_READ (Some 0%nat, None))
                    init_world) in
  exists w', select None w = (Ok [(key, EVENT_READ)], w') /\
             _hups (self w') = ∅.
Proof.
  intros key w.
  destruct (select_surfaces_each_hangup_once w None key)
    as (ready & w' & Hs & _ & _ & He & _).
  - vm_compute. reflexivity.
  - exists w'. split; [|exact He].
    assert (select None w = (Ok [(key, EVENT_READ)], snd (select None w))) as Hc
      by (vm_compute; reflexivity).
    rewrite Hs in Hc. simpl in Hc. rewrite Hs. exact Hc.
Defined.
End GAsyncIOSelectorSpec.

(* ------------------------------------------------------------------ *)
(** ** GAsyncIOEventLoop *)

Module GAsyncIOEventLoopSpec.
Import GAsyncIOEventLoop.

Ltac unfold_loop :=
  unfold start_slave_loop, stop_slave_loop, call_at, dispatch_giterate,
    _giterate, _schedule_giteration, _check_closed, _check_running,
    _check_thread, _check_callback, is_running,
    _set_coroutine_origin_tracking, set_old_agen_hooks, set_asyncgen_hooks,
    _set_running_loop, set_is_slave, set_giteration, set_timers, set_ready,
    set_closed, on_self, glib_exec, glib_call,
    bind, get, ret, raise, modify_state in *.

(** C1.  After [start_slave_loop] has returned, [is_running()]
    answers [True]: it reads [_is_slave], which [start_slave_loop]
    has just set. *)
Theorem is_running_after_start_slave_loop (w w' : world) :
  start_slave_loop w = (Ok tt, w') ->
  is_running w' = (Ok true, w').
Proof.
  unfold_loop. intros H.
  repeat (case_match; simplify_eq/=); done.
Qed.

Lemma is_running_after_start_slave_loop_witness :
  let w := init_world GAsyncIOSelector_class in
  fst (start_slave_loop w) = Ok tt /\
  fst (is_running (snd (start_slave_loop w))) = Ok true.
Proof.
  intros w. split; [reflexivity|].
  rewrite (is_running_after_start_slave_loop w (snd (start_slave_loop w)));
    reflexivity.
Defined.

(** A second [start_slave_loop] is refused because of that answer. *)
Lemma start_slave_loop_twice (w w' : world) :
  start_slave_loop w = (Ok tt, w') ->
  start_slave_loop w' = (Raise RuntimeError, w').
Proof.
  unfold_loop. intros H.
  repeat (case_match; simplify_eq/=); done.
Qed.

Section RunOnce.
Variable _run_once : M world unit.

(** What the drain callback does once the pass has left the ready
    queue empty. *)
Lemma giterate_idle (w w1 : world) :
  _run_once w = (Ok tt, w1) ->
  _ready (self w1) = [] ->
  _giterate _run_once w =
    if getattr (attr__schedule_periodic_giterate (_selector (self w1))) false
    then (Ok false,
          snd (set_giteration (Some (GLib.next_source_id (main w1)))
                 (snd (glib_call (GLib.timeout_add 10 GLib.Cb_giterate) w1))))
    else (Ok false, snd (set_giteration None w1)).
Proof.
  intros Hrun Hready. unfold _giterate. unfold bind at 1. rewrite Hrun.
  unfold bind at 1, get. cbv beta iota. rewrite Hready. simpl.
  destruct (getattr _ false); reflexivity.
Qed.

(** C2, as the code has it.  When the drain callback ends a pass
    with the ready queue empty it returns [False], and: on a
    selector of class [NoWaitSelectSelector], the one that defines
    [_schedule_periodic_giterate], it has attached a new 10 ms
    timeout carrying itself and stored its id in [_giteration]; on
    [ThreadSelector] (as on the other classes, which do not define
    the attribute) it has attached nothing and [_giteration] is
    [None]. *)
Theorem giterate_rearms_only_when_periodic (w w1 : world) :
  _run_once w = (Ok tt, w1) ->
  _ready (self w1) = [] ->
  exists w',
    _giterate _run_once w = (Ok false, w') /\
    (_selector (self w1) = NoWaitSelectSelector_class ->
       _giteration (self w') = Some (GLib.next_source_id (main w1)) /\
       GLib.sources (main w') =
         GLib.sources (main w1) ++
         [(GLib.next_source_id (main w1), GLib.Timeout 10 GLib.Cb_giterate)]) /\
    (_selector (self w1) <> NoWaitSelectSelector_class ->
       _giteration (self w') = None /\ main w' = main w1).
Proof.
  intros Hrun Hready. rewrite (giterate_idle w w1 Hrun Hready).
  destruct (_selector (self w1)); simpl; eexists; (split; [reflexivity|]);
    split; intros Hs; try done.
Qed.
End RunOnce.

Lemma giterate_rearms_only_when_periodic_witness :
  exists w',
    _giterate (ret tt) thread_loop_pending = (Ok false, w') /\
    _giteration (self w') = None /\ main w' = main thread_loop_pending.
Proof.
  destruct (giterate_rearms_only_when_periodic (ret tt)
              thread_loop_pending thread_loop_pending)
    as (w' & Hg & _ & Hidle).
  - reflexivity.
  - reflexivity.
  - exists w'. split; [exact Hg|]. apply Hidle. discriminate.
Defined.

(** On [ThreadSelector] the drain callback does not re-arm: after a
    pass that leaves the ready queue empty, [_giteration] is [None],
    no 10 ms source was attached, and once the main context has
    destroyed the source that fired no drain source is left. *)
Lemma giterate_on_ThreadSelector_goes_idle :
  _selector (self thread_loop_pending) = ThreadSelector_class /\
  _giteration (self thread_loop_pending) = Some 1%nat /\
  exists w',
    _giterate (ret tt) thread_loop_pending = (Ok false, w') /\
    _ready (self w') = [] /\
    _giteration (self w') = None /\
    GLib.sources (main w') = [(1%nat, GLib.Timeout 0 GLib.Cb_giterate)] /\
    drain_sources
      (main (snd (dispatch_giterate (ret tt) 1 thread_loop_pending))) = [].
Proof.
  split; [reflexivity|]. split; [reflexivity|].
  eexists. split; [reflexivity|]. repeat split.
Qed.

(** The clamp of [call_at]. *)
Lemma call_at_delay_spec (when now : Q) :
  (call_at_delay when now == Qmax 0 ((when - now) * 1000))%Q /\
  (0 <= call_at_delay when now)%Q /\
  (when <= now -> call_at_delay when now == 0)%Q.
Proof.
  unfold call_at_delay.
  destruct (Qlt_le_dec ((when - now) * 1000) 0) as [Hneg|Hpos].
  - split; [|split].
    + symmetry. apply Q.max_l. by apply Qlt_le_weak.
    + apply Qle_refl.
    + reflexivity.
  - split; [|split].
    + symmetry. by apply Q.max_r.
    + done.
    + intros Hle. apply Qle_antisym; [|done]. lra.
Qed.

Lemma call_at_sources (w w' : world) when callback timer :
  call_at when callback w = (Ok timer, w') ->
  timer = length (timers w) /\
  GLib.sources (main w') =
    GLib.sources (main w) ++
    [(GLib.next_source_id (main w),
      GLib.Timeout (call_at_delay when (clock w)) (GLib.Cb_timeout timer))] /\
  timers w' = timers w ++
    [mkTimer when callback (Some (GLib.next_source_id (main w)))].
Proof.
  unfold_loop. intros H.
  assert (forall (l : list TimerHandle) t f,
            alter f (length l) (l ++ [t]) = l ++ [f t]) as Halter.
  { intros l t f. induction l as [|x l IH]; simpl; [done|].
    by f_equal. }
  destruct (_closed (self w)); [simpl in H; discriminate|]. simpl in H.
  destruct (_debug (self w)); [destruct callback|];
    simplify_eq/=; rewrite ?Halter; done.
Qed.

(** C9.  A [call_at] that returns has attached exactly one timeout
    source, whose delay is [max 0 ((when - now) * 1000)]: never
    negative, and zero when the deadline is not after the clock. *)
Theorem call_at_passes_clamped_delay (w w' : world) when callback timer :
  call_at when callback w = (Ok timer, w') ->
  exists id delay,
    GLib.sources (main w') =
      GLib.sources (main w) ++ [(id, GLib.Timeout delay (GLib.Cb_timeout timer))] /\
    (delay == Qmax 0 ((when - clock w) * 1000))%Q /\
    (0 <= delay)%Q /\
    (when <= clock w -> delay == 0)%Q.
Proof.
  intros H. destruct (call_at_sources _ _ _ _ _ H) as (_ & Hs & _).
  exists (GLib.next_source_id (main w)), (call_at_delay when (clock w)).
  split; [exact Hs|]. apply call_at_delay_spec.
Qed.

Lemma call_at_passes_clamped_delay_witness :
  exists id delay,
    GLib.sources (main (snd (call_at 3%Q (Function 0) late_world))) =
      [(id, GLib.Timeout delay (GLib.Cb_timeout 0))] /\
    (delay == 0)%Q.
Proof.
  destruct (call_at_passes_clamped_delay late_world
              (snd (call_at 3%Q (Function 0) late_world)) 3%Q (Function 0) 0%nat)
    as (id & delay & Hs & _ & _ & Hz).
  - reflexivity.
  - exists id, delay. split; [exact Hs|]. apply Hz. discriminate.
Defined.

(** [call_at] returns whenever the loop is open and, in debug mode,
    the callback is a plain callable. *)
Lemma call_at_returns (w : world) when callback :
  _closed (self w) = false ->
  (_debug (self w) = true -> exists id, callback = Function id) ->
  exists w', call_at when callback w = (Ok (length (timers w)), w').
Proof.
  intros Hc Hd. unfold_loop. rewrite Hc. simpl.
  destruct (_debug (self w)); simpl.
  - destruct Hd as [id ->]; [done|]. simpl. eauto.
  - eauto.
Qed.

(** *** Requests for a drain, one caller at a time *)

Lemma drain_sources_attach_drain (g : GLib.MainContext) interval :
  drain_sources (snd (GLib.timeout_add interval GLib.Cb_giterate g)) =
  drain_sources g ++ [GLib.next_source_id g].
Proof.
  unfold drain_sources, GLib.timeout_add, GLib.attach. simpl.
  by rewrite List.filter_app, List.map_app.
Qed.

Lemma _schedule_giteration_spec (w : world) :
  agrees w ->
  exists w', _schedule_giteration w = (Ok tt, w') /\
    agrees w' /\ length (drain_sources (main w')) = 1%nat /\
    is_Some (_giteration (self w')).
Proof.
  unfold agrees, consistent. intros Ha.
  unfold _schedule_giteration, bind, get. cbv beta iota.
  destruct (_giteration (self w)) as [id|] eqn:Eg.
  - exists w. rewrite Eg, Ha. eauto.
  - unfold glib_call, set_giteration, on_self, modify_state.
    eexists. split; [reflexivity|]. cbn [self main _giteration fst snd].
    rewrite drain_sources_attach_drain, Ha. eauto.
Qed.

Lemma repeat_schedule_one_drain (n : nat) (w : world) :
  (1 <= n)%nat -> agrees w ->
  exists w', repeat_schedule n w = (Ok tt, w') /\
    agrees w' /\ length (drain_sources (main w')) = 1%nat.
Proof.
  intros Hn Ha.
  assert (forall m w, agrees w -> length (drain_sources (main w)) = 1%nat ->
            exists w', repeat_schedule m w = (Ok tt, w') /\
              agrees w' /\ length (drain_sources (main w')) = 1%nat) as Hrest.
  { induction m as [|m IH]; intros w0 Ha0 H1; simpl.
    - exists w0. done.
    - destruct (_schedule_giteration_spec w0 Ha0) as (w1 & E1 & Ha1 & H1' & _).
      unfold bind. rewrite E1. by apply IH. }
  destruct n as [|n]; [lia|]. simpl.
  destruct (_schedule_giteration_spec w Ha) as (w1 & E1 & Ha1 & H1 & _).
  unfold bind. rewrite E1. by apply Hrest.
Qed.

(** With a drain pending, further requests do nothing. *)
Lemma repeat_schedule_pending (m : nat) (w : world) id :
  _giteration (self w) = Some id -> repeat_schedule m w = (Ok tt, w).
Proof.
  intros Hg. induction m as [|m IH]; [done|].
  simpl. unfold bind at 1, _schedule_giteration, bind at 1, get.
  cbv beta iota. rewrite Hg. unfold ret. exact IH.
Qed.

(** What [n >= 1] calls of [_schedule_giteration], one after the
    other, leave behind. *)
Lemma repeat_schedule_result (n : nat) (w : world) :
  (1 <= n)%nat ->
  exists w', repeat_schedule n w = (Ok tt, w') /\
    _giteration (self w') =
      Some (match _giteration (self w) with
            | Some id => id
            | None => GLib.next_source_id (main w)
            end) /\
    main w' =
      match _giteration (self w) with
      | Some _ => main w
      | None => snd (GLib.timeout_add 0 GLib.Cb_giterate (main w))
      end.
Proof.
  intros Hn. destruct n as [|n]; [lia|].
  destruct (_giteration (self w)) as [id|] eqn:Hg.
  - exists w. rewrite (repeat_schedule_pending _ w id Hg). by rewrite Hg.
  - simpl. unfold bind at 1, _schedule_giteration, bind at 1, get.
    cbv beta iota. rewrite Hg.
    unfold bind, glib_call, set_giteration, on_self, modify_state.
    cbv beta iota. cbn [fst snd].
    match goal with |- context [repeat_schedule n ?w1] =>
      rewrite (repeat_schedule_pending n w1 (GLib.next_source_id (main w)))
        by reflexivity;
      exists w1 end.
    done.
Qed.
End GAsyncIOEventLoopSpec.

(* ------------------------------------------------------------------ *)
(** ** Concurrent requests for a drain *)

Module ThreadsSpec.
Import GAsyncIOEventLoop Threads.
Import GAsyncIOEventLoopSpec.

Lemma invariant_start n g c : consistent g c -> invariant (start n g c).
Proof.
  intros Hc.
  assert (forall i p, pcs (start n g c) !! i = Some p -> p = Acquire) as Hacq.
  { intros i p. simpl. rewrite lookup_replicate. by intros [-> _]. }
  split.
  - intros i p Hp Hcrit. by rewrite (Hacq _ _ Hp) in Hcrit.
  - intros i p j q Hp Hcrit. by rewrite (Hacq _ _ Hp) in Hcrit.
  - done.
  - intros _ i Hp. by apply Hacq in Hp.
  - simpl. unfold consistent in Hc. destruct g; rewrite Hc; simpl; lia.
Qed.

(** When a call moves, no other call is inside the lock. *)
Lemma others_outside st i st' :
  invariant st -> thread_step i st = Some st' ->
  forall j q, j <> i -> pcs st !! j = Some q -> ~ critical q.
Proof.
  intros Hinv Hstep j q Hji Hq Hcrit. unfold thread_step in Hstep.
  destruct (pcs st !! i) as [p|] eqn:Hp; [|done].
  destruct (inv_critical _ Hinv _ _ Hq Hcrit) as [Hlock _].
  destruct p; try done.
  - by rewrite Hlock in Hstep.
  - apply Hji. by apply (inv_alone _ Hinv j q i Check).
  - apply Hji. by apply (inv_alone _ Hinv j q i Add).
  - apply Hji. by apply (inv_alone _ Hinv j q i (Store id)).
  - apply Hji. by apply (inv_alone _ Hinv j q i Release).
Qed.

(** After call [i] has moved to [p'], the calls are the old ones
    but for [i]. *)
Lemma lookup_set_pc st i p' j q :
  is_Some (pcs st !! i) ->
  set_pc i p' st !! j = Some q ->
  (j = i /\ q = p') \/ (j <> i /\ pcs st !! j = Some q).
Proof.
  intros Hi. unfold set_pc. destruct (decide (j = i)) as [->|Hne].
  - rewrite list_lookup_insert_eq by (by apply lookup_lt_is_Some).
    intros [= <-]. by left.
  - rewrite list_lookup_insert_ne by done. by right.
Qed.

Lemma invariant_after st i p' st' :
  invariant st -> is_Some (pcs st !! i) ->
  (forall j q, j <> i -> pcs st !! j = Some q -> ~ critical q) ->
  pcs st' = set_pc i p' st ->
  (critical p' -> lock st' = true /\ phase p' st') ->
  (~ critical p' -> consistent (giteration st') (context st')) ->
  (giteration st' = None -> p' <> Finished /\ giteration st = None) ->
  (length (drain_sources (context st')) <= 1)%nat ->
  invariant st'.
Proof.
  intros Hinv Hi Hothers Hpcs Hin Hout Hfin Hlen. split.
  - intros j q. rewrite Hpcs. intros Hq Hcrit.
    destruct (lookup_set_pc _ _ _ _ _ Hi Hq) as [[-> ->]|[Hne Hq']]; [auto|].
    by destruct (Hothers _ _ Hne Hq').
  - intros j q k r. rewrite Hpcs. intros Hq Hcq Hr Hcr.
    destruct (lookup_set_pc _ _ _ _ _ Hi Hq) as [[-> ->]|[Hne Hq']];
      [|by destruct (Hothers _ _ Hne Hq')].
    destruct (lookup_set_pc _ _ _ _ _ Hi Hr) as [[-> ->]|[Hne Hr']];
      [done|by destruct (Hothers _ _ Hne Hr')].
  - intros Hnone. apply Hout. intros Hcrit. apply (Hnone i p'); [|done].
    rewrite Hpcs. unfold set_pc.
    by rewrite list_lookup_insert_eq by (by apply lookup_lt_is_Some).
  - intros Hg j. rewrite Hpcs. intros Hq.
    destruct (Hfin Hg) as [Hp' Hg'].
    destruct (lookup_set_pc _ _ _ _ _ Hi Hq) as [[-> Heq]|[Hne Hq']];
      [congruence|].
    by apply (inv_finished _ Hinv Hg' j).
  - done.
Qed.

Lemma invariant_step st i st' :
  invariant st -> thread_step i st = Some st' -> invariant st'.
Proof.
  intros Hinv Hstep.
  pose proof (others_outside _ _ _ Hinv Hstep) as Hothers.
  unfold thread_step in Hstep.
  destruct (pcs st !! i) as [p|] eqn:Hp; [|done].
  assert (is_Some (pcs st !! i)) as Hi by eauto.
  destruct p.
  - (* Acquire *)
    destruct (lock st) eqn:Hlock; [done|]. injection Hstep as <-.
    apply (invariant_after st i Check); simpl; try done.
    + intros _. split; [done|]. apply (inv_outside _ Hinv).
      intros j q Hq. destruct (decide (j = i)) as [->|Hne].
      * rewrite Hp in Hq. injection Hq as <-. simpl. tauto.
      * by apply (Hothers j).
    + apply (inv_at_most_one _ Hinv).
  - (* Check *)
    injection Hstep as <-.
    destruct (inv_critical _ Hinv _ _ Hp I) as [Hlock Hph]. simpl in Hph.
    destruct (giteration st) as [id|] eqn:Hg.
    + apply (invariant_after st i Release); simpl; try done.
      * intros _. split; [done|]. by exists id.
      * apply (inv_at_most_one _ Hinv).
    + apply (invariant_after st i Add); simpl; try done.
      apply (inv_at_most_one _ Hinv).
  - (* Add *)
    injection Hstep as <-.
    destruct (inv_critical _ Hinv _ _ Hp I) as [Hlock [Hg Hd]].
    assert (drain_sources
              (snd (GLib.timeout_add 0 GLib.Cb_giterate (context st))) =
            [GLib.next_source_id (context st)]) as Hd'
      by (by rewrite drain_sources_attach_drain, Hd).
    apply (invariant_after st i (Store (GLib.next_source_id (context st))));
      simpl; try done.
    simpl in Hd'. rewrite Hd'. simpl. lia.
  - (* Store *)
    injection Hstep as <-.
    destruct (inv_critical _ Hinv _ _ Hp I) as [Hlock [Hg Hd]].
    apply (invariant_after st i Release); simpl; try done.
    + intros _. split; [done|]. by exists id.
    + rewrite Hd. simpl. lia.
  - (* Release *)
    injection Hstep as <-.
    destruct (inv_critical _ Hinv _ _ Hp I) as [Hlock (id & Hg & Hd)].
    apply (invariant_after st i Finished); simpl; try done.
    + intros _. by rewrite Hg.
    + by rewrite Hg.
    + rewrite Hd. simpl. lia.
  - done.
Qed.

Lemma invariant_run_schedule sched st :
  invariant st -> invariant (run_schedule sched st).
Proof.
  revert st. induction sched as [|i sched IH]; intros st Hinv; [done|].
  simpl. apply IH. destruct (thread_step i st) as [st'|] eqn:Hstep; [|done].
  by apply (invariant_step st i).
Qed.

Lemma thread_step_length st i st' :
  thread_step i st = Some st' -> length (pcs st') = length (pcs st).
Proof.
  unfold thread_step, set_pc. intros H.
  repeat (case_match; simplify_eq/=); by rewrite length_insert.
Qed.

Lemma run_schedule_length sched st :
  length (pcs (run_schedule sched st)) = length (pcs st).
Proof.
  revert st. induction sched as [|i sched IH]; intros st; [done|].
  simpl. rewrite IH. destruct (thread_step i st) as [st'|] eqn:Hstep; [|done].
  by apply (thread_step_length st i).
Qed.

(** *** The calls do return *)

Lemma run_schedule_app s1 s2 st :
  run_schedule (s1 ++ s2) st = run_schedule s2 (run_schedule s1 st).
Proof. revert st. induction s1 as [|i s1 IH]; intros st; simpl; auto. Qed.

Lemma run_schedule_moves i sched st st' :
  thread_step i st = Some st' ->
  run_schedule (i :: sched) st = run_schedule sched st'.
Proof. intros H. simpl. by rewrite H. Qed.

Lemma run_schedule_stuck i sched st :
  thread_step i st = None ->
  run_schedule (i :: sched) st = run_schedule sched st.
Proof. intros H. simpl. by rewrite H. Qed.

(** A call left alone with a free lock runs to its end, frees the
    lock again, and does to [_giteration] and to the main context
    what the method [_schedule_giteration] does. *)
Lemma alone_runs_to_end st i :
  lock st = false -> pcs st !! i = Some Acquire ->
  run_schedule (alone i) st =
    match giteration st with
    | Some id => mkState false (Some id) (context st) (<[i := Finished]> (pcs st))
    | None =>
        mkState false (Some (GLib.next_source_id (context st)))
                (snd (GLib.timeout_add 0 GLib.Cb_giterate (context st)))
                (<[i := Finished]> (pcs st))
    end.
Proof.
  intros Hlock Hp. pose proof (lookup_lt_Some _ _ _ Hp) as Hlt.
  assert (forall (p : pc) (l : list pc),
            (i < length l)%nat -> <[i := p]> l !! i = Some p) as Hin
    by (intros; by apply list_lookup_insert_eq).
  assert (forall (p : pc), (i < length (<[i := p]> (pcs st)))%nat) as Hlen
    by (intros; by rewrite length_insert).
  unfold alone.
  erewrite run_schedule_moves
    by (unfold thread_step; rewrite Hp, Hlock; reflexivity).
  erewrite run_schedule_moves
    by (unfold thread_step, set_pc; cbn [pcs lock giteration context];
        rewrite Hin by done; reflexivity).
  cbn [pcs lock giteration context set_pc]. unfold set_pc.
  cbn [pcs lock giteration context]. rewrite list_insert_insert_eq.
  destruct (giteration st) as [id|] eqn:Hg.
  - erewrite run_schedule_moves
      by (unfold thread_step, set_pc; cbn [pcs lock giteration context];
          rewrite Hin by done; reflexivity).
    unfold set_pc. cbn [pcs lock giteration context].
    rewrite list_insert_insert_eq.
    rewrite !run_schedule_stuck
      by (unfold thread_step; cbn [pcs lock giteration context];
          rewrite Hin by done; reflexivity).
    done.
  - erewrite run_schedule_moves
      by (unfold thread_step, set_pc; cbn [pcs lock giteration context];
          rewrite Hin by done; reflexivity).
    unfold set_pc. cbn [pcs lock giteration context].
    rewrite list_insert_insert_eq.
    erewrite run_schedule_moves
      by (unfold thread_step, set_pc; cbn [pcs lock giteration context];
          rewrite Hin by done; reflexivity).
    unfold set_pc. cbn [pcs lock giteration context].
    rewrite list_insert_insert_eq.
    erewrite run_schedule_moves
      by (unfold thread_step, set_pc; cbn [pcs lock giteration context];
          rewrite Hin by done; reflexivity).
    unfold set_pc. cbn [pcs lock giteration context].
    rewrite list_insert_insert_eq. done.
Qed.

Lemma alone_is__schedule_giteration (w : world) st i :
  lock st = false -> pcs st !! i = Some Acquire ->
  giteration st = _giteration (self w) -> context st = main w ->
  giteration (run_schedule (alone i) st) =
    _giteration (self (snd (_schedule_giteration w))) /\
  context (run_schedule (alone i) st) = main (snd (_schedule_giteration w)).
Proof.
  intros Hlock Hp Hg Hc. rewrite (alone_runs_to_end st i Hlock Hp).
  unfold _schedule_giteration, bind, get, glib_call, set_giteration,
    on_self, modify_state, ret.
  rewrite Hg, Hc.
  destruct (_giteration (self w)) eqn:E; simpl; rewrite ?E; done.
Qed.

(** One call after the other: all of them return. *)
Lemma calls_in_turn_finish (n : nat) g c :
  all_finished (run_schedule (flat_map alone (seq 0 n)) (start n g c)).
Proof.
  assert (forall k, (k <= n)%nat ->
    let st := run_schedule (flat_map alone (seq 0 k)) (start n g c) in
    lock st = false /\
    pcs st = replicate k Finished ++ replicate (n - k) Acquire) as Hk.
  { induction k as [|k IH]; intros Hle.
    - simpl. by rewrite Nat.sub_0_r.
    - destruct IH as [Hlock Hpcs]; [lia|].
      rewrite seq_S, flat_map_app, run_schedule_app.
      change (flat_map alone [(0 + k)%nat]) with (alone k). cbv zeta.
      set (st := run_schedule (flat_map alone (seq 0 k)) (start n g c)) in *.
      assert (pcs st !! k = Some Acquire) as Hp.
      { rewrite Hpcs, lookup_app_r by (rewrite length_replicate; lia).
        rewrite length_replicate, Nat.sub_diag.
        apply lookup_replicate. split; [done|lia]. }
      rewrite (alone_runs_to_end st k Hlock Hp).
      assert (<[k := Finished]> (pcs st) =
              replicate (Datatypes.S k) Finished ++
              replicate (n - Datatypes.S k) Acquire) as Hins.
      { rewrite Hpcs.
        replace (n - k)%nat with (Datatypes.S (n - Datatypes.S k)) by lia.
        rewrite insert_app_r_alt by (rewrite length_replicate; lia).
        rewrite length_replicate, Nat.sub_diag. simpl.
        rewrite app_comm_cons, replicate_cons_app, <- app_assoc. done. }
      destruct (giteration st); simpl; by rewrite Hins. }
  destruct (Hk n) as [_ Hpcs]; [lia|].
  unfold all_finished. rewrite Hpcs, Nat.sub_diag. simpl. rewrite app_nil_r.
  apply Forall_replicate. done.
Qed.

(** Without the lock two calls can both find [_giteration] empty,
    and two drain sources are attached. *)
Lemma without_the_lock_two_drains :
  let st := run_schedule_unlocked [0; 1; 0; 1; 0; 1; 0; 1; 0; 1]%nat
              (start 2 None GLib.empty) in
  all_finished st /\ drain_sources (context st) = [1; 2]%nat.
Proof. split; [repeat constructor|reflexivity]. Qed.

(** *** From any point the calls can be let to return *)

Lemma lock_is_held_step st i st' :
  lock_is_held st -> thread_step i st = Some st' -> lock_is_held st'.
Proof.
  intros Hh Hstep. unfold thread_step in Hstep.
  destruct (pcs st !! i) as [p|] eqn:Hp; [|done].
  pose proof (lookup_lt_Some _ _ _ Hp) as Hlt.
  assert (forall q, set_pc i q st !! i = Some q) as Hin
    by (intros q; by apply list_lookup_insert_eq).
  destruct p.
  - destruct (lock st); [done|]. injection Hstep as <-.
    intros _. exists i, Check. by rewrite <- (Hin Check).
  - injection Hstep as <-. intros _. eexists i, _. split; [apply Hin|].
    by destruct (giteration st).
  - injection Hstep as <-. intros _. eexists i, _. split; [apply Hin|done].
  - injection Hstep as <-. intros _. eexists i, _. split; [apply Hin|done].
  - injection Hstep as <-. intros Hl. done.
  - done.
Qed.

Lemma lock_is_held_run sched st :
  lock_is_held st -> lock_is_held (run_schedule sched st).
Proof.
  revert st. induction sched as [|i sched IH]; intros st Hh; [done|].
  simpl. apply IH. destruct (thread_step i st) as [st'|] eqn:Hstep; [|done].
  by apply (lock_is_held_step st i).
Qed.

Lemma run_schedule_replicate_stuck k i st :
  thread_step i st = None -> run_schedule (replicate k i) st = st.
Proof. intros H. induction k as [|k IH]; simpl; [done|]. by rewrite H. Qed.

(** A call inside the lock can move, and has fewer steps left after. *)
Lemma critical_step st i p :
  pcs st !! i = Some p -> critical p ->
  exists st' p',
    thread_step i st = Some st' /\ pcs st' = <[i := p']> (pcs st) /\
    (steps_left p' < steps_left p)%nat /\
    (critical p' \/ (p' = Finished /\ lock st' = false)).
Proof.
  intros Hp Hc. unfold thread_step. rewrite Hp.
  destruct p; try done; eexists _, _; (split; [reflexivity|]);
    (split; [reflexivity|]); simpl.
  - destruct (giteration st); simpl; split; try lia; by left.
  - split; [lia|]. by left.
  - split; [lia|]. by left.
  - split; [lia|]. by right.
Qed.

Lemma critical_runs_out k st i p :
  pcs st !! i = Some p -> critical p -> (steps_left p <= k)%nat ->
  lock (run_schedule (replicate k i) st) = false /\
  pcs (run_schedule (replicate k i) st) = <[i := Finished]> (pcs st).
Proof.
  revert st p. induction k as [|k IH]; intros st p Hp Hc Hk.
  - destruct p; simpl in *; try done; lia.
  - destruct (critical_step st i p Hp Hc) as (st' & p' & Hstep & Hpcs & Hlt & Hnext).
    pose proof (lookup_lt_Some _ _ _ Hp) as Hi.
    assert (pcs st' !! i = Some p') as Hp'
      by (rewrite Hpcs; by apply list_lookup_insert_eq).
    simpl. rewrite Hstep. destruct Hnext as [Hc'|[-> Hl] ].
    + destruct (IH st' p' Hp' Hc') as [Hl Hq]; [lia|].
      split; [done|]. by rewrite Hq, Hpcs, list_insert_insert_eq.
    + rewrite run_schedule_replicate_stuck
        by (unfold thread_step; by rewrite Hp').
      done.
Qed.

(** What a call given five turns in a row comes to. *)
Lemma alone_outcome st i :
  match pcs st !! i with
  | Some Acquire =>
      if lock st then run_schedule (alone i) st = st
      else lock (run_schedule (alone i) st) = false /\
           pcs (run_schedule (alone i) st) = <[i := Finished]> (pcs st)
  | Some Finished | None => run_schedule (alone i) st = st
  | Some _ =>
      lock (run_schedule (alone i) st) = false /\
      pcs (run_schedule (alone i) st) = <[i := Finished]> (pcs st)
  end.
Proof.
  change (alone i) with (replicate 5 i).
  destruct (pcs st !! i) as [p|] eqn:Hp.
  - destruct p;
      try (apply (critical_runs_out 5 st i _ Hp); [done|simpl; lia]).
    + destruct (lock st) eqn:Hl.
      * apply run_schedule_replicate_stuck. unfold thread_step.
        by rewrite Hp, Hl.
      * change (replicate 5 i) with (alone i).
        rewrite (alone_runs_to_end st i Hl Hp). by destruct (giteration st).
    + apply run_schedule_replicate_stuck. unfold thread_step. by rewrite Hp.
  - apply run_schedule_replicate_stuck. unfold thread_step. by rewrite Hp.
Qed.

(** After its five turns a call is outside the lock, and the other
    calls stand where they stood. *)
Lemma alone_leaves st i j q :
  pcs (run_schedule (alone i) st) !! j = Some q ->
  (j = i /\ ~ critical q) \/ (j <> i /\ pcs st !! j = Some q).
Proof.
  pose proof (alone_outcome st i) as Ho. intros Hq.
  destruct (decide (j = i)) as [->|Hne].
  - left. split; [done|].
    destruct (pcs st !! i) as [p|] eqn:Hp.
    + pose proof (lookup_lt_Some _ _ _ Hp) as Hi.
      assert (pcs (run_schedule (alone i) st) = <[i := Finished]> (pcs st) ->
              ~ critical q) as Hfin.
      { intros E. rewrite E, list_lookup_insert_eq in Hq by done.
        injection Hq as <-. simpl. tauto. }
      destruct p; try (by apply Hfin, Ho).
      * destruct (lock st); [|by apply Hfin, Ho].
        rewrite Ho, Hp in Hq. injection Hq as <-. simpl. tauto.
      * rewrite Ho, Hp in Hq. injection Hq as <-. simpl. tauto.
    + rewrite Ho, Hp in Hq. done.
  - right. split; [done|].
    assert (pcs (run_schedule (alone i) st) = <[i := Finished]> (pcs st) ->
            pcs st !! j = Some q) as Hfin.
    { intros E. by rewrite E, list_lookup_insert_ne in Hq by done. }
    destruct (pcs st !! i) as [p|] eqn:Hp.
    + destruct p; try (by apply Hfin, Ho).
      * destruct (lock st); [by rewrite Ho in Hq|by apply Hfin, Ho].
      * by rewrite Ho in Hq.
    + by rewrite Ho in Hq.
Qed.

(** The first round: no call is left inside the lock. *)
Lemma first_round k st j q :
  (j < k)%nat ->
  pcs (run_schedule (flat_map alone (seq 0 k)) st) !! j = Some q ->
  ~ critical q.
Proof.
  revert j q. induction k as [|k IH]; intros j q Hj Hq; [lia|].
  rewrite seq_S, flat_map_app, run_schedule_app in Hq.
  change (flat_map alone [(0 + k)%nat]) with (alone k ++ []) in Hq.
  rewrite app_nil_r in Hq.
  destruct (alone_leaves _ _ _ _ Hq) as [ [_ Hnc]|[Hne Hq'] ]; [done|].
  apply (IH j q); [lia|done].
Qed.

(** The second round: with the lock free and nobody inside, each call
    in turn goes through. *)
Lemma second_round k st :
  lock st = false ->
  (forall j q, pcs st !! j = Some q -> ~ critical q) ->
  lock (run_schedule (flat_map alone (seq 0 k)) st) = false /\
  (forall j q, pcs (run_schedule (flat_map alone (seq 0 k)) st) !! j = Some q ->
               ~ critical q) /\
  (forall j q, (j < k)%nat ->
               pcs (run_schedule (flat_map alone (seq 0 k)) st) !! j = Some q ->
               q = Finished).
Proof.
  intros Hl Hnc. induction k as [|k IH].
  - simpl. split; [done|]. split; [done|]. intros; lia.
  - destruct IH as (Hlk & Hnck & Hfin).
    rewrite seq_S, flat_map_app, run_schedule_app.
    change (flat_map alone [(0 + k)%nat]) with (alone k ++ []).
    rewrite app_nil_r.
    set (stk := run_schedule (flat_map alone (seq 0 k)) st) in *.
    pose proof (alone_outcome stk k) as Ho.
    split; [|split].
    + destruct (pcs stk !! k) as [p|] eqn:Hp.
      * destruct p; try (by destruct (Hnck k _ Hp)).
        -- rewrite Hlk in Ho. by destruct Ho.
        -- by rewrite Ho.
      * by rewrite Ho.
    + intros j q Hq.
      destruct (alone_leaves _ _ _ _ Hq) as [ [_ Hn]|[_ Hq'] ]; [done|].
      by apply (Hnck j).
    + intros j q Hj Hq.
      destruct (decide (j = k)) as [->|Hne].
      * destruct (pcs stk !! k) as [p|] eqn:Hp.
        -- pose proof (lookup_lt_Some _ _ _ Hp) as Hi.
           destruct p; try (by destruct (Hnck k _ Hp)).
           ++ rewrite Hlk in Ho. destruct Ho as [_ Ho].
              rewrite Ho, list_lookup_insert_eq in Hq by done. by injection Hq.
           ++ rewrite Ho, Hp in Hq. by injection Hq.
        -- rewrite Ho, Hp in Hq. done.
      * destruct (alone_leaves _ _ _ _ Hq) as [ [? _]|[_ Hq'] ]; [done|].
        apply (Hfin j q); [lia|done].
Qed.

Lemma to_the_end_finishes st :
  lock_is_held st ->
  all_finished (run_schedule (to_the_end (length (pcs st))) st).
Proof.
  intros Hh. unfold to_the_end. rewrite run_schedule_app.
  set (n := length (pcs st)).
  set (st1 := run_schedule (flat_map alone (seq 0 n)) st).
  assert (length (pcs st1) = n) as Hlen by apply run_schedule_length.
  assert (forall j q, pcs st1 !! j = Some q -> ~ critical q) as Hnc.
  { intros j q Hq. apply (first_round n st j q); [|done].
    rewrite <- Hlen. by apply lookup_lt_Some in Hq. }
  assert (lock st1 = false) as Hl.
  { destruct (lock st1) eqn:E; [|done].
    destruct (lock_is_held_run _ _ Hh E) as (i & p & Hp & Hc).
    by destruct (Hnc i p). }
  destruct (second_round n st1 Hl Hnc) as (_ & _ & Hfin).
  apply Forall_lookup. intros j q Hq. apply (Hfin j q); [|done].
  apply lookup_lt_Some in Hq. by rewrite run_schedule_length, Hlen in Hq.
Qed.

(** *** The calls between them do what the method does once *)

Lemma tracks_start n g c : tracks g c (start n g c).
Proof.
  destruct g; simpl; [done|]. left. split; [done|]. split; [done|].
  intros i id. rewrite lookup_replicate. by intros [? _].
Qed.

Lemma tracks_step g c st i st' :
  invariant st -> tracks g c st -> thread_step i st = Some st' ->
  tracks g c st'.
Proof.
  intros Hinv Ht Hstep. unfold thread_step in Hstep.
  destruct (pcs st !! i) as [p|] eqn:Hp; [|done].
  assert (is_Some (pcs st !! i)) as Hi by eauto.
  assert (forall p', (forall id, p' <> Store id) ->
            (forall j id, pcs st !! j <> Some (Store id)) ->
            forall j id, set_pc i p' st !! j <> Some (Store id)) as Hno.
  { intros p' Hp' Hold j id Hj.
    destruct (lookup_set_pc _ _ _ _ _ Hi Hj) as [ [_ E]|[_ E] ];
      [by apply (Hp' id)|by apply (Hold j id)]. }
  assert (forall p' n0, (forall id, p' = Store id -> id = n0) ->
            (forall j id, pcs st !! j = Some (Store id) -> id = n0) ->
            forall j id, set_pc i p' st !! j = Some (Store id) -> id = n0) as Hall.
  { intros p' n0 Hp' Hold j id Hj.
    destruct (lookup_set_pc _ _ _ _ _ Hi Hj) as [ [_ E]|[_ E] ];
      [by apply Hp'|by apply (Hold j)]. }
  destruct p.
  - (* Acquire *)
    destruct (lock st); [done|]. injection Hstep as <-.
    destruct g as [id0|]; simpl in *; [done|].
    destruct Ht as [(Hg & Hc & Hs)|(Hc & [Hg|[Hg Hs] ])].
    + left. split; [done|]. split; [done|]. by apply Hno.
    + right. split; [done|]. by left.
    + right. split; [done|]. right. split; [done|]. by apply Hall.
  - (* Check *)
    injection Hstep as <-.
    destruct g as [id0|]; simpl in *; [done|].
    destruct Ht as [(Hg & Hc & Hs)|(Hc & [Hg|[Hg Hs] ])].
    + left. split; [done|]. split; [done|]. rewrite Hg. by apply Hno.
    + right. split; [done|]. by left.
    + right. split; [done|]. right. split; [done|]. rewrite Hg.
      by apply Hall.
  - (* Add *)
    injection Hstep as <-.
    destruct (inv_critical _ Hinv _ _ Hp I) as [_ [Hg Hd] ].
    destruct g as [id0|]; simpl in *.
    + destruct Ht as [Ht _]. congruence.
    + destruct Ht as [(_ & Hc & Hs)|(Hc & _)].
      * right. rewrite Hc. split; [done|]. right. split; [done|].
        apply Hall; [by intros id [= <-]|].
        intros j id Hj. by destruct (Hs j id).
      * rewrite Hc in Hd.
        pose proof (drain_sources_attach_drain c 0) as Hd'.
        simpl in Hd'. rewrite Hd in Hd'. by destruct (drain_sources c).
  - (* Store *)
    injection Hstep as <-.
    destruct (inv_critical _ Hinv _ _ Hp I) as [_ [Hg Hd] ].
    destruct g as [id0|]; simpl in *.
    + destruct Ht as [Ht _]. congruence.
    + destruct Ht as [(_ & _ & Hs)|(Hc & [Hg'|[_ Hs] ])].
      * by destruct (Hs i id).
      * congruence.
      * right. split; [done|]. left. by rewrite (Hs i id Hp).
  - (* Release *)
    injection Hstep as <-.
    destruct (inv_critical _ Hinv _ _ Hp I) as [_ (id & Hg & Hd)].
    destruct g as [id0|]; simpl in *; [done|].
    destruct Ht as [(Hg' & _)|(Hc & [Hg'|[Hg' _] ])]; try congruence.
    right. split; [done|]. by left.
  - done.
Qed.

Lemma tracks_run g c sched st :
  invariant st -> tracks g c st -> tracks g c (run_schedule sched st).
Proof.
  revert st. induction sched as [|i sched IH]; intros st Hinv Ht; [done|].
  simpl. destruct (thread_step i st) as [st'|] eqn:Hstep; [|by apply IH].
  apply IH; [by apply (invariant_step st i)|by apply (tracks_step g c st i)].
Qed.

(** When all the calls have returned, the drain id and the main
    context are those one call of the method leaves. *)
Lemma finished_as_the_method n g c sched :
  (1 <= n)%nat -> consistent g c ->
  all_finished (run_schedule sched (start n g c)) ->
  giteration (run_schedule sched (start n g c)) =
    Some (match g with Some id => id | None => GLib.next_source_id c end) /\
  context (run_schedule sched (start n g c)) =
    match g with
    | Some _ => c
    | None => snd (GLib.timeout_add 0 GLib.Cb_giterate c)
    end.
Proof.
  intros Hn Hc Hfin.
  pose proof (invariant_run_schedule sched _ (invariant_start n g c Hc)) as Hinv.
  pose proof (tracks_run g c sched _ (invariant_start n g c Hc)
                (tracks_start n g c)) as Ht.
  pose proof (run_schedule_length sched (start n g c)) as Hlen.
  set (st := run_schedule sched (start n g c)) in *.
  assert (is_Some (giteration st)) as [id Hg].
  { destruct (giteration st) as [id|] eqn:Hg; [eauto|].
    exfalso. simpl in Hlen. rewrite length_replicate in Hlen.
    destruct (pcs st !! 0%nat) as [p|] eqn:Hp.
    - apply (inv_finished _ Hinv Hg 0%nat).
      by rewrite Hp, (proj1 (Forall_lookup _ _) Hfin 0%nat p Hp).
    - apply lookup_ge_None in Hp. lia. }
  destruct g as [id0|]; simpl in Ht.
  - by destruct Ht as [-> ->].
  - destruct Ht as [(Hg' & _)|(Hc' & [Hg'|[Hg' _] ])]; try congruence.
    by rewrite Hg', Hc'.
Qed.

(** C5.  [n >= 1] calls of [_schedule_giteration], started on a loop
    whose [_giteration] agrees with the main context and interleaved
    in any way, each cut where another thread can come in (taking the
    lock, the test, [timeout_add], the store, giving the lock back).
    At every moment the main context holds at most one drain source.
    From every moment the calls can be let to return, and when they
    have, however they were interleaved, [_giteration] and the main
    context are what the method leaves when it is called [n] times in
    a row: exactly one drain source, the one [_giteration] names. *)
Theorem one_drain_source_pending (w : world) (n : nat) (sched : list nat) :
  (1 <= n)%nat ->
  agrees w ->
  (length (drain_sources
     (context (run_schedule sched
                 (start n (_giteration (self w)) (main w))))) <= 1)%nat /\
  all_finished (run_schedule (sched ++ to_the_end n)
                  (start n (_giteration (self w)) (main w))) /\
  exists w' id,
    repeat_schedule n w = (Ok tt, w') /\
    _giteration (self w') = Some id /\
    drain_sources (main w') = [id] /\
    giteration (run_schedule (sched ++ to_the_end n)
                  (start n (_giteration (self w)) (main w))) = Some id /\
    context (run_schedule (sched ++ to_the_end n)
               (start n (_giteration (self w)) (main w))) = main w' /\
    (all_finished (run_schedule sched
                     (start n (_giteration (self w)) (main w))) ->
       giteration (run_schedule sched
                     (start n (_giteration (self w)) (main w))) = Some id /\
       context (run_schedule sched
                  (start n (_giteration (self w)) (main w))) = main w').
Proof.
  intros Hn Ha.
  set (st0 := start n (_giteration (self w)) (main w)).
  assert (consistent (_giteration (self w)) (main w)) as Hc by exact Ha.
  split.
  { apply (inv_at_most_one _
             (invariant_run_schedule sched _ (invariant_start n _ _ Hc))). }
  assert (all_finished (run_schedule (sched ++ to_the_end n) st0)) as Hend.
  { rewrite run_schedule_app.
    pose proof (run_schedule_length sched st0) as Hlen.
    simpl in Hlen. rewrite length_replicate in Hlen.
    rewrite <- Hlen at 1. apply to_the_end_finishes.
    apply lock_is_held_run. intros Hl. done. }
  split; [exact Hend|]. subst st0.
  destruct (repeat_schedule_result n w Hn) as (w' & Hrun & Hg' & Hm').
  destruct (repeat_schedule_one_drain n w Hn Ha) as (w'' & Hrun' & Ha' & _).
  rewrite Hrun in Hrun'. injection Hrun' as <-.
  unfold agrees, consistent in Ha'. rewrite Hg' in Ha'.
  eexists w', _. split; [exact Hrun|]. split; [exact Hg'|].
  split; [exact Ha'|].
  destruct (finished_as_the_method n _ _ _ Hn Hc Hend) as [Hg1 Hc1].
  split; [exact Hg1|]. split; [by rewrite Hc1, Hm'|].
  intros Hfin.
  destruct (finished_as_the_method n _ _ _ Hn Hc Hfin) as [Hg2 Hc2].
  split; [exact Hg2|]. by rewrite Hc2, Hm'.
Qed.

Lemma one_drain_source_pending_witness :
  let w := init_world GAsyncIOSelector_class in
  let st := run_schedule ([0; 1; 2; 0; 1; 0; 2]%nat ++ to_the_end 3)
              (start 3 (_giteration (self w)) (main w)) in
  all_finished st /\
  giteration st = Some 1%nat /\ drain_sources (context st) = [1%nat] /\
  _giteration (self (snd (repeat_schedule 3 w))) = Some 1%nat.
Proof.
  intros w st.
  destruct (one_drain_source_pending w 3 [0; 1; 2; 0; 1; 0; 2]%nat)
    as (_ & Hfin & w' & id & Hrun & Hg & Hd & Hg1 & Hc1 & _).
  - lia.
  - reflexivity.
  - split; [exact Hfin|].
    assert (id = 1%nat) as ->.
    { assert (_giteration (self (snd (repeat_schedule 3 w))) = Some 1%nat) as E
        by reflexivity.
      rewrite Hrun in E. simpl in E. congruence. }
    split; [exact Hg1|]. split; [|by rewrite Hrun].
    unfold st. by rewrite Hc1.
Defined.
End ThreadsSpec.

(* ------------------------------------------------------------------ *)
(** ** ThreadSelector *)

Module ThreadSelectorSpec.
Import ThreadSelector.

Section Loop.
Variable add_reader : fileobj -> M world unit.

(** C3.  [ThreadSelector.register] and [ThreadSelector.unregister]
    hand nothing back: whenever they return, they return [None],
    not the key. *)
Theorem register_and_unregister_return_None
    (w w' w'' : world) f events data r r' :
  register add_reader f events data w = (Ok r, w') ->
  unregister add_reader f w' = (Ok r', w'') ->
  r = None /\ r' = None.
Proof.
  unfold register, unregister. intros Hr Hu. split.
  - apply bind_inv_ok in Hr as (k & w1 & _ & Hr).
    apply bind_inv_ok in Hr as (u & w2 & _ & Hr).
    unfold ret in Hr. congruence.
  - apply bind_inv_ok in Hu as (k & w1 & _ & Hu).
    apply bind_inv_ok in Hu as (u & w2 & _ & Hu).
    unfold ret in Hu. congruence.
Qed.

(** So does the inherited [modify] when the events change, as it
    returns what [register] returned. *)
Lemma modify_events_returns_None (w w' : world) f events data r n key :
  fst (BaseSelectorImpl._fileobj_lookup f w) = Ok n ->
  _fd_to_key (self w) !! n = Some key ->
  events <> key_events key ->
  modify add_reader f events data w = (Ok r, w') ->
  r = None.
Proof.
  intros Hl Hk Hev. unfold modify, BaseSelectorImpl.modify.
  unfold bind at 1.
  assert (BaseSelectorImpl._fileobj_lookup f w = (Ok n, w)) as ->.
  { rewrite <- (BaseFacts._fileobj_lookup_state f w) at 2.
    rewrite <- Hl. by destruct (BaseSelectorImpl._fileobj_lookup f w). }
  unfold bind at 1, get. cbv beta iota.
  change (fd_to_key w) with (_fd_to_key (self w)). rewrite Hk.
  apply Z.eqb_neq in Hev. rewrite Hev. simpl. intros H.
  apply bind_inv_ok in H as (u & w1 & _ & H).
  unfold register in H.
  apply bind_inv_ok in H as (k & w2 & _ & H).
  apply bind_inv_ok in H as (u' & w3 & _ & H).
  unfold ret in H. congruence.
Qed.
End Loop.

Lemma register_and_unregister_return_None_witness :
  let w := init_world None in
  let f := FdInt 3 in
  let data := (Some 0%nat, None) in
  let key := mkKey f 3 EVENT_READ data in
  let w' := snd (register (fun _ => ret tt) f EVENT_READ data w) in
  fst (register (fun _ => ret tt) f EVENT_READ data w) = Ok None /\
  _fd_to_key (self w') !! 3 = Some key /\
  fst (unregister (fun _ => ret tt) f w') = Ok None.
Proof.
  intros w f data key w'.
  destruct (register_and_unregister_return_None (fun _ => ret tt)
              w w' (snd (unregister (fun _ => ret tt) f w'))
              f EVENT_READ data None None) as [_ _].
  - vm_compute. reflexivity.
  - vm_compute. reflexivity.
  - split; [|split]; vm_compute; reflexivity.
Defined.

(** With a loop running, the first [register] also starts the
    thread and sends the wake byte, and still returns [None]. *)
Example register_with_running_loop :
  let r := register (fun _ => ret tt) (FdInt 7) EVENT_WRITE (None, Some 1%nat)
             (init_world (Some 0%nat)) in
  fst r = Ok None /\
  _thread (self (snd r)) = Some 0%nat /\
  waker_bytes (snd r) = 1%nat /\
  _writers (self (snd r)) = {[7]}.
Proof. vm_compute. repeat split. Qed.

Section Platform.
Variable platform : errno_module.

(** The comparison with the platform's code is never reached: the
    name [errno] is not bound in the module. *)
Lemma not_a_socket_code_raises :
  not_a_socket_code platform = Raise (NameError "errno").
Proof. reflexivity. Qed.

(** C4, as the code has it.  Whatever the [errno] of the [OSError]
    that the blocking [select] raises, the wake socket is not
    polled and the wait is not retried: the handler itself raises
    [NameError], which leaves [_run_select] and ends the thread. *)
Theorem OSError_in_select_ends_thread_with_NameError
    (t : turn) (rest : list turn) (e : Z) :
  closed_now t = false ->
  blocking t = SelectRaises (OSError e) ->
  _run_select platform (t :: rest) = ([], Died (NameError "errno")).
Proof.
  intros Hc Hb. simpl. rewrite Hc. unfold wait_ready. rewrite Hb.
  by rewrite not_a_socket_code_raises.
Qed.
End Platform.

Lemma OSError_in_select_ends_thread_with_NameError_witness :
  _run_select errno_posix spurious_wakeup = ([], Died (NameError "errno")).
Proof.
  apply (OSError_in_select_ends_thread_with_NameError errno_posix _ _
           (EBADF errno_posix)); reflexivity.
Defined.

(** Without an [OSError] the thread hands on what was selected and
    returns once the selector is closed. *)
Example run_select_until_closed :
  _run_select errno_posix
    [mkTurn false (Selected [5] [6] [7]) (Selected [] [] []) None;
     mkTurn false (Selected [3] [] []) (Selected [] [] []) (Some RuntimeError);
     mkTurn true (Selected [] [] []) (Selected [] [] []) None]
  = ([([5], [6; 7])], Returned).
Proof. reflexivity. Qed.
End ThreadSelectorSpec.

(* ================================================================== *)
(** * More of the code *)

(* ------------------------------------------------------------------ *)
(** ** GAsyncIOSelector: event masks and watches *)

Module GAsyncIOSelectorMore.
Import GAsyncIOSelector GAsyncIOSelectorFacts Watches.

Lemma land_bit_cases (e b : Z) :
  b = 1 \/ b = 2 \/ b = 4 -> Z.land e b = 0 \/ Z.land e b = b.
Proof.
  intros Hb.
  assert (exists k, b = 2 ^ k /\ 0 <= k) as (k & -> & Hk).
  { destruct Hb as [-> | [-> | ->] ]; [exists 0|exists 1|exists 2]; split; lia. }
  destruct (Z.testbit e k) eqn:Eb.
  - right. apply Z.bits_inj'. intros i Hi. rewrite Z.land_spec.
    destruct (Z.eq_dec i k) as [->|Hne].
    + by rewrite Eb, Z.pow2_bits_true.
    + rewrite Z.pow2_bits_false by lia. by rewrite andb_false_r.
  - left. apply Z.bits_inj'. intros i Hi. rewrite Z.land_spec, Z.bits_0.
    destruct (Z.eq_dec i k) as [->|Hne].
    + by rewrite Eb.
    + rewrite Z.pow2_bits_false by lia. by rewrite andb_false_r.
Qed.

(** X1.  Selector events to GLib conditions and back: what comes back
    is the event mask cut to read and write, so a mask made of those
    two bits comes back unchanged; and a condition comes back cut to
    IN and OUT. *)
Theorem events_io_condition_round_trip (events condition : Z) :
  _io_condition_to_events (_events_to_io_condition events) =
    Z.land events (Z.lor EVENT_READ EVENT_WRITE) /\
  _events_to_io_condition (_io_condition_to_events condition) =
    Z.land condition (Z.lor GLib.IO_IN GLib.IO_OUT).
Proof.
  unfold _io_condition_to_events, _events_to_io_condition, truthy,
    EVENT_READ, EVENT_WRITE, GLib.IO_IN, GLib.IO_OUT.
  rewrite !Z.land_lor_distr_r. split.
  - destruct (land_bit_cases events 1) as [-> | ->]; [auto|..];
      destruct (land_bit_cases events 2) as [-> | ->]; auto; reflexivity.
  - destruct (land_bit_cases condition 1) as [-> | ->]; [auto|..];
      destruct (land_bit_cases condition 4) as [-> | ->]; auto; reflexivity.
Qed.


(** What a [register] that returns has done, in full. *)
Lemma register_world (w w' : world) f events data key :
  maps_in_step (self w) ->
  register f events data w = (Ok key, w') ->
  key = mkKey f (key_fd key) events data /\
  BaseSelectorImpl.invalid_events events = false /\
  BaseSelectorImpl._fileobj_lookup f w = (Ok (key_fd key), w) /\
  _fd_to_key (self w) !! key_fd key = None /\
  _sources (self w) !! key_fd key = None /\
  _fd_to_key (self w') = <[key_fd key := key]> (_fd_to_key (self w)) /\
  _sources (self w') =
    <[key_fd key := GLib.next_source_id (main w)]> (_sources (self w)) /\
  _fileobj_preserve (self w') = _fileobj_preserve (self w) /\
  _hups (self w') = _hups (self w) /\
  ran w' = ran w /\
  GLib.next_source_id (main w') = Datatypes.S (GLib.next_source_id (main w)) /\
  exists ch,
    GLib.sources (main w') =
      GLib.sources (main w) ++ [(GLib.next_source_id (main w), watch_for ch key)] /\
    _io_channels (self w') !! key_fd key = Some ch /\
    match _io_channels (self w) !! key_fd key with
    | Some c => ch = c /\ _io_channels (self w') = _io_channels (self w) /\
                GLib.channels_created (main w') = GLib.channels_created (main w)
    | None => ch = GLib.mkChannel (GLib.channels_created (main w)) (key_fd key)
                     None false false /\
              _io_channels (self w') = <[key_fd key := ch]> (_io_channels (self w)) /\
              GLib.channels_created (main w') =
                Datatypes.S (GLib.channels_created (main w))
    end.
Proof.
  intros Hinv. unfold_py.
  destruct (BaseSelectorImpl.invalid_events events) eqn:Hev; [done|].
  rewrite (lookup_pair f w).
  destruct (fst (BaseSelectorImpl._fileobj_lookup f w)) as [n|e] eqn:El; [|done].
  simpl. destruct (decide (is_Some (_fd_to_key (self w) !! n))) as [Hk|Hk];
    [done|].
  simpl. destruct (decide (is_Some (_sources (self w) !! n))) as [Hs|Hs].
  { exfalso. apply Hk. by apply (source_has_key _ Hinv). }
  apply eq_None_not_Some in Hk. apply eq_None_not_Some in Hs.
  destruct (_io_channels (self w) !! n) as [c|] eqn:Ec; simpl;
    intros [= <- <-]; simpl; rewrite ?Ec, ?lookup_insert_eq;
    repeat split; eauto 10.
Qed.

(** What an [unregister] that returns has done, in full. *)
Lemma unregister_world (w w' : world) f key :
  maps_in_step (self w) ->
  unregister f w = (Ok key, w') ->
  BaseSelectorImpl._fileobj_lookup f w = (Ok (key_fd key), w) /\
  _fd_to_key (self w) !! key_fd key = Some key /\
  exists id,
    _sources (self w) !! key_fd key = Some id /\
    w' = mkWorld
           (mk (delete (key_fd key) (_fd_to_key (self w)))
               (delete (key_fd key) (_sources (self w)))
               (if decide (py_eq_key f ∈ _fileobj_preserve (self w))
                then _io_channels (self w)
                else delete (key_fd key) (_io_channels (self w)))
               (_fileobj_preserve (self w)) (_hups (self w)))
           (GLib.source_remove id (main w)) (ran w).
Proof.
  intros Hinv. unfold_py.
  rewrite (lookup_pair f w).
  destruct (fst (BaseSelectorImpl._fileobj_lookup f w)) as [n|e] eqn:El; [|done].
  simpl. destruct (_fd_to_key (self w) !! n) as [k|] eqn:Ek; [|done].
  pose proof (key_under_fd _ Hinv _ _ Ek) as Hfd. simpl. rewrite Hfd.
  destruct (key_has_source _ Hinv n) as [src Hsrc]; [eauto|]. rewrite Hsrc.
  destruct (source_has_channel _ Hinv n) as [c Hc]; [eauto|].
  simpl. destruct (decide (py_eq_key f ∈ _fileobj_preserve (self w))); simpl;
    rewrite ?Hc; simpl; intros [= <- <-]; rewrite Hfd; eauto 10.
Qed.


(** *** One watch for each registered descriptor *)

Lemma elem_of_source_remove id g (p : nat * GLib.source) :
  p ∈ GLib.sources (GLib.source_remove id g) <->
  p ∈ GLib.sources g /\ fst p <> id.
Proof.
  unfold GLib.source_remove. simpl.
  rewrite !list_elem_of_In, List.filter_In, negb_true_iff, Nat.eqb_neq. done.
Qed.

Lemma NoDup_source_remove id g :
  NoDup (List.map fst (GLib.sources g)) ->
  NoDup (List.map fst (GLib.sources (GLib.source_remove id g))).
Proof.
  unfold GLib.source_remove. simpl.
  induction (GLib.sources g) as [|p l IH]; simpl; [done|].
  intros [Hnotin Hnd]%NoDup_cons. destruct (negb (fst p =? id)%nat); simpl; auto.
  apply NoDup_cons. split; [|auto].
  intros Hin. apply Hnotin.
  apply list_elem_of_In, List.in_map_iff in Hin as (q & Hq & Hin).
  apply List.filter_In in Hin as [Hin _].
  apply list_elem_of_In, List.in_map_iff. eauto.
Qed.

Lemma watches_in_step_ext (w w' : world) :
  _fd_to_key (self w') = _fd_to_key (self w) ->
  _sources (self w') = _sources (self w) ->
  _io_channels (self w') = _io_channels (self w) ->
  main w' = main w ->
  watches_in_step w -> watches_in_step w'.
Proof.
  intros Hk Hs Hc Hm [H1 H2 H3 H4 H5 H6].
  split; rewrite ?Hk, ?Hs, ?Hc, ?Hm; done.
Qed.

Lemma watches_in_step_init : watches_in_step init_world.
Proof.
  split; simpl.
  - constructor.
  - constructor.
  - intros n id. by rewrite lookup_empty.
  - intros id src Hin. by apply elem_of_nil in Hin.
  - intros n m id. by rewrite lookup_empty.
  - intros n c. by rewrite lookup_empty.
Qed.

Lemma same_registration_refl k : same_registration k k.
Proof. by repeat split. Qed.

Lemma watches_register (w : world) f events data :
  maps_in_step (self w) -> watches_in_step w ->
  watches_in_step (snd (register f events data w)).
Proof.
  intros Hinv Hw.
  destruct (register f events data w) as [[key|e] w'] eqn:Hr.
  2:{ destruct (register_cases w f events data Hinv)
        as [[e' He]|(k & w2 & He & _)]; rewrite He in Hr; by simplify_eq. }
  destruct (register_world _ _ _ _ _ _ Hinv Hr)
    as (Hkey & _ & _ & Hknone & Hsnone & Hk & Hs & _ & _ & _ & Hnext
        & ch & Hsrc & Hch & Hcase).
  simpl. set (n := key_fd key) in *. set (id := GLib.next_source_id (main w)) in *.
  assert (forall m, m <> n ->
            _io_channels (self w') !! m = _io_channels (self w) !! m) as Hother.
  { intros m Hm. destruct (_io_channels (self w) !! n).
    - by destruct Hcase as (_ & -> & _).
    - destruct Hcase as (_ & -> & _). by rewrite lookup_insert_ne. }
  assert (forall p, p ∈ GLib.sources (main w) -> (fst p < id)%nat) as Hlt.
  { intros p Hp. by apply (proj1 (Forall_forall _ _) (ids_fresh _ Hw)). }
  split.
  - unfold ids_below. rewrite Hnext, Hsrc. apply Forall_app. split.
    + apply Forall_forall. intros p Hp%Hlt. lia.
    + apply Forall_singleton. simpl. fold id. lia.
  - rewrite Hsrc, List.map_app. simpl. apply NoDup_app. split; [|split].
    + apply (ids_distinct _ Hw).
    + intros i Hi ->%list_elem_of_singleton.
      apply list_elem_of_In, List.in_map_iff in Hi as (p & Hp & Hin).
      apply list_elem_of_In, Hlt in Hin. lia.
    + apply NoDup_singleton.
  - intros m i. rewrite Hs, Hk, Hsrc. destruct (decide (m = n)) as [->|Hm].
    + rewrite !lookup_insert_eq. intros [= <-]. exists ch, key, key.
      repeat split; try done. apply elem_of_app. right. by apply list_elem_of_singleton.
    + rewrite !lookup_insert_ne, Hother by done. intros Hi.
      destruct (watch_of_source _ Hw _ _ Hi) as (c & k & k' & ? & ? & ? & ?).
      exists c, k, k'. repeat split; try done; try apply H1.
      apply elem_of_app. by left.
  - intros i src. rewrite Hsrc, Hs. intros [Hin|Hin%list_elem_of_singleton]%elem_of_app.
    + destruct (source_of_watch _ Hw _ _ Hin) as [m Hm]. exists m.
      rewrite lookup_insert_ne; [done|]. intros <-. congruence.
    + injection Hin as -> _. exists n. by rewrite lookup_insert_eq.
  - intros m1 m2 i. rewrite Hs.
    assert (forall m, _sources (self w) !! m <> Some id) as Hfresh.
    { intros m Hm. destruct (watch_of_source _ Hw _ _ Hm) as (c & k & k' & _ & _ & _ & Hin).
      apply Hlt in Hin. simpl in Hin. lia. }
    destruct (decide (m1 = n)) as [->|H1]; destruct (decide (m2 = n)) as [->|H2];
      rewrite ?lookup_insert_eq, ?lookup_insert_ne by done; try done.
    + intros [= <-] Hm. by destruct (Hfresh m2).
    + intros Hm [= <-]. by destruct (Hfresh m1).
    + apply (sources_injective _ Hw).
  - intros m c. destruct (decide (m = n)) as [->|Hm].
    + rewrite Hch. intros [= <-].
      destruct (_io_channels (self w) !! n) as [c|] eqn:Ec.
      * destruct Hcase as (-> & _). by apply (channels_raw _ Hw).
      * destruct Hcase as (-> & _). by repeat split.
    + rewrite Hother by done. apply (channels_raw _ Hw).
Qed.


Lemma watches_unregister (w : world) f :
  maps_in_step (self w) -> watches_in_step w ->
  watches_in_step (snd (unregister f w)).
Proof.
  intros Hinv Hw.
  destruct (unregister f w) as [[key|e] w'] eqn:Hu.
  2:{ destruct (unregister_cases w f Hinv)
        as [[e' He]|(k & w2 & He & _)]; rewrite He in Hu; by simplify_eq. }
  destruct (unregister_world _ _ _ _ Hinv Hu) as (_ & Hk & id & Hid & ->).
  simpl. set (n := key_fd key) in *.
  split; simpl.
  - unfold ids_below. apply Forall_forall. intros p [Hp _]%elem_of_source_remove.
    by apply (proj1 (Forall_forall _ _) (ids_fresh _ Hw)).
  - apply NoDup_source_remove, (ids_distinct _ Hw).
  - intros m i [Hm Hi]%lookup_delete_Some.
    destruct (watch_of_source _ Hw _ _ Hi) as (c & k & k' & Hc & Hkm & Hsame & Hin).
    exists c, k, k'. repeat split; try apply Hsame.
    + destruct (decide _); [done|]. by rewrite lookup_delete_ne.
    + by rewrite lookup_delete_ne.
    + apply elem_of_source_remove. split; [done|]. simpl. intros ->.
      apply Hm. by apply (sources_injective _ Hw _ _ id).
  - intros i src [Hin Hne]%elem_of_source_remove. simpl in Hne.
    destruct (source_of_watch _ Hw _ _ Hin) as [m Hm]. exists m.
    apply lookup_delete_Some. split; [|done]. intros <-. congruence.
  - intros m1 m2 i [_ H1]%lookup_delete_Some [_ H2]%lookup_delete_Some.
    by apply (sources_injective _ Hw _ _ i).
  - intros m c Hc. apply (channels_raw _ Hw).
    destruct (decide _); [done|]. by apply lookup_delete_Some in Hc as [_ Hc].
Qed.

Lemma base_modify_watches (w w' : world) f events data res :
  maps_in_step (self w) -> watches_in_step w ->
  BaseSelectorImpl.modify id unregister register f events data w = (res, w') ->
  watches_in_step w'.
Proof.
  intros Hinv Hw H. unfold BaseSelectorImpl.modify in H.
  unfold bind at 1 in H. rewrite (lookup_pair f w) in H.
  destruct (fst (BaseSelectorImpl._fileobj_lookup f w)) as [n|e] eqn:El;
    [|by simplify_eq].
  unfold bind at 1, get in H. cbv beta iota in H.
  change (fd_to_key w) with (_fd_to_key (self w)) in H.
  destruct (_fd_to_key (self w) !! n) as [key|] eqn:Ek;
    [|unfold raise in H; by simplify_eq].
  destruct (negb (events =? key_events key)).
  - unfold bind in H.
    pose proof (unregister_in_step w f Hinv) as Hinv1.
    pose proof (watches_unregister w f Hinv Hw) as Hw1.
    destruct (unregister f w) as [[k1|e] w1]; [|by simplify_eq].
    simpl in *.
    pose proof (watches_register w1 f events data Hinv1 Hw1) as Hw2.
    destruct (register f events data w1) as [[k2|e] w2]; by simplify_eq.
  - pose proof (key_under_fd _ Hinv _ _ Ek) as Hfd.
    destruct (negb (bool_decide (data = key_data_ key)));
      unfold bind, modify_state, ret in H; simplify_eq/=; [|done].
    destruct Hw as [H1 H2 H3 H4 H5 H6]. split; simpl; try done.
    intros m i Hi. destruct (H3 _ _ Hi) as (c & k & k' & Hc & Hk & Hsame & Hin).
    destruct (decide (m = key_fd key)) as [->|Hm].
    + exists c, (mkKey (key_fileobj key) (key_fd key) (key_events key) data), k'.
      rewrite lookup_insert_eq. repeat split; try done.
      all: rewrite Ek in Hk; injection Hk as <-; apply Hsame.
    + exists c, k, k'. by rewrite lookup_insert_ne.
Qed.

Lemma watches_modify (w : world) f events data :
  maps_in_step (self w) -> watches_in_step w ->
  watches_in_step (snd (modify f events data w)).
Proof.
  intros Hinv Hw.
  destruct (modify f events data w) as [res w'] eqn:H. simpl.
  unfold modify, set_fileobj_preserve, on_self in H.
  unfold bind at 1 in H. unfold modify_state at 1 in H. cbv beta iota in H.
  set (w0 := mkWorld _ (main w) (ran w)) in H.
  assert (Hinv0 : maps_in_step (self w0)) by (by apply (maps_in_step_ext (self w))).
  assert (Hw0 : watches_in_step w0) by (by apply (watches_in_step_ext w)).
  unfold bind at 1 in H.
  destruct (BaseSelectorImpl.modify id unregister register f events data w0)
    as [[r|e] w2] eqn:Em;
    pose proof (base_modify_watches _ _ _ _ _ _ Hinv0 Hw0 Em) as Hw2.
  - unfold bind, get, modify_state, ret, raise in H. simpl in H.
    destruct (decide _); simplify_eq/=; [|done].
    by apply (watches_in_step_ext w2).
  - by simplify_eq.
Qed.

Lemma select_and_watch_keep_main c w :
  match c with
  | Call_select _ | Call_channel_watch_cb _ _ _ => True
  | _ => False
  end ->
  main (after c w) = main w.
Proof.
  destruct c as [| | |timeout|ch cond key]; try done; intros _; simpl.
  unfold _channel_watch_cb. destruct (key_data_ key) as [[hi|] [ho|]];
    unfold bind, run_handle, set_hups, on_self, modify_state, ret, raise;
    repeat (case_match; simpl in *; simplify_eq); done.
Qed.

Lemma after_in_step c w :
  maps_in_step (self w) -> watches_in_step w ->
  maps_in_step (self (after c w)) /\ watches_in_step (after c w).
Proof.
  intros Hinv Hw. destruct c as [f e d|f|f e d|timeout|ch cond key].
  - split; [by apply register_in_step|by apply watches_register].
  - split; [by apply unregister_in_step|by apply watches_unregister].
  - split; [|by apply watches_modify].
    simpl. destruct (modify f e d w) as [res w'] eqn:Em.
    by destruct (modify_frame _ _ _ _ _ _ Hinv Em) as (_ & _ & ? & _).
  - destruct (select_and_watch_keep_maps (Call_select timeout) w I)
      as (? & ? & ?).
    pose proof (select_and_watch_keep_main (Call_select timeout) w I).
    split; [by apply (maps_in_step_ext (self w))|by apply (watches_in_step_ext w)].
  - destruct (select_and_watch_keep_maps (Call_channel_watch_cb ch cond key) w I)
      as (? & ? & ?).
    pose proof (select_and_watch_keep_main (Call_channel_watch_cb ch cond key) w I).
    split; [by apply (maps_in_step_ext (self w))|by apply (watches_in_step_ext w)].
Qed.

Lemma history_snoc cs c : history (cs ++ [c]) = after c (history cs).
Proof. unfold history. by rewrite foldl_app. Qed.

Lemma history_in_step cs :
  maps_in_step (self (history cs)) /\ watches_in_step (history cs).
Proof.
  induction cs as [|c cs IH] using rev_ind.
  - split; [apply maps_in_step_init|apply watches_in_step_init].
  - rewrite history_snoc. destruct IH. by apply after_in_step.
Qed.


Lemma source_of_id_unique (l : list (nat * GLib.source)) id a b :
  NoDup (List.map fst l) -> (id, a) ∈ l -> (id, b) ∈ l -> a = b.
Proof.
  induction l as [|p l IH]; simpl; intros Hnd Ha Hb.
  - by apply elem_of_nil in Ha.
  - apply NoDup_cons in Hnd as [Hnotin Hnd].
    assert (forall c, (id, c) ∈ l -> id ∈ List.map fst l) as Hfst.
    { intros c Hc. apply list_elem_of_In, List.in_map_iff.
      exists (id, c). split; [done|]. by apply list_elem_of_In. }
    apply elem_of_cons in Ha as [Ha|Ha]; apply elem_of_cons in Hb as [Hb|Hb].
    + congruence.
    + subst p. destruct Hnotin. by apply (Hfst b).
    + subst p. destruct Hnotin. by apply (Hfst a).
    + by apply IH.
Qed.

(** X2.  Whatever calls a fresh selector has received, a registered
    descriptor has one watch in the main context and no more: under the
    id the source map records, attached on the wrapper the channel map
    holds for it (a raw one over that descriptor), asking for the
    key's events and for hangup, and carrying a key with the same file
    object, descriptor and events; no other descriptor shares the id. *)
Theorem registered_descriptor_has_one_watch (cs : list call) n k :
  _fd_to_key (self (history cs)) !! n = Some k ->
  exists id ch key,
    _sources (self (history cs)) !! n = Some id /\
    _io_channels (self (history cs)) !! n = Some ch /\
    raw_channel n ch /\
    same_registration key k /\
    (forall src, (id, src) ∈ GLib.sources (main (history cs)) <->
                 src = watch_for ch key) /\
    (forall m, _sources (self (history cs)) !! m = Some id -> m = n).
Proof.
  intros Hk. destruct (history_in_step cs) as [Hinv Hw].
  destruct (key_has_source _ Hinv n) as [id Hid]; [eauto|].
  destruct (watch_of_source _ Hw _ _ Hid) as (ch & k' & key & Hch & Hk' & Hsame & Hin).
  exists id, ch, key. rewrite Hk in Hk'. injection Hk' as <-.
  split; [done|]. split; [done|].
  split; [by apply (channels_raw _ Hw)|]. split; [done|]. split.
  - intros src. split.
    + intros Hsrc. by apply (source_of_id_unique _ id _ _ (ids_distinct _ Hw)).
    + by intros ->.
  - intros m Hm. by apply (sources_injective _ Hw _ _ id).
Qed.

Lemma registered_descriptor_has_one_watch_witness :
  let cs := [Call_register (FdInt 5) EVENT_READ (Some 0%nat, None);
             Call_register (FdInt 6) EVENT_WRITE (None, Some 1%nat);
             Call_modify (FdInt 5) (Z.lor EVENT_READ EVENT_WRITE)
                         (Some 0%nat, Some 2%nat)] in
  exists id ch key,
    _sources (self (history cs)) !! 5 = Some id /\
    (id, watch_for ch key) ∈ GLib.sources (main (history cs)) /\
    key_events key = Z.lor EVENT_READ EVENT_WRITE.
Proof.
  intros cs.
  destruct (registered_descriptor_has_one_watch cs 5
              (mkKey (FdInt 5) 5 (Z.lor EVENT_READ EVENT_WRITE)
                     (Some 0%nat, Some 2%nat)))
    as (id & ch & key & Hid & _ & _ & Hsame & Hsrc & _).
  - vm_compute. reflexivity.
  - exists id, ch, key. split; [exact Hid|]. split; [by apply Hsrc|].
    apply Hsame.
Defined.

(** X3.  And the main context holds nothing else: every source in it
    is the watch of a descriptor that is registered now. *)
Theorem every_source_is_a_registered_watch (cs : list call) id src :
  (id, src) ∈ GLib.sources (main (history cs)) ->
  exists n k ch key,
    _sources (self (history cs)) !! n = Some id /\
    _fd_to_key (self (history cs)) !! n = Some k /\
    _io_channels (self (history cs)) !! n = Some ch /\
    same_registration key k /\
    src = watch_for ch key.
Proof.
  intros Hin. destruct (history_in_step cs) as [Hinv Hw].
  destruct (source_of_watch _ Hw _ _ Hin) as [n Hn].
  destruct (watch_of_source _ Hw _ _ Hn) as (ch & k & key & Hch & Hk & Hsame & Hin').
  exists n, k, ch, key. do 4 (split; [done|]).
  by apply (source_of_id_unique _ id _ _ (ids_distinct _ Hw)).
Qed.

Lemma every_source_is_a_registered_watch_witness :
  let cs := [Call_register (FdInt 5) EVENT_READ (Some 0%nat, None);
             Call_register (FdInt 6) EVENT_WRITE (None, Some 1%nat);
             Call_unregister (FdInt 5)] in
  exists k, _fd_to_key (self (history cs)) !! 6 = Some k /\
            _sources (self (history cs)) !! 6 = Some 2%nat.
Proof.
  intros cs.
  destruct (every_source_is_a_registered_watch cs 2%nat
              (watch_for (GLib.mkChannel 1 6 None false false)
                         (mkKey (FdInt 6) 6 EVENT_WRITE (None, Some 1%nat))))
    as (n & k & ch & key & Hid & Hk & _).
  - vm_compute. apply list_elem_of_singleton. reflexivity.
  - assert (n = 6) as ->.
    { destruct (history_in_step cs) as [_ Hw].
      apply (sources_injective _ Hw n 6 2%nat); [exact Hid|].
      vm_compute. reflexivity. }
    exists k. split; [exact Hk|exact Hid].
Defined.


(** *** How the calls compose *)

Lemma register_returns (w : world) f events data n :
  maps_in_step (self w) ->
  BaseSelectorImpl.invalid_events events = false ->
  fst (BaseSelectorImpl._fileobj_lookup f w) = Ok n ->
  _fd_to_key (self w) !! n = None ->
  exists w', register f events data w = (Ok (mkKey f n events data), w').
Proof.
  intros Hinv Hev Hl Hk. unfold_py. rewrite Hev, (lookup_pair f w), Hl. simpl.
  rewrite decide_False by (rewrite Hk; by intros [? ?]). simpl.
  rewrite decide_False.
  2:{ intros Hs. apply (source_has_key _ Hinv) in Hs. rewrite Hk in Hs.
      by destruct Hs. }
  destruct (_io_channels (self w) !! n); simpl; eauto.
Qed.

Lemma unregister_returns (w : world) f n k :
  maps_in_step (self w) ->
  fst (BaseSelectorImpl._fileobj_lookup f w) = Ok n ->
  _fd_to_key (self w) !! n = Some k ->
  exists w', unregister f w = (Ok k, w').
Proof.
  intros Hinv Hl Hk. unfold_py. rewrite (lookup_pair f w), Hl. simpl.
  rewrite Hk. pose proof (key_under_fd _ Hinv _ _ Hk) as Hfd. simpl.
  rewrite Hfd.
  destruct (key_has_source _ Hinv n) as [src Hsrc]; [eauto|]. rewrite Hsrc.
  destruct (source_has_channel _ Hinv n) as [c Hc]; [eauto|].
  simpl. destruct (decide _); simpl; rewrite ?Hc; simpl; eauto.
Qed.

Lemma source_remove_last (g : GLib.MainContext) src :
  ids_below g ->
  List.filter (fun p => negb (fst p =? GLib.next_source_id g)%nat)
              (GLib.sources g ++ [(GLib.next_source_id g, src)])
  = GLib.sources g.
Proof.
  unfold ids_below. intros Hlt. rewrite List.filter_app. simpl.
  rewrite Nat.eqb_refl. simpl. rewrite app_nil_r.
  induction Hlt as [|p l Hp _ IH]; simpl; [done|].
  rewrite IH. by rewrite (proj2 (Nat.eqb_neq _ _)) by lia.
Qed.

(** X4.  [register] followed by [unregister], on a descriptor that is
    not registered, has no wrapper left over and whose file object is
    not marked: both return the same key, and the selector and the
    sources of the main context are back as they were; one wrapper
    was created on the way and is gone again. *)
Theorem register_unregister_round_trip (cs : list call) f events data n :
  BaseSelectorImpl.invalid_events events = false ->
  _fileobj_to_fd f = Ok n ->
  _fd_to_key (self (history cs)) !! n = None ->
  _io_channels (self (history cs)) !! n = None ->
  py_eq_key f ∉ _fileobj_preserve (self (history cs)) ->
  exists w1 w2,
    register f events data (history cs) = (Ok (mkKey f n events data), w1) /\
    unregister f w1 = (Ok (mkKey f n events data), w2) /\
    self w2 = self (history cs) /\
    GLib.sources (main w2) = GLib.sources (main (history cs)) /\
    GLib.channels_created (main w2) =
      Datatypes.S (GLib.channels_created (main (history cs))).
Proof.
  intros Hev Hf Hk Hc Hp. destruct (history_in_step cs) as [Hinv Hw].
  set (w := history cs) in *.
  destruct (register_returns w f events data n Hinv Hev (lookup_direct _ _ _ Hf) Hk)
    as [w1 Hr].
  pose proof (register_in_step w f events data Hinv) as Hinv1.
  rewrite Hr in Hinv1. simpl in Hinv1.
  destruct (register_world _ _ _ _ _ _ Hinv Hr)
    as (_ & _ & _ & _ & Hsn & Hk1 & Hs1 & Hp1 & Hh1 & Hran1 & Hnext
        & ch & Hsrc & _ & Hcase).
  simpl in *. rewrite Hc in Hcase. destruct Hcase as (-> & Hc1 & Hcc).
  destruct (unregister_returns w1 f n (mkKey f n events data) Hinv1
              (lookup_direct _ _ _ Hf)) as [w2 Hu].
  { by rewrite Hk1, lookup_insert_eq. }
  destruct (unregister_world _ _ _ _ Hinv1 Hu) as (_ & _ & id & Hid & ->).
  simpl in *. rewrite Hs1, lookup_insert_eq in Hid. injection Hid as <-.
  exists w1. eexists. split; [done|]. split; [done|]. simpl.
  rewrite Hp1, decide_False by done.
  rewrite Hk1, Hs1, Hc1, Hh1, !delete_insert_id by done.
  split; [by destruct (self w)|]. split; [|done].
  rewrite Hsrc. apply source_remove_last, (ids_fresh _ Hw).
Qed.

Lemma register_unregister_round_trip_witness :
  let cs := [Call_register (FdInt 5) EVENT_READ (Some 0%nat, None)] in
  exists w1 w2,
    register (FdObj 9 (Some 6)) EVENT_WRITE (None, Some 1%nat) (history cs)
      = (Ok (mkKey (FdObj 9 (Some 6)) 6 EVENT_WRITE (None, Some 1%nat)), w1) /\
    unregister (FdObj 9 (Some 6)) w1
      = (Ok (mkKey (FdObj 9 (Some 6)) 6 EVENT_WRITE (None, Some 1%nat)), w2) /\
    self w2 = self (history cs) /\
    GLib.sources (main w2) = GLib.sources (main (history cs)).
Proof.
  intros cs.
  destruct (register_unregister_round_trip cs (FdObj 9 (Some 6)) EVENT_WRITE
              (None, Some 1%nat) 6) as (w1 & w2 & Hr & Hu & Hs & Hm & _).
  - reflexivity.
  - reflexivity.
  - vm_compute. reflexivity.
  - vm_compute. reflexivity.
  - vm_compute. discriminate.
  - exists w1, w2. auto.
Defined.

(** X5.  An [unregister] that raises has changed nothing, and what it
    raises is [KeyError] (the descriptor is not registered) or
    [ValueError] (the file object has no valid descriptor). *)
Theorem failed_unregister_changes_nothing (cs : list call) f e w' :
  unregister f (history cs) = (Raise e, w') ->
  w' = history cs /\ (e = KeyError \/ e = ValueError).
Proof.
  destruct (history_in_step cs) as [Hinv _]. set (w := history cs) in *.
  intros Hu. split.
  { destruct (unregister_cases w f Hinv) as [[e' He]|(k & w2 & He & _)];
      congruence. }
  revert Hu. unfold_py. rewrite (lookup_pair f w).
  destruct (fst (BaseSelectorImpl._fileobj_lookup f w)) as [n|e0] eqn:El.
  - simpl. destruct (_fd_to_key (self w) !! n) as [k|] eqn:Ek.
    + pose proof (key_under_fd _ Hinv _ _ Ek) as Hfd. simpl. rewrite Hfd.
      destruct (key_has_source _ Hinv n) as [src Hsrc]; [eauto|]. rewrite Hsrc.
      destruct (source_has_channel _ Hinv n) as [c Hc]; [eauto|].
      simpl. destruct (decide _); simpl; rewrite ?Hc; simpl; done.
    + simpl. intros [= <- _]. by left.
  - simpl. intros [= <- _]. right.
    revert El. unfold BaseSelectorImpl._fileobj_lookup.
    destruct (_fileobj_to_fd f); [done|].
    destruct (List.find _ _); simpl; congruence.
Qed.

Lemma failed_unregister_changes_nothing_witness :
  let cs := [Call_register (FdInt 5) EVENT_READ (Some 0%nat, None)] in
  unregister (FdInt 6) (history cs) = (Raise KeyError, history cs).
Proof.
  intros cs.
  destruct (failed_unregister_changes_nothing cs (FdInt 6) KeyError
              (snd (unregister (FdInt 6) (history cs)))) as [Hw _].
  - vm_compute. reflexivity.
  - rewrite <- Hw at 2. vm_compute. reflexivity.
Defined.


(** X6.  [modify] with other events, on a registered descriptor given
    directly (an int, or an object whose [fileno()] answers): it
    returns the new key; the key map holds the new key; the old watch
    is out of the main context and a new one, on the same wrapper and
    for the new events, is in it under a new id; the mark is off. *)
Theorem modify_events_replaces_watch (cs : list call) f events data n k :
  BaseSelectorImpl.invalid_events events = false ->
  _fileobj_to_fd f = Ok n ->
  _fd_to_key (self (history cs)) !! n = Some k ->
  events <> key_events k ->
  exists id ch w',
    _sources (self (history cs)) !! n = Some id /\
    _io_channels (self (history cs)) !! n = Some ch /\
    modify f events data (history cs) = (Ok (mkKey f n events data), w') /\
    _fd_to_key (self w') =
      <[n := mkKey f n events data]> (_fd_to_key (self (history cs))) /\
    _sources (self w') =
      <[n := GLib.next_source_id (main (history cs))]>
        (_sources (self (history cs))) /\
    _io_channels (self w') = _io_channels (self (history cs)) /\
    GLib.sources (main w') =
      GLib.sources (GLib.source_remove id (main (history cs))) ++
      [(GLib.next_source_id (main (history cs)),
        watch_for ch (mkKey f n events data))] /\
    _fileobj_preserve (self w') =
      _fileobj_preserve (self (history cs)) ∖ {[py_eq_key f]}.
Proof.
  intros Hev Hf Hk Hne. destruct (history_in_step cs) as [Hinv Hw].
  set (w := history cs) in *.
  destruct (key_has_source _ Hinv n) as [sid Hid]; [eauto|].
  destruct (source_has_channel _ Hinv n) as [ch Hch]; [eauto|].
  exists sid, ch.
  set (w0 := mkWorld (mk (_fd_to_key (self w)) (_sources (self w))
                         (_io_channels (self w))
                         ({[py_eq_key f]} ∪ _fileobj_preserve (self w))
                         (_hups (self w))) (main w) (ran w)).
  assert (Hinv0 : maps_in_step (self w0)) by (by apply (maps_in_step_ext (self w))).
  destruct (unregister_returns w0 f n k Hinv0 (lookup_direct _ _ _ Hf) Hk)
    as [w1 Hu].
  pose proof (unregister_in_step w0 f Hinv0) as Hinv1.
  rewrite Hu in Hinv1. simpl in Hinv1.
  destruct (unregister_world _ _ _ _ Hinv0 Hu) as (Hl0 & _ & sid' & Hid' & Hw1).
  assert (key_fd k = n) as Hfd by (by apply (key_under_fd _ Hinv)).
  simpl in Hid'. rewrite Hfd, Hid in Hid'. injection Hid' as <-.
  rewrite Hfd in Hw1. simpl in Hw1.
  rewrite decide_True in Hw1 by (apply elem_of_union_l, elem_of_singleton; done).
  destruct (register_returns w1 f events data n Hinv1 Hev (lookup_direct _ _ _ Hf))
    as [w2 Hr].
  { rewrite Hw1. simpl. apply lookup_delete_eq. }
  destruct (register_world _ _ _ _ _ _ Hinv1 Hr)
    as (_ & _ & _ & _ & _ & Hk2 & Hs2 & Hp2 & _ & _ & _ & ch2 & Hsrc & _ & Hcase).
  rewrite Hw1 in Hk2, Hs2, Hp2, Hsrc, Hcase. simpl in *.
  rewrite Hch in Hcase. destruct Hcase as (-> & Hc2 & _).
  assert (BaseSelectorImpl.modify id unregister register f events data w0
          = (Ok (mkKey f n events data), w2)) as Hbase.
  { unfold BaseSelectorImpl.modify. unfold bind at 1.
    rewrite (lookup_pair f w0), (lookup_direct _ _ _ Hf).
    unfold bind at 1, get. cbv beta iota.
    change (fd_to_key w0) with (_fd_to_key (self w)). rewrite Hk.
    rewrite (proj2 (Z.eqb_neq _ _) Hne). cbn [negb]. cbv beta iota.
    unfold bind. by rewrite Hu, Hr. }
  eexists. split; [done|]. split; [done|]. split.
  { unfold modify, set_fileobj_preserve, on_self.
    unfold bind at 1. unfold modify_state at 1. cbv beta iota. fold w0.
    unfold bind at 1. rewrite Hbase.
    unfold bind, get, modify_state, ret. cbv beta iota. rewrite Hp2.
    rewrite decide_True by (apply elem_of_union_l, elem_of_singleton; done).
    reflexivity. }
  simpl. rewrite Hk2, Hs2, Hc2, Hsrc, Hp2, !insert_delete_eq.
  repeat split; try done.
  apply set_eq. intros x. rewrite !elem_of_difference, elem_of_union. tauto.
Qed.


Lemma modify_events_replaces_watch_witness :
  let cs := [Call_register (FdInt 5) EVENT_READ (Some 0%nat, None)] in
  exists w',
    modify (FdInt 5) EVENT_WRITE (None, Some 1%nat) (history cs)
      = (Ok (mkKey (FdInt 5) 5 EVENT_WRITE (None, Some 1%nat)), w') /\
    GLib.sources (main w') =
      [(2%nat, watch_for (GLib.mkChannel 0 5 None false false)
                 (mkKey (FdInt 5) 5 EVENT_WRITE (None, Some 1%nat)))].
Proof.
  intros cs.
  destruct (modify_events_replaces_watch cs (FdInt 5) EVENT_WRITE
              (None, Some 1%nat) 5
              (mkKey (FdInt 5) 5 EVENT_READ (Some 0%nat, None)))
    as (id & ch & w' & Hid & Hch & Hm & _ & _ & _ & Hsrc & _).
  - reflexivity.
  - reflexivity.
  - vm_compute. reflexivity.
  - discriminate.
  - exists w'. split; [exact Hm|]. rewrite Hsrc.
    assert (id = 1%nat) as -> by (vm_compute in Hid; congruence).
    assert (ch = GLib.mkChannel 0 5 None false false) as ->
      by (vm_compute in Hch; congruence).
    vm_compute. reflexivity.
Defined.

(** X7.  [modify] with the same events and other data, on a registered
    descriptor: the key map gets the key with the new data, nothing
    else moves; the main context is untouched, so the watch attached
    at registration stays, with the key it was given then. *)
Theorem modify_data_keeps_watch (cs : list call) f events data n k :
  fst (BaseSelectorImpl._fileobj_lookup f (history cs)) = Ok n ->
  _fd_to_key (self (history cs)) !! n = Some k ->
  events = key_events k ->
  data <> key_data_ k ->
  exists w',
    modify f events data (history cs)
      = (Ok (mkKey (key_fileobj k) n events data), w') /\
    _fd_to_key (self w') =
      <[n := mkKey (key_fileobj k) n events data]>
        (_fd_to_key (self (history cs))) /\
    _sources (self w') = _sources (self (history cs)) /\
    _io_channels (self w') = _io_channels (self (history cs)) /\
    main w' = main (history cs) /\
    _fileobj_preserve (self w') =
      _fileobj_preserve (self (history cs)) ∖ {[py_eq_key f]}.
Proof.
  intros Hl Hk -> Hd. destruct (history_in_step cs) as [Hinv _].
  set (w := history cs) in *.
  assert (key_fd k = n) as Hfd by (by apply (key_under_fd _ Hinv)).
  set (w0 := mkWorld (mk (_fd_to_key (self w)) (_sources (self w))
                         (_io_channels (self w))
                         ({[py_eq_key f]} ∪ _fileobj_preserve (self w))
                         (_hups (self w))) (main w) (ran w)).
  eexists. split.
  { unfold modify, set_fileobj_preserve, on_self.
    unfold bind at 1. unfold modify_state at 1. cbv beta iota. fold w0.
    unfold bind at 1. unfold BaseSelectorImpl.modify. unfold bind at 1.
    rewrite (lookup_pair f w0).
    rewrite (lookup_ext f w w0) by done. rewrite Hl.
    unfold bind at 1, get. cbv beta iota.
    change (fd_to_key w0) with (_fd_to_key (self w)). rewrite Hk.
    rewrite Z.eqb_refl. cbn [negb]. cbv beta iota.
    rewrite bool_decide_eq_false_2 by done. cbn [negb]. cbv beta iota.
    unfold bind, get, modify_state, ret. cbv beta iota. simpl.
    rewrite decide_True by (apply elem_of_union_l, elem_of_singleton; done).
    rewrite Hfd. reflexivity. }
  simpl. repeat split; try done.
  apply set_eq. intros x. rewrite !elem_of_difference, elem_of_union. tauto.
Qed.

Lemma modify_data_keeps_watch_witness :
  let cs := [Call_register (FdInt 5) EVENT_READ (Some 0%nat, None)] in
  exists w',
    modify (FdInt 5) EVENT_READ (Some 7%nat, None) (history cs)
      = (Ok (mkKey (FdInt 5) 5 EVENT_READ (Some 7%nat, None)), w') /\
    GLib.sources (main w') =
      [(1%nat, watch_for (GLib.mkChannel 0 5 None false false)
                 (mkKey (FdInt 5) 5 EVENT_READ (Some 0%nat, None)))].
Proof.
  intros cs.
  destruct (modify_data_keeps_watch cs (FdInt 5) EVENT_READ (Some 7%nat, None) 5
              (mkKey (FdInt 5) 5 EVENT_READ (Some 0%nat, None)))
    as (w' & Hm & _ & _ & _ & Hmain & _).
  - reflexivity.
  - vm_compute. reflexivity.
  - reflexivity.
  - discriminate.
  - exists w'. split; [exact Hm|]. rewrite Hmain. vm_compute. reflexivity.
Defined.

(** X8.  A [modify] that raises does not take the mark off: the file
    object stays in [_fileobj_preserve] (the channel map being as it
    was before the call), so a later [unregister] of it keeps the
    wrapper. *)
Theorem failed_modify_leaves_mark (cs : list call) f events data e w' :
  modify f events data (history cs) = (Raise e, w') ->
  py_eq_key f ∈ _fileobj_preserve (self w') /\
  _io_channels (self w') = _io_channels (self (history cs)).
Proof.
  intros H. destruct (history_in_step cs) as [Hinv _].
  set (w := history cs) in *.
  destruct (modify_frame _ _ _ _ _ _ Hinv H) as (Hc & _).
  split; [|done].
  unfold modify, set_fileobj_preserve, on_self in H.
  unfold bind at 1 in H. unfold modify_state at 1 in H. cbv beta iota in H.
  set (w0 := mkWorld _ (main w) (ran w)) in H.
  assert (Hinv0 : maps_in_step (self w0)) by (by apply (maps_in_step_ext (self w))).
  assert (Hp0 : py_eq_key f ∈ _fileobj_preserve (self w0))
    by (apply elem_of_union_l, elem_of_singleton; done).
  unfold bind at 1 in H.
  destruct (BaseSelectorImpl.modify id unregister register f events data w0)
    as [[r|e'] w2] eqn:Em;
    destruct (base_modify_frame w0 f events data _ _ Hinv0 Hp0 Em)
      as (_ & _ & Hp & _).
  - unfold bind, get, modify_state, ret, raise in H. simpl in H.
    rewrite Hp in H. rewrite decide_True in H by done. simplify_eq.
  - simplify_eq. by rewrite Hp.
Qed.

Lemma failed_modify_leaves_mark_witness :
  let cs := [Call_register (FdInt 5) EVENT_READ (Some 0%nat, None)] in
  let w' := snd (modify (FdInt 5) 0 (None, None) (history cs)) in
  fst (modify (FdInt 5) 0 (None, None) (history cs)) = Raise ValueError /\
  _fd_to_key (self w') !! 5 = None /\
  py_eq_key (FdInt 5) ∈ _fileobj_preserve (self w') /\
  is_Some (_io_channels (self w') !! 5).
Proof.
  intros cs w'.
  destruct (failed_modify_leaves_mark cs (FdInt 5) 0 (None, None) ValueError w')
    as [Hp Hc].
  - vm_compute. reflexivity.
  - split; [reflexivity|]. split; [reflexivity|]. split; [exact Hp|].
    rewrite Hc. vm_compute. eauto.
Defined.


(** *** The watch callback *)

Lemma truthy_land_pow2 (c k : Z) :
  0 <= k -> truthy (Z.land c (2 ^ k)) = Z.testbit c k.
Proof.
  intros Hk. unfold truthy.
  destruct (Z.testbit c k) eqn:Eb.
  - apply negb_true_iff, Z.eqb_neq. intros H0.
    assert (Z.testbit (Z.land c (2 ^ k)) k = true) as Hb
      by (by rewrite Z.land_spec, Eb, Z.pow2_bits_true).
    rewrite H0, Z.bits_0 in Hb. done.
  - apply negb_false_iff, Z.eqb_eq. apply Z.bits_inj'. intros i Hi.
    rewrite Z.land_spec, Z.bits_0. destruct (Z.eq_dec i k) as [->|Hne].
    + by rewrite Eb.
    + rewrite Z.pow2_bits_false by lia. by rewrite andb_false_r.
Qed.

(** A condition that is within what the watch of [events] asked for
    has IN only if [events] has read, and OUT only if it has write. *)
Lemma fired_within_asked (events cond : Z) :
  Z.land cond (Z.lnot (Z.lor (_events_to_io_condition events) GLib.IO_HUP)) = 0 ->
  (truthy (Z.land cond GLib.IO_IN) = true ->
     truthy (Z.land events EVENT_READ) = true) /\
  (truthy (Z.land cond GLib.IO_OUT) = true ->
     truthy (Z.land events EVENT_WRITE) = true).
Proof.
  intros Hsub.
  assert (forall i, 0 <= i -> Z.testbit cond i = true ->
            Z.testbit (Z.lor (_events_to_io_condition events) GLib.IO_HUP) i = true)
    as Hbits.
  { intros i Hi Hc.
    assert (Z.testbit (Z.land cond (Z.lnot (Z.lor (_events_to_io_condition events)
                                              GLib.IO_HUP))) i = false) as Hz
      by (by rewrite Hsub, Z.bits_0).
    rewrite Z.land_spec, Z.lnot_spec, Hc in Hz by done.
    by apply negb_false_iff in Hz. }
  unfold GLib.IO_IN, GLib.IO_OUT.
  change 1 with (2 ^ 0). change 4 with (2 ^ 2).
  rewrite !truthy_land_pow2 by lia.
  unfold _events_to_io_condition, GLib.IO_HUP, GLib.IO_IN, GLib.IO_OUT in Hbits.
  split; intros Hc.
  - apply Hbits in Hc; [|lia].
    destruct (truthy (Z.land events EVENT_READ)); [done|].
    destruct (truthy (Z.land events EVENT_WRITE)); done.
  - apply Hbits in Hc; [|lia].
    destruct (truthy (Z.land events EVENT_WRITE)); [done|].
    destruct (truthy (Z.land events EVENT_READ)); done.
Qed.

(** X9.  The watch callback, for a key that has a reader when it asks
    for read and a writer when it asks for write, fired with a
    condition within what its watch asked for: it returns [True] (the
    watch stays); it has run the reader if IN fired, then the writer if
    OUT fired, and nothing else; the key is in the hangup set if HUP
    fired; the maps and the main context are untouched. *)
Theorem channel_watch_cb_runs_what_fired
    (w : world) ch cond key :
  Z.land cond (Z.lnot (Z.lor (_events_to_io_condition (key_events key))
                             GLib.IO_HUP)) = 0 ->
  (truthy (Z.land (key_events key) EVENT_READ) = true ->
     is_Some (fst (key_data_ key))) ->
  (truthy (Z.land (key_events key) EVENT_WRITE) = true ->
     is_Some (snd (key_data_ key))) ->
  exists w',
    _channel_watch_cb ch cond key w = (Ok true, w') /\
    ran w' = ran w ++
      (if truthy (Z.land cond GLib.IO_IN)
       then option_list (fst (key_data_ key)) else []) ++
      (if truthy (Z.land cond GLib.IO_OUT)
       then option_list (snd (key_data_ key)) else []) /\
    _hups (self w') =
      (if truthy (Z.land cond GLib.IO_HUP)
       then {[key]} ∪ _hups (self w) else _hups (self w)) /\
    _fd_to_key (self w') = _fd_to_key (self w) /\
    _sources (self w') = _sources (self w) /\
    _io_channels (self w') = _io_channels (self w) /\
    main w' = main w.
Proof.
  intros Hsub Hr Hw.
  destruct (fired_within_asked _ _ Hsub) as [Hin Hout].
  unfold _channel_watch_cb. destruct (key_data_ key) as [hi ho]. simpl in *.
  destruct (truthy (Z.land cond GLib.IO_IN)) eqn:Ei;
    destruct (truthy (Z.land cond GLib.IO_OUT)) eqn:Eo;
    destruct (truthy (Z.land cond GLib.IO_HUP)) eqn:Eh;
    try (destruct (Hr (Hin eq_refl)) as [r ->]);
    try (destruct (Hw (Hout eq_refl)) as [x ->]);
    eexists; (split; [reflexivity|]); simpl;
    rewrite ?app_nil_r, <- ?app_assoc; repeat split; done.
Qed.

Lemma channel_watch_cb_runs_what_fired_witness :
  let key := mkKey (FdInt 5) 5 (Z.lor EVENT_READ EVENT_WRITE)
                   (Some 3%nat, Some 4%nat) in
  exists w',
    _channel_watch_cb (GLib.mkChannel 0 5 None false false)
      (Z.lor GLib.IO_IN (Z.lor GLib.IO_OUT GLib.IO_HUP)) key init_world
      = (Ok true, w') /\
    ran w' = [3%nat; 4%nat] /\ _hups (self w') = {[key]} ∪ ∅.
Proof.
  intros key.
  destruct (channel_watch_cb_runs_what_fired init_world
              (GLib.mkChannel 0 5 None false false)
              (Z.lor GLib.IO_IN (Z.lor GLib.IO_OUT GLib.IO_HUP)) key)
    as (w' & Hcb & Hran & Hh & _).
  - reflexivity.
  - simpl. eauto.
  - simpl. eauto.
  - exists w'. split; [exact Hcb|]. split; [exact Hran|exact Hh].
Defined.

End GAsyncIOSelectorMore.

(* ------------------------------------------------------------------ *)
(** ** GAsyncIOEventLoop: slave mode, timers, the drain *)

Module GAsyncIOEventLoopMore.
Import GAsyncIOEventLoop GAsyncIOEventLoopSpec HostLoop.
Import Watches.

(** X10.  [start_slave_loop] on an open loop that is not a slave, with
    no loop running, then [stop_slave_loop]: both return; in between
    the loop is asyncio's running loop and owns the asyncgen hooks;
    afterwards no loop is running, the hooks are the ones from before,
    origin tracking is off, and the main context, the ready queue and
    the pending drain are as they were. *)
Theorem start_then_stop_slave_loop (w : world) :
  _closed (self w) = false ->
  _is_slave (self w) = false ->
  running_loop w = None ->
  exists w1 w2,
    start_slave_loop w = (Ok tt, w1) /\
    running_loop w1 = Some (loop_id w) /\
    asyncgen_hooks w1 = Some (loop_id w) /\
    _coroutine_origin_tracking (self w1) = _debug (self w) /\
    stop_slave_loop w1 = (Ok tt, w2) /\
    _is_slave (self w2) = false /\
    running_loop w2 = None /\
    asyncgen_hooks w2 = asyncgen_hooks w /\
    _coroutine_origin_tracking (self w2) = false /\
    main w2 = main w /\
    _ready (self w2) = _ready (self w) /\
    _giteration (self w2) = _giteration (self w) /\
    timers w2 = timers w.
Proof.
  intros Hc Hs Hr. unfold_loop. rewrite Hc, Hs. simpl. rewrite Hr. simpl.
  do 2 eexists. repeat split.
Qed.

Lemma start_then_stop_slave_loop_witness :
  exists w1 w2,
    start_slave_loop (init_world GAsyncIOSelector_class) = (Ok tt, w1) /\
    stop_slave_loop w1 = (Ok tt, w2) /\
    running_loop w2 = None /\ asyncgen_hooks w2 = None.
Proof.
  destruct (start_then_stop_slave_loop (init_world GAsyncIOSelector_class))
    as (w1 & w2 & H1 & _ & _ & _ & H2 & _ & H3 & H4 & _); try reflexivity.
  exists w1, w2. auto.
Defined.

(** X11.  [start_slave_loop] on a closed loop, on a loop that is
    already a slave, or while another loop is running, and
    [stop_slave_loop] on a loop that is not a slave: [RuntimeError],
    and nothing has changed. *)
Theorem slave_mode_refused (w : world) :
  (_closed (self w) = true \/ _is_slave (self w) = true \/
   is_Some (running_loop w) ->
   start_slave_loop w = (Raise RuntimeError, w)) /\
  (_is_slave (self w) = false ->
   stop_slave_loop w = (Raise RuntimeError, w)).
Proof.
  split.
  - unfold_loop. intros [Hc|[Hs|Hr]].
    + by rewrite Hc.
    + destruct (_closed (self w)); [done|]. simpl. by rewrite Hs.
    + destruct (_closed (self w)); [done|]. simpl.
      destruct (_is_slave (self w)); [done|]. simpl.
      by rewrite decide_True.
  - unfold_loop. by intros ->.
Qed.

Lemma slave_mode_refused_witness :
  let w := snd (start_slave_loop (init_world GAsyncIOSelector_class)) in
  start_slave_loop w = (Raise RuntimeError, w) /\
  stop_slave_loop (init_world GAsyncIOSelector_class)
    = (Raise RuntimeError, init_world GAsyncIOSelector_class).
Proof.
  intros w. split.
  - apply (proj1 (slave_mode_refused w)). right. left. reflexivity.
  - apply (proj2 (slave_mode_refused (init_world GAsyncIOSelector_class))).
    reflexivity.
Defined.


(** *** Timers *)

Lemma alter_last (l : list TimerHandle) t f :
  alter f (length l) (l ++ [t]) = l ++ [f t].
Proof. induction l as [|x l IH]; simpl; [done|]. by f_equal. Qed.

Lemma lookup_last (l : list TimerHandle) t :
  (l ++ [t]) !! length l = Some t.
Proof. induction l as [|x l IH]; simpl; [done|]. done. Qed.

(** X12.  A timer cancelled before it fires: [_timer_handle_cancelled]
    on the handle [call_at] returned removes the timeout source that
    [call_at] attached, so the sources of the main context are again
    those from before [call_at], and the handle's [_scheduled] is
    [False].  Source ids are positive, as GLib's are, so the id in
    [_scheduled] counts as true. *)
Theorem call_at_then_cancel (w w1 : world) when callback timer :
  (0 < GLib.next_source_id (main w))%nat ->
  ids_below (main w) ->
  call_at when callback w = (Ok timer, w1) ->
  exists w2,
    _timer_handle_cancelled timer w1 = (Ok tt, w2) /\
    GLib.sources (main w2) = GLib.sources (main w) /\
    timers w2 = timers w ++ [mkTimer when callback None] /\
    ran w2 = ran w.
Proof.
  intros _ Hids Hc. destruct (call_at_sources _ _ _ _ _ Hc) as (-> & Hs & Ht).
  assert (ran w1 = ran w) as Hran.
  { revert Hc. unfold_loop.
    destruct (_closed (self w)); [done|]. simpl.
    destruct (_debug (self w)); [destruct callback|]; simpl; try done;
      by intros [= <-]. }
  unfold _timer_handle_cancelled, bind, get. cbv beta iota.
  rewrite Ht, lookup_last. cbn [_scheduled].
  unfold glib_exec, glib_call, set_timers, modify_state. cbv beta iota.
  eexists. split; [reflexivity|]. simpl. rewrite Ht, alter_last, Hs. simpl.
  split; [|done]. by apply GAsyncIOSelectorMore.source_remove_last.
Qed.

Lemma call_at_then_cancel_witness :
  exists w2,
    _timer_handle_cancelled 0
      (snd (call_at 7%Q (Function 0) late_world)) = (Ok tt, w2) /\
    GLib.sources (main w2) = [].
Proof.
  destruct (call_at_then_cancel late_world
              (snd (call_at 7%Q (Function 0) late_world)) 7%Q (Function 0) 0%nat)
    as (w2 & Hc & Hs & _).
  - simpl. lia.
  - constructor.
  - reflexivity.
  - exists w2. split; [exact Hc|exact Hs].
Defined.

(** X13.  A timer that fires: the main context dispatching the source
    [call_at] attached runs the callback once (the run is recorded in
    [ran]; what the callback does itself is not followed), the source
    is gone (the callback returned [False]) and the handle's
    [_scheduled] is [False]; cancelling the handle after that touches
    neither the main context nor the handle. *)
Theorem timer_fires_once_then_cancel_is_noop
    (w w1 : world) when callback timer :
  (0 < GLib.next_source_id (main w))%nat ->
  ids_below (main w) ->
  call_at when callback w = (Ok timer, w1) ->
  exists w2,
    dispatch_timeout timer (GLib.next_source_id (main w)) w1 = (Ok tt, w2) /\
    ran w2 = ran w ++ [callback] /\
    GLib.sources (main w2) = GLib.sources (main w) /\
    timers w2 = timers w ++ [mkTimer when callback None] /\
    exists w3,
      _timer_handle_cancelled timer w2 = (Ok tt, w3) /\
      main w3 = main w2 /\ timers w3 = timers w2 /\ ran w3 = ran w2.
Proof.
  intros _ Hids Hc. destruct (call_at_sources _ _ _ _ _ Hc) as (-> & Hs & Ht).
  assert (ran w1 = ran w) as Hran.
  { revert Hc. unfold_loop.
    destruct (_closed (self w)); [done|]. simpl.
    destruct (_debug (self w)); [destruct callback|]; simpl; try done;
      by intros [= <-]. }
  unfold dispatch_timeout, _timeout_cb. unfold bind at 1. unfold bind at 1.
  unfold get. cbv beta iota. rewrite Ht, lookup_last.
  unfold bind, run_callable, set_timers, glib_exec, glib_call, modify_state, ret.
  cbv beta iota. eexists. split; [reflexivity|]. simpl.
  rewrite Ht, alter_last, Hs, Hran. simpl.
  split; [done|]. split; [by apply GAsyncIOSelectorMore.source_remove_last|].
  split; [done|].
  unfold _timer_handle_cancelled, bind, get. cbv beta iota. cbn [timers].
  rewrite lookup_last. cbn [_scheduled].
  unfold ret, set_timers, modify_state. cbv beta iota.
  eexists. split; [reflexivity|]. simpl. by rewrite alter_last.
Qed.

Lemma timer_fires_once_then_cancel_is_noop_witness :
  exists w2,
    dispatch_timeout 0 1 (snd (call_at 3%Q (Function 8) late_world)) = (Ok tt, w2) /\
    ran w2 = [Function 8] /\ GLib.sources (main w2) = [].
Proof.
  destruct (timer_fires_once_then_cancel_is_noop late_world
              (snd (call_at 3%Q (Function 8) late_world)) 3%Q (Function 8) 0%nat)
    as (w2 & Hd & Hr & Hs & _).
  - simpl. lia.
  - constructor.
  - reflexivity.
  - exists w2. split; [exact Hd|]. split; [exact Hr|exact Hs].
Defined.

(** X14.  [call_at] makes its checks before anything else: on a closed
    loop it raises [RuntimeError]; on an open loop in debug mode, for a
    callback that is a coroutine or not callable, it raises
    [TypeError]; and in both cases nothing has changed: no timer
    handle was made and no source attached. *)
Theorem refused_call_at_changes_nothing (w : world) when callback :
  (_closed (self w) = true ->
   call_at when callback w = (Raise RuntimeError, w)) /\
  (_closed (self w) = false -> _debug (self w) = true ->
   (forall id, callback <> Function id) ->
   call_at when callback w = (Raise TypeError, w)).
Proof.
  split.
  - intros Hc. unfold_loop. by rewrite Hc.
  - intros Hc Hd Hcb. unfold_loop. rewrite Hc. simpl. rewrite Hd.
    destruct callback as [id| |]; simpl; try done. by destruct (Hcb id).
Qed.

Lemma refused_call_at_changes_nothing_witness :
  let w := mkWorld (mk false None GAsyncIOSelector_class false true [] None false)
                   0 GLib.empty 0%Q None None [] [] in
  let w' := mkWorld (mk false None GAsyncIOSelector_class true true [] None false)
                    0 GLib.empty 0%Q None None [] [] in
  call_at 1%Q (Coroutine 0) w = (Raise TypeError, w) /\
  call_at 1%Q (Function 0) w' = (Raise RuntimeError, w').
Proof.
  intros w w'. split.
  - apply (proj2 (refused_call_at_changes_nothing w 1%Q (Coroutine 0)));
      [reflexivity|reflexivity|discriminate].
  - apply (proj1 (refused_call_at_changes_nothing w' 1%Q (Function 0))).
    reflexivity.
Defined.


(** *** The drain *)

Lemma drain_sources_source_remove id g :
  drain_sources (GLib.source_remove id g) =
  List.filter (fun i => negb (i =? id)%nat) (drain_sources g).
Proof.
  unfold drain_sources, GLib.source_remove. simpl.
  induction (GLib.sources g) as [|p l IH]; simpl; [done|].
  destruct (negb (fst p =? id)%nat) eqn:E1; destruct (is_drain p) eqn:E2;
    simpl; rewrite ?E1, ?E2; simpl; by rewrite IH.
Qed.

Lemma drain_source_attached id g :
  id ∈ drain_sources g -> exists src, (id, src) ∈ GLib.sources g.
Proof.
  unfold drain_sources. intros Hin.
  apply list_elem_of_In, List.in_map_iff in Hin as ([i src] & <- & Hin).
  apply List.filter_In in Hin as [Hin _]. exists src. by apply list_elem_of_In.
Qed.

(** X15.  [_call_soon] and [_add_callback] leave a drain pending: on a
    loop whose [_giteration] agrees with the main context there is
    afterwards exactly one drain source, the one [_giteration] names.
    [_call_soon] queues the handle last and returns it;
    [_add_callback] returns [None] and queues the handle unless it is
    cancelled, and asks for the drain also when it queued nothing. *)
Theorem queued_callback_has_a_drain
    (w : world) (h : handle) (cancelled : bool) :
  agrees w ->
  exists w1 w2 id,
    _call_soon h w = (Ok h, w1) /\
    _ready (self w1) = _ready (self w) ++ [h] /\
    _giteration (self w1) = Some id /\
    drain_sources (main w1) = [id] /\
    HostLoop._add_callback cancelled h w = (Ok None, w2) /\
    _ready (self w2) =
      (if cancelled then _ready (self w) else _ready (self w) ++ [h]) /\
    _giteration (self w2) = Some id /\
    main w2 = main w1.
Proof.
  unfold agrees, consistent. intros Ha.
  unfold _call_soon, HostLoop._add_callback, _schedule_giteration, set_ready,
    set_giteration, on_self, glib_call, bind, get, ret, modify_state.
  cbv beta iota. cbn [self _giteration main].
  destruct (_giteration (self w)) as [id|] eqn:Eg.
  - destruct cancelled; cbv beta iota; cbn [self _giteration main];
      rewrite ?Eg; eexists _, _, id;
      (split; [reflexivity|]); cbn [self _ready _giteration main fst snd];
      do 3 (split; [done|]); (split; [reflexivity|]);
      cbn [self _ready _giteration main fst snd]; by rewrite ?Eg.
  - destruct cancelled; cbv beta iota; cbn [self _giteration main];
      rewrite ?Eg; eexists _, _, _;
      (split; [reflexivity|]); cbn [self _ready _giteration main fst snd];
      (split; [done|]); (split; [reflexivity|]);
      (split; [by rewrite drain_sources_attach_drain, Ha|]);
      (split; [reflexivity|]); cbn [self _ready _giteration main fst snd];
      done.
Qed.

Lemma queued_callback_has_a_drain_witness :
  exists w',
    _call_soon 4%nat (init_world GAsyncIOSelector_class) = (Ok 4%nat, w') /\
    _ready (self w') = [4%nat] /\ drain_sources (main w') = [1%nat].
Proof.
  destruct (queued_callback_has_a_drain (init_world GAsyncIOSelector_class)
              4%nat false)
    as (w' & w2 & id & Hc & Hr & Hg & Hd & _).
  - reflexivity.
  - exists w'. split; [exact Hc|]. split; [exact Hr|].
    rewrite Hd. f_equal.
    assert (_giteration (self (snd (_call_soon 4%nat
              (init_world GAsyncIOSelector_class)))) = Some 1%nat) as H1
      by reflexivity.
    rewrite Hc in H1. simpl in H1. congruence.
Defined.

Section RunOnce.
Variable _run_once : M world unit.

(** X16.  One firing of the drain source, from a pass of [_run_once]
    that left the pending drain as it found it: afterwards
    [_giteration] and the main context still agree, so there is never
    a second drain source; the drain stays (same source) if the ready
    queue is not empty, is replaced by a new one if the queue is empty
    and the selector asks for periodic drains, and is gone
    otherwise. *)
Theorem drain_cycle_keeps_agreement (w w1 : world) (id : nat) :
  _run_once w = (Ok tt, w1) ->
  _giteration (self w1) = Some id ->
  agrees w1 ->
  ids_below (main w1) ->
  exists w',
    dispatch_giterate _run_once id w = (Ok tt, w') /\
    agrees w' /\
    _ready (self w') = _ready (self w1) /\
    _giteration (self w') =
      if bool_decide (_ready (self w1) = []) then
        if getattr (attr__schedule_periodic_giterate (_selector (self w1))) false
        then Some (GLib.next_source_id (main w1))
        else None
      else Some id.
Proof.
  intros Hrun Hg Ha Hids. unfold agrees, consistent in Ha. rewrite Hg in Ha.
  assert (id < GLib.next_source_id (main w1))%nat as Hlt.
  { destruct (drain_source_attached id (main w1)) as [src Hsrc].
    - rewrite Ha. by apply list_elem_of_singleton.
    - by apply (proj1 (Forall_forall _ _) Hids) in Hsrc. }
  unfold dispatch_giterate, _giterate.
  unfold bind at 1. unfold bind at 1. rewrite Hrun.
  unfold bind at 1, get. cbv beta iota.
  destruct (bool_decide (_ready (self w1) = [])) eqn:Er; cbn [negb].
  - destruct (getattr _ false) eqn:Ep;
      unfold bind, glib_call, glib_exec, set_giteration, on_self, modify_state, ret;
      cbv beta iota; eexists; (split; [reflexivity|]);
      cbn [self main _giteration _ready fst snd]; unfold agrees, consistent;
      cbn [self main _giteration _ready fst snd];
      rewrite drain_sources_source_remove.
    + rewrite drain_sources_attach_drain, Ha. simpl.
      rewrite Nat.eqb_refl, (proj2 (Nat.eqb_neq _ _)) by lia. done.
    + rewrite Ha. simpl. by rewrite Nat.eqb_refl.
  - unfold ret. cbv beta iota. exists w1. unfold agrees, consistent.
    by rewrite Hg, Ha.
Qed.
End RunOnce.

Lemma drain_cycle_keeps_agreement_witness :
  let w := snd (_call_soon 4%nat (init_world NoWaitSelectSelector_class)) in
  exists w',
    dispatch_giterate (set_ready []) 1 w = (Ok tt, w') /\
    _giteration (self w') = Some 2%nat /\
    drain_sources (main w') = [2%nat].
Proof.
  intros w.
  destruct (drain_cycle_keeps_agreement (set_ready []) w
              (snd (set_ready [] w)) 1) as (w' & Hd & Ha & _ & Hg).
  - reflexivity.
  - reflexivity.
  - reflexivity.
  - repeat constructor.
  - exists w'. split; [exact Hd|]. split; [exact Hg|].
    unfold agrees, consistent in Ha. rewrite Hg in Ha. exact Ha.
Defined.


(** *** Closing *)

Lemma no_drain_after_remove (w : world) :
  agrees w ->
  match _giteration (self w) with
  | Some id => drain_sources (GLib.source_remove id (main w)) = []
  | None => drain_sources (main w) = []
  end.
Proof.
  unfold agrees, consistent. destruct (_giteration (self w)) as [id|]; [|done].
  intros Ha. rewrite drain_sources_source_remove, Ha. simpl.
  by rewrite Nat.eqb_refl.
Qed.

Lemma stop_slave_loop_returns (w : world) hooks :
  _is_slave (self w) = true ->
  _old_agen_hooks (self w) = Some hooks ->
  exists w', stop_slave_loop w = (Ok tt, w') /\
    _is_slave (self w') = false /\
    _closed (self w') = _closed (self w) /\
    _giteration (self w') = _giteration (self w) /\
    _ready (self w') = _ready (self w) /\
    main w' = main w /\
    running_loop w' = None /\
    asyncgen_hooks w' = hooks.
Proof.
  intros Hs Hh. unfold_loop. rewrite Hs, Hh. simpl.
  eexists. split; [reflexivity|]. repeat split.
Qed.

Section SelectorClose.
Variable _close_self_pipe : M world unit.
Variable selector_close : M world unit.

(** [close] first drops the pending drain, then goes on with asyncio's
    [close]. *)
Lemma close_drops_the_drain (w : world) :
  agrees w ->
  exists w1,
    close _close_self_pipe selector_close w =
      BaseSelectorEventLoop_close _close_self_pipe selector_close w1 /\
    _giteration (self w1) = None /\
    drain_sources (main w1) = [] /\
    _is_slave (self w1) = _is_slave (self w) /\
    _closed (self w1) = _closed (self w) /\
    _ready (self w1) = _ready (self w) /\
    running_loop w1 = running_loop w /\
    asyncgen_hooks w1 = asyncgen_hooks w.
Proof.
  intros Ha. pose proof (no_drain_after_remove w Ha) as Hnd.
  unfold close, set_giteration, on_self, glib_exec, glib_call, bind, get, ret,
    modify_state.
  cbv beta iota.
  destruct (_giteration (self w)) as [id|] eqn:Eg;
    cbn [fst snd]; eexists; (split; [reflexivity|]);
    cbn [self main _giteration _is_slave _closed _ready running_loop
         asyncgen_hooks]; rewrite ?Eg; done.
Qed.

Lemma BaseEventLoop_close_open (w : world) :
  _is_slave (self w) = false -> _closed (self w) = false ->
  BaseEventLoop_close w =
    (Ok tt,
     mkWorld (mk (_is_slave (self w)) (_giteration (self w))
                 (_selector (self w)) true (_debug (self w)) []
                 (_old_agen_hooks (self w))
                 (_coroutine_origin_tracking (self w)))
             (loop_id w) (main w) (clock w) (running_loop w)
             (asyncgen_hooks w) (timers w) (ran w)).
Proof.
  intros Hs Hc. destruct w as [ [] ]. simpl in Hs, Hc. subst. reflexivity.
Qed.

Lemma BaseSelectorEventLoop_close_slave (w : world) :
  _is_slave (self w) = true ->
  BaseSelectorEventLoop_close _close_self_pipe selector_close w
    = (Raise RuntimeError, w).
Proof.
  intros Hs. unfold BaseSelectorEventLoop_close, is_running, bind, get, ret.
  cbv beta iota. by rewrite Hs.
Qed.

Lemma BaseSelectorEventLoop_close_closed (w : world) :
  _is_slave (self w) = false -> _closed (self w) = true ->
  BaseSelectorEventLoop_close _close_self_pipe selector_close w = (Ok tt, w).
Proof.
  intros Hs Hc. unfold BaseSelectorEventLoop_close, is_running, bind, get, ret.
  cbv beta iota. by rewrite Hs, Hc.
Qed.

Lemma close_of_closed (w : world) :
  _is_slave (self w) = false -> _giteration (self w) = None ->
  _closed (self w) = true ->
  close _close_self_pipe selector_close w = (Ok tt, w).
Proof.
  intros Hs Hg Hc.
  unfold close, bind at 1, get. cbv beta iota. rewrite Hg.
  unfold bind, ret. cbv beta iota.
  by apply BaseSelectorEventLoop_close_closed.
Qed.

(** X18.  [close] on a loop that is a slave raises [RuntimeError]
    (asyncio refuses to close a running loop, and [is_running] answers
    [_is_slave]), but only after the pending drain has been removed:
    [_giteration] is [None] and no drain source is left, while the
    loop is still open, still a slave, and its ready queue is as it
    was. *)
Theorem close_of_a_slave_drops_the_drain (w : world) :
  _is_slave (self w) = true ->
  agrees w ->
  exists w',
    close _close_self_pipe selector_close w = (Raise RuntimeError, w') /\
    _giteration (self w') = None /\
    drain_sources (main w') = [] /\
    _closed (self w') = _closed (self w) /\
    _is_slave (self w') = true /\
    _ready (self w') = _ready (self w).
Proof.
  intros Hs Ha.
  destruct (close_drops_the_drain w Ha)
    as (w1 & Hc & Hg & Hd & Hs1 & Hc1 & Hr1 & _).
  exists w1. rewrite Hc, BaseSelectorEventLoop_close_slave by congruence.
  rewrite Hs1. done.
Qed.

Section SelectorCloses.
Hypothesis _close_self_pipe_keeps : keeps_loop _close_self_pipe.
Hypothesis selector_close_keeps : keeps_loop selector_close.

Lemma BaseSelectorEventLoop_close_returns (w : world) :
  _is_slave (self w) = false ->
  exists w',
    BaseSelectorEventLoop_close _close_self_pipe selector_close w = (Ok tt, w') /\
    _is_slave (self w') = false /\
    _closed (self w') = true /\
    _giteration (self w') = _giteration (self w) /\
    drain_sources (main w') = drain_sources (main w) /\
    (_closed (self w) = false -> _ready (self w') = []) /\
    running_loop w' = running_loop w /\
    asyncgen_hooks w' = asyncgen_hooks w.
Proof.
  intros Hs. destruct (_closed (self w)) eqn:Hc.
  { exists w. rewrite BaseSelectorEventLoop_close_closed by done.
    repeat split; done. }
  destruct (_close_self_pipe_keeps w)
    as (w1 & E1 & Hs1 & Hc1 & Hg1 & Hq1 & Hd1 & Hr1 & Hh1).
  rewrite Hs in Hs1. rewrite Hc in Hc1.
  pose proof (BaseEventLoop_close_open w1 Hs1 Hc1) as E2.
  match type of E2 with _ = (_, ?w2') => set (w2 := w2') in * end.
  destruct (selector_close_keeps w2)
    as (w3 & E3 & Hs3 & Hc3 & Hg3 & Hq3 & Hd3 & Hr3 & Hh3).
  exists w3. split.
  - unfold BaseSelectorEventLoop_close, is_running. unfold bind at 1.
    unfold bind at 1, get, ret. cbv beta iota. rewrite Hs.
    unfold bind at 1. cbv beta iota. rewrite Hc.
    unfold bind at 1. rewrite E1. unfold bind at 1. rewrite E2.
    exact E3.
  - rewrite Hs3, Hc3, Hg3, Hq3, Hd3, Hr3, Hh3. unfold w2.
    cbn [self main _is_slave _closed _giteration _ready running_loop
         asyncgen_hooks].
    rewrite Hs1, Hg1, Hd1, Hr1, Hh1. repeat split; done.
Qed.

Lemma close_not_slave (w : world) :
  _is_slave (self w) = false ->
  agrees w ->
  exists w', close _close_self_pipe selector_close w = (Ok tt, w') /\
    _is_slave (self w') = false /\
    _closed (self w') = true /\
    _giteration (self w') = None /\
    drain_sources (main w') = [] /\
    (_closed (self w) = false -> _ready (self w') = []) /\
    running_loop w' = running_loop w /\
    asyncgen_hooks w' = asyncgen_hooks w.
Proof.
  intros Hs Ha.
  destruct (close_drops_the_drain w Ha)
    as (w1 & Hc & Hg & Hd & Hs1 & Hc1 & _ & Hr1 & Hh1).
  destruct (BaseSelectorEventLoop_close_returns w1)
    as (w' & Hc' & Hs' & Hcl' & Hg' & Hd' & Hq' & Hr' & Hh'); [congruence|].
  exists w'. rewrite Hc, Hg', Hd', Hr', Hh'.
  repeat split; try done. intros Hopen. apply Hq'. congruence.
Qed.

(** X17.  [close] on a loop that is not a slave, where the selector's
    part in closing returns and keeps to the selector: [close]
    returns; the loop is closed, no drain is pending ([_giteration] is
    [None] and the main context holds no drain source), the ready
    queue of a loop that was open is empty, and a second [close]
    changes nothing. *)
Theorem close_removes_the_drain (w : world) :
  _is_slave (self w) = false ->
  agrees w ->
  exists w',
    close _close_self_pipe selector_close w = (Ok tt, w') /\
    _closed (self w') = true /\
    _giteration (self w') = None /\
    drain_sources (main w') = [] /\
    (_closed (self w) = false -> _ready (self w') = []) /\
    close _close_self_pipe selector_close w' = (Ok tt, w').
Proof.
  intros Hs Ha.
  destruct (close_not_slave w Hs Ha) as (w' & Hc & Hs' & Hc' & Hg' & Hd' & Hr' & _).
  exists w'. repeat split; try done. by apply close_of_closed.
Qed.

(** X19.  The module's [stop_slave_loop()] on a slave loop, where the
    selector's part in closing returns and keeps to the selector: the
    loop is stopped and then closed, both without error; afterwards it
    is no slave, it is closed, no loop is running, the asyncgen hooks
    are those saved by [start_slave_loop], and no drain is pending. *)
Theorem module_stop_slave_loop_closes (w : world) hooks :
  _is_slave (self w) = true ->
  _old_agen_hooks (self w) = Some hooks ->
  agrees w ->
  exists w',
    module_stop_slave_loop _close_self_pipe selector_close w = (Ok tt, w') /\
    _is_slave (self w') = false /\
    _closed (self w') = true /\
    running_loop w' = None /\
    asyncgen_hooks w' = hooks /\
    _giteration (self w') = None /\
    drain_sources (main w') = [].
Proof.
  intros Hs Hh Ha.
  destruct (stop_slave_loop_returns w hooks Hs Hh)
    as (w1 & Hstop & Hs1 & _ & Hg1 & _ & Hm1 & Hr1 & Hh1).
  assert (agrees w1) as Ha1 by (unfold agrees in *; by rewrite Hg1, Hm1).
  destruct (close_not_slave w1 Hs1 Ha1)
    as (w' & Hclose & Hs' & Hc' & Hg' & Hd' & _ & Hr' & Hh').
  exists w'. split.
  { unfold module_stop_slave_loop, bind. by rewrite Hstop. }
  rewrite Hr', Hh'. repeat split; done.
Qed.
End SelectorCloses.
End SelectorClose.

Lemma ret_keeps_loop : keeps_loop (ret tt).
Proof. intros w. exists w. repeat split; done. Qed.

Lemma close_removes_the_drain_witness :
  let w := snd (_call_soon 4%nat (init_world GAsyncIOSelector_class)) in
  drain_sources (main w) = [1%nat] /\
  exists w',
    close (ret tt) (ret tt) w = (Ok tt, w') /\ _closed (self w') = true /\
    drain_sources (main w') = [] /\ _ready (self w') = [].
Proof.
  intros w. split; [reflexivity|].
  destruct (close_removes_the_drain (ret tt) (ret tt)
              ret_keeps_loop ret_keeps_loop w)
    as (w' & Hc & Hcl & _ & Hd & Hr & _).
  - reflexivity.
  - reflexivity.
  - exists w'. split; [exact Hc|]. split; [exact Hcl|].
    split; [exact Hd|by apply Hr].
Defined.

Lemma close_of_a_slave_drops_the_drain_witness :
  let w := snd (_call_soon 4%nat
                  (snd (start_slave_loop (init_world GAsyncIOSelector_class)))) in
  drain_sources (main w) = [1%nat] /\
  exists w',
    close (ret tt) (ret tt) w = (Raise RuntimeError, w') /\
    _ready (self w') = [4%nat] /\ drain_sources (main w') = [].
Proof.
  intros w. split; [reflexivity|].
  destruct (close_of_a_slave_drops_the_drain (ret tt) (ret tt) w)
    as (w' & Hc & _ & Hd & _ & _ & Hr).
  - reflexivity.
  - reflexivity.
  - exists w'. split; [exact Hc|]. split; [exact Hr|exact Hd].
Defined.

Lemma module_stop_slave_loop_closes_witness :
  let w := snd (_call_soon 4%nat
                  (snd (start_slave_loop (init_world GAsyncIOSelector_class)))) in
  exists w',
    module_stop_slave_loop (ret tt) (ret tt) w = (Ok tt, w') /\
    _closed (self w') = true /\ drain_sources (main w') = [].
Proof.
  intros w.
  destruct (module_stop_slave_loop_closes (ret tt) (ret tt)
              ret_keeps_loop ret_keeps_loop w None)
    as (w' & Hm & _ & Hc & _ & _ & _ & Hd).
  - reflexivity.
  - reflexivity.
  - reflexivity.
  - exists w'. split; [exact Hm|]. split; [exact Hc|exact Hd].
Defined.

End GAsyncIOEventLoopMore.

(* ------------------------------------------------------------------ *)
(** ** ThreadSelector: the owner's side and the background thread *)

Module ThreadSelectorMore.
Import ThreadSelector ThreadSelectorOwner.

(** X20.  The list [_handle_select] hands to the loop holds a pair for
    a key exactly when some descriptor among those reported is
    registered under that key; the mask of the pair is what was
    reported for the descriptor (read if it was among the readers,
    write if among the writers) cut to the events of the key, so it
    has no bit outside those events.  Reported descriptors that are
    not registered give nothing. *)
Theorem handle_select_ready_list (s : t) (r w : list Z) key m :
  (key, m) ∈ ready_list s r w <->
  exists fd, (fd ∈ r \/ fd ∈ w) /\ _fd_to_key s !! fd = Some key /\
    m = Z.land (ready_events (list_to_set r) (list_to_set w) fd)
               (key_events key) /\
    Z.land m (Z.lnot (key_events key)) = 0.
Proof.
  unfold ready_list. rewrite list_elem_of_In, List.in_flat_map. split.
  - intros (fd & Hfd & Hin).
    apply list_elem_of_In, elem_of_elements, elem_of_union in Hfd.
    rewrite !elem_of_list_to_set in Hfd.
    destruct (_fd_to_key s !! fd) as [k|] eqn:Ek; [|by destruct Hin].
    destruct Hin as [[= <- <-]|[]]. exists fd. repeat split; try done.
    rewrite <- Z.land_assoc, Z.land_lnot_diag, Z.land_0_r. done.
  - intros (fd & Hfd & Hk & -> & _). exists fd. split.
    + apply list_elem_of_In, elem_of_elements, elem_of_union.
      by rewrite !elem_of_list_to_set.
    + rewrite Hk. by left.
Qed.

Lemma handle_select_ready_list_witness :
  let s := self (snd (register (fun _ => ret tt) (FdInt 5) EVENT_READ
                        (Some 0%nat, None) (init_world None))) in
  (mkKey (FdInt 5) 5 EVENT_READ (Some 0%nat, None), EVENT_READ)
    ∈ ready_list s [5; 9] [5].
Proof.
  intros s. apply handle_select_ready_list. exists 5. split; [|split; [|split]].
  - left. apply elem_of_cons. by left.
  - vm_compute. reflexivity.
  - vm_compute. reflexivity.
  - reflexivity.
Defined.


(** X21.  The background thread, through any number of turns in which
    [select.select] returns and the hand-off goes through or fails
    with [RuntimeError] or [AttributeError]: it does not die; it hands
    over, in order, the readers and the writers followed by the
    exceptional descriptors of every turn whose hand-off went through,
    and nothing for the others; and at the first turn that finds the
    selector closed it returns, whatever would have come next. *)
Theorem run_select_hands_over_until_closed
    (platform : errno_module) (turns rest : list turn) (last : turn) :
  Forall goes_well turns ->
  closed_now last = true ->
  _run_select platform turns = (flat_map handed_over turns, Waiting) /\
  _run_select platform (turns ++ last :: rest)
    = (flat_map handed_over turns, Returned).
Proof.
  intros Hgood Hlast.
  induction Hgood as [|t turns (Hc & (rs & ws & xs & Hb) & Hh) _ [IH1 IH2]].
  - simpl. by rewrite Hlast.
  - simpl. rewrite Hc. unfold wait_ready, handed_over. rewrite Hb.
    destruct Hh as [-> | [-> | ->] ]; simpl; rewrite ?IH1, ?IH2; done.
Qed.

Lemma run_select_hands_over_until_closed_witness :
  _run_select errno_posix
    [mkTurn false (Selected [5] [6] [7]) (Selected [] [] []) None;
     mkTurn false (Selected [3] [] []) (Selected [] [] []) (Some AttributeError);
     mkTurn true (Selected [] [] []) (Selected [] [] []) None;
     mkTurn false (Selected [8] [] []) (Selected [] [] []) None]
  = ([([5], [6; 7])], Returned).
Proof.
  apply (run_select_hands_over_until_closed errno_posix
           [mkTurn false (Selected [5] [6] [7]) (Selected [] [] []) None;
            mkTurn false (Selected [3] [] []) (Selected [] [] [])
                   (Some AttributeError)]
           [mkTurn false (Selected [8] [] []) (Selected [] [] []) None]
           (mkTurn true (Selected [] [] []) (Selected [] [] []) None)).
  - constructor.
    { split; [reflexivity|]. split; [by exists [5], [6], [7]|]. by left. }
    constructor; [|constructor].
    split; [reflexivity|]. split; [by exists [3], [], []|]. right. by right.
  - reflexivity.
Defined.

(** *** Waking, starting the thread, closing *)

Section Loop.
Variable add_reader : fileobj -> M world unit.
Variable remove_reader : fileobj -> M world unit.

(** X22.  [close] on a selector whose thread was never started sets
    [_closed] and does nothing else: no wake byte, no join, no call to
    the loop, whatever the loop's [add_reader] and [remove_reader]
    are; and [close] on a closed selector changes nothing at all. *)
Theorem close_without_thread (w : world) :
  _thread (self w) = None ->
  exists w',
    close add_reader remove_reader w = (Ok tt, w') /\
    w' = mkWorld (mk (_fd_to_key (self w)) (_readers (self w))
                     (_writers (self w)) (_loop (self w)) None true
                     (_waker_r (self w)) (_waker_w (self w)))
                 (running_loop w) (waker_bytes w) (waker_room w) (next_fd w)
                 (next_oid w) (threads_started w) (threads_joined w) /\
    close add_reader remove_reader w' = (Ok tt, w').
Proof.
  intros Ht. unfold close, bind, get, ret, on_self, modify_state.
  cbv beta iota. rewrite Ht.
  destruct (_closed (self w)) eqn:Hc.
  - exists w. rewrite Hc. split; [done|]. split; [|done].
    destruct w as [ [] ]. simpl in *. by subst.
  - eexists. split; [reflexivity|]. split; [|done]. by rewrite Ht.
Qed.

End Loop.

Lemma close_without_thread_witness :
  let w := snd (register (fun _ => ret tt) (FdInt 5) EVENT_READ
                  (Some 0%nat, None) (init_world None)) in
  exists w',
    close (fun _ => ret tt) (fun _ => ret tt) w = (Ok tt, w') /\
    _closed (self w') = true /\ threads_joined w' = 0%nat.
Proof.
  intros w.
  destruct (close_without_thread (fun _ => ret tt) (fun _ => ret tt) w)
    as (w' & Hc & Hw' & _).
  - reflexivity.
  - exists w'. split; [exact Hc|]. rewrite Hw'. split; reflexivity.
Defined.


(** *** One thread *)

Lemma keeps_bind {A B} (m : M world A) (f : A -> M world B) :
  keeps_in_step m -> (forall a, keeps_in_step (f a)) -> keeps_in_step (bind m f).
Proof.
  intros Hm Hf w Hw. unfold bind. specialize (Hm w Hw).
  destruct (m w) as [[a|e] w1]; simpl in *; [by apply Hf|done].
Qed.

Lemma keeps_ret {A} (a : A) : keeps_in_step (ret a).
Proof. by intros w Hw. Qed.

Lemma keeps_raise {A} e : keeps_in_step (@raise world A e).
Proof. by intros w Hw. Qed.

Lemma keeps_get_bind {B} (f : world -> M world B) :
  (forall w, thread_in_step w -> thread_in_step (snd (f w w))) ->
  keeps_in_step (bind get f).
Proof. intros Hf w Hw. unfold bind, get. by apply Hf. Qed.

Lemma keeps_try_except {A} (m : M world A) h :
  keeps_in_step m ->
  (forall e k, h e = Some k -> keeps_in_step k) ->
  keeps_in_step (try_except m h).
Proof.
  intros Hm Hh w Hw. unfold try_except. specialize (Hm w Hw).
  destruct (m w) as [[a|e] w1]; simpl in *; [done|].
  destruct (h e) as [k|] eqn:Eh; [|done]. by apply (Hh e k).
Qed.

(** A change of the state that leaves the thread, the wake sockets
    and the count of threads alone. *)
Lemma keeps_modify_state (g : world -> world) :
  (forall w, _thread (self (g w)) = _thread (self w) /\
             _waker_r (self (g w)) = _waker_r (self w) /\
             _waker_w (self (g w)) = _waker_w (self w) /\
             threads_started (g w) = threads_started w) ->
  keeps_in_step (modify_state g).
Proof.
  intros Hg w Hw. unfold modify_state, thread_in_step in *. simpl.
  destruct (Hg w) as (-> & -> & -> & ->). done.
Qed.

Lemma keeps_lookup f :
  keeps_in_step (BaseSelectorImpl._fileobj_lookup (S := world) f).
Proof. intros w Hw. by rewrite BaseFacts._fileobj_lookup_state. Qed.

Lemma keeps_SelectSelector_register f events data :
  keeps_in_step (SelectSelector_register f events data).
Proof.
  unfold SelectSelector_register, BaseSelectorImpl.register,
    set_readers_writers, on_self.
  apply keeps_bind; [|intros key; apply keeps_bind;
                      [by apply keeps_modify_state|intros; apply keeps_ret] ].
  destruct (BaseSelectorImpl.invalid_events events); [apply keeps_raise|].
  apply keeps_bind; [apply keeps_lookup|]. intros n.
  apply keeps_get_bind. intros w Hw.
  destruct (decide _); [done|].
  apply (keeps_bind (modify_state _)); [by apply keeps_modify_state| |done].
  intros; apply keeps_ret.
Qed.

Lemma keeps_SelectSelector_unregister f :
  keeps_in_step (SelectSelector_unregister f).
Proof.
  unfold SelectSelector_unregister, BaseSelectorImpl.unregister,
    set_readers_writers, on_self.
  apply keeps_bind; [|intros key; apply keeps_bind;
                      [by apply keeps_modify_state|intros; apply keeps_ret] ].
  apply keeps_bind; [apply keeps_lookup|]. intros n.
  apply keeps_get_bind. intros w Hw.
  destruct (fd_to_key w !! n); [|done].
  apply (keeps_bind (modify_state _)); [by apply keeps_modify_state| |done].
  intros; apply keeps_ret.
Qed.

Lemma keeps_waker_send : keeps_in_step waker_send.
Proof.
  unfold waker_send. apply keeps_get_bind. intros w Hw.
  destruct (_waker_w (self w)); [|done].
  destruct (waker_bytes w <? waker_room w)%nat; [|done].
  by apply keeps_modify_state.
Qed.

Lemma keeps_waker_recv : keeps_in_step waker_recv.
Proof.
  unfold waker_recv. apply keeps_get_bind. intros w Hw.
  destruct (_waker_r (self w)); [|done].
  destruct (waker_bytes w =? 0)%nat; [done|].
  by apply keeps_modify_state.
Qed.

Lemma keeps_swallow e k :
  swallow_BlockingIOError e = Some k -> keeps_in_step k.
Proof. destruct e; simpl; try done. intros [= <-]. apply keeps_ret. Qed.

Section OneThread.
Variable add_reader : fileobj -> M world unit.
Variable remove_reader : fileobj -> M world unit.
Hypothesis add_reader_keeps : keeps_thread add_reader.
Hypothesis remove_reader_keeps : keeps_thread remove_reader.

Lemma keeps_external m f :
  keeps_thread m ->
  forall w, thread_in_step w -> is_Some (_thread (self w)) ->
    thread_in_step (snd (m f w)).
Proof.
  intros Hm w Hw Ht. unfold thread_in_step in *.
  destruct (Hm f w Ht) as (-> & -> & -> & ->). done.
Qed.

Lemma keeps__wake_selector : keeps_in_step (_wake_selector add_reader).
Proof.
  unfold _wake_selector. intros w Hw. unfold bind at 1.
  assert (try_except (bind get_running_loop (fun l => ret (Some l)))
            (fun e => match e with RuntimeError => Some (ret None) | _ => None end) w
          = (Ok (running_loop w), w)) as ->.
  { unfold try_except, get_running_loop, bind, get, ret, raise.
    by destruct (running_loop w). }
  destruct (running_loop w) as [l|]; [|done].
  assert (keeps_in_step
            (bind get (fun w0 =>
               if negb (bool_decide (_loop (self w0) = Some l))
               then raise AssertionError
               else try_except waker_send swallow_BlockingIOError))) as Htail.
  { apply keeps_get_bind. intros w0 Hw0. destruct (negb _); [done|].
    apply keeps_try_except; [apply keeps_waker_send|apply keeps_swallow|done]. }
  unfold bind at 1, get. cbv beta iota. unfold bind at 1.
  destruct (_thread (self w)) as [t|] eqn:Et.
  - unfold ret. by apply Htail.
  - unfold bind at 1, on_self, modify_state. cbv beta iota.
    unfold create_thread. unfold bind at 1, get. cbv beta iota.
    unfold bind at 1, modify_state. cbv beta iota.
    match goal with |- context [add_reader ?r ?w1] =>
      assert (thread_in_step (snd (add_reader r w1))) as Hadd end.
    { apply (keeps_external add_reader); [done| |simpl; eauto].
      unfold thread_in_step in *. rewrite Et in Hw. simpl. rewrite Hw. eauto. }
    match goal with |- context [add_reader ?r ?w1] =>
      destruct (add_reader r w1) as [[u|e] w2] end; simpl in *; [|done].
    by apply Htail.
Qed.

Lemma keeps_register f events data :
  keeps_in_step (register add_reader f events data).
Proof.
  unfold register. apply keeps_bind; [apply keeps_SelectSelector_register|].
  intros _. apply keeps_bind; [apply keeps__wake_selector|].
  intros; apply keeps_ret.
Qed.

Lemma keeps_unregister f : keeps_in_step (unregister add_reader f).
Proof.
  unfold unregister. apply keeps_bind; [apply keeps_SelectSelector_unregister|].
  intros _. apply keeps_bind; [apply keeps__wake_selector|].
  intros; apply keeps_ret.
Qed.

Lemma keeps_modify f events data :
  keeps_in_step (modify add_reader f events data).
Proof.
  unfold modify, BaseSelectorImpl.modify.
  apply keeps_bind; [apply keeps_lookup|]. intros n.
  apply keeps_get_bind. intros w Hw.
  destruct (fd_to_key w !! n) as [key|]; [|done].
  destruct (negb (events =? key_events key)).
  - apply (keeps_bind (unregister add_reader f)); [apply keeps_unregister| |done].
    intros _. apply keeps_register.
  - destruct (negb _); [|done].
    apply (keeps_bind (modify_state _)); [by apply keeps_modify_state| |done].
    intros; apply keeps_ret.
Qed.

(** With the thread started, waking starts nothing and keeps it. *)
Lemma wake_keeps_thread (w : world) :
  is_Some (_thread (self w)) ->
  _thread (self (snd (_wake_selector add_reader w))) = _thread (self w).
Proof.
  intros [t Ht]. unfold _wake_selector, try_except, get_running_loop,
    waker_send, swallow_BlockingIOError, bind, get, ret, raise, modify_state.
  destruct (running_loop w) as [l|]; [|done]. simpl. rewrite Ht. simpl.
  destruct (negb _); [done|].
  destruct (_waker_w (self w)); [|done].
  destruct (waker_bytes w <? waker_room w)%nat; done.
Qed.

Lemma keeps_close : keeps_in_step (close add_reader remove_reader).
Proof.
  unfold close. apply keeps_get_bind. intros w Hw.
  destruct (_closed (self w)); [done|].
  unfold bind at 1, on_self, modify_state. cbv beta iota.
  set (w0 := mkWorld _ _ _ _ _ _ _ _).
  assert (thread_in_step w0) as Hw0 by done.
  destruct (_thread (self w)) as [t|] eqn:Et; [|done].
  unfold bind at 1.
  pose proof (keeps__wake_selector w0 Hw0) as Hw1.
  pose proof (wake_keeps_thread w0) as Ht1. simpl in Ht1. rewrite ?Et in Ht1.
  specialize (Ht1 (ltac:(eauto))).
  destruct (_wake_selector add_reader w0) as [[u|e] w1]; simpl in *; [|done].
  unfold bind at 1, modify_state. cbv beta iota.
  destruct (_waker_r (self w)); [|done].
  apply keeps_external; [done|done|]. simpl. rewrite Ht1. eauto.
Qed.

Lemma keeps__consume_waker : keeps_in_step _consume_waker.
Proof.
  unfold _consume_waker. apply keeps_get_bind. intros w Hw.
  destruct (_thread (self w)); [|done].
  apply keeps_try_except; [apply keeps_waker_recv|apply keeps_swallow|done].
Qed.

Lemma history_thread_in_step (cs : list call) :
  thread_in_step (history add_reader remove_reader cs).
Proof.
  induction cs as [|c cs IH] using rev_ind; [done|].
  unfold history in *. rewrite foldl_app. simpl.
  destruct c as [f e d|f|f e d| | |l]; simpl.
  - by apply keeps_register.
  - by apply keeps_unregister.
  - by apply keeps_modify.
  - by apply keeps_close.
  - by apply keeps__consume_waker.
  - done.
Qed.

(** X23.  However a selector is used from the owner's thread
    (registering, unregistering, modifying, consuming the wake byte,
    under whatever loop is running at each call), up to and including
    the call that closes it, it starts its thread at most once; and
    once the thread is started the two wake sockets exist.  ([close]
    also closes the two sockets, which the world does not record:
    calls that come after a [close] are left out.) *)
Theorem thread_started_at_most_once (cs : list call) (c : call) :
  Call_close ∉ cs ->
  (threads_started (history add_reader remove_reader (cs ++ [c])) <= 1)%nat /\
  (is_Some (_thread (self (history add_reader remove_reader (cs ++ [c])))) ->
   threads_started (history add_reader remove_reader (cs ++ [c])) = 1%nat /\
   is_Some (_waker_r (self (history add_reader remove_reader (cs ++ [c])))) /\
   is_Some (_waker_w (self (history add_reader remove_reader (cs ++ [c]))))).
Proof.
  intros _.
  pose proof (history_thread_in_step (cs ++ [c])) as H.
  unfold thread_in_step in H.
  destruct (_thread (self (history add_reader remove_reader (cs ++ [c])))).
  - split; [lia|]. by intros _.
  - split; [lia|]. by intros [? ?].
Qed.

(** X24.  [_consume_waker] never raises in a world reached by such
    calls before a [close]: it takes up to 1024 bytes off the wake
    socket if the thread is started (none if the socket is empty), and
    touches nothing else. *)
Theorem consume_waker_never_raises (cs : list call) :
  Call_close ∉ cs ->
  exists w',
    _consume_waker (history add_reader remove_reader cs) = (Ok tt, w') /\
    self w' = self (history add_reader remove_reader cs) /\
    threads_started w' = threads_started (history add_reader remove_reader cs) /\
    waker_bytes w' =
      match _thread (self (history add_reader remove_reader cs)) with
      | Some _ => (waker_bytes (history add_reader remove_reader cs) - 1024)%nat
      | None => waker_bytes (history add_reader remove_reader cs)
      end.
Proof.
  intros _.
  pose proof (history_thread_in_step cs) as H. unfold thread_in_step in H.
  set (w := history add_reader remove_reader cs) in *.
  unfold _consume_waker, try_except, waker_recv, swallow_BlockingIOError,
    bind, get, ret, raise, modify_state.
  destruct (_thread (self w)) as [t|].
  - destruct H as (_ & [r Hr] & _). rewrite Hr.
    destruct (waker_bytes w =? 0)%nat eqn:E0.
    + exists w. apply Nat.eqb_eq in E0. rewrite E0. done.
    + eexists. split; [reflexivity|]. done.
  - exists w. done.
Qed.

End OneThread.

Lemma ret_keeps_thread : keeps_thread (fun _ => ret tt).
Proof. intros f w _. done. Qed.

Lemma thread_started_at_most_once_witness :
  let cs := [Running_loop_becomes (Some 0%nat);
             Call_register (FdInt 5) EVENT_READ (Some 0%nat, None);
             Call_register (FdInt 6) EVENT_WRITE (None, Some 1%nat);
             Call_unregister (FdInt 5)] in
  (Call_close ∉ cs) /\
  _thread (self (history (fun _ => ret tt) (fun _ => ret tt)
                   (cs ++ [Call_close]))) = Some 0%nat /\
  threads_started (history (fun _ => ret tt) (fun _ => ret tt)
                     (cs ++ [Call_close])) = 1%nat.
Proof.
  intros cs.
  assert (Call_close ∉ cs) as Hcs.
  { intros H. repeat (apply elem_of_cons in H as [H|H]; [discriminate|]).
    by apply elem_of_nil in H. }
  split; [exact Hcs|]. split; [reflexivity|].
  destruct (thread_started_at_most_once (fun _ => ret tt) (fun _ => ret tt)
              ret_keeps_thread ret_keeps_thread cs Call_close Hcs) as [_ H].
  destruct H as (H1 & _); [|exact H1]. vm_compute. eauto.
Defined.

Lemma consume_waker_never_raises_witness :
  let cs := [Running_loop_becomes (Some 0%nat);
             Call_register (FdInt 5) EVENT_READ (Some 0%nat, None);
             Call_unregister (FdInt 5)] in
  exists w',
    _consume_waker (history (fun _ => ret tt) (fun _ => ret tt) cs) = (Ok tt, w') /\
    waker_bytes (history (fun _ => ret tt) (fun _ => ret tt) cs) = 2%nat /\
    waker_bytes w' = 0%nat.
Proof.
  intros cs.
  destruct (consume_waker_never_raises (fun _ => ret tt) (fun _ => ret tt)
              ret_keeps_thread ret_keeps_thread cs) as (w' & Hc & _ & _ & Hb).
  - intros H. repeat (apply elem_of_cons in H as [H|H]; [discriminate|]).
    by apply elem_of_nil in H.
  - exists w'. split; [exact Hc|]. split; [reflexivity|].
    rewrite Hb. reflexivity.
Defined.


(** *** Registering while the thread runs *)

Section Steady.
Variable add_reader : fileobj -> M world unit.

(** X25.  [register] of a new descriptor on an open selector whose
    thread runs under the running loop: it returns; the key is in the key map; the
    descriptor is among the readers the thread selects on exactly if
    read was asked for, among the writers exactly if write was; one
    wake byte has been sent, or none if the wake socket is full; no
    thread was started. *)
Theorem register_wakes_running_thread
    (w : world) f events data n l t :
  BaseSelectorImpl.invalid_events events = false ->
  _fileobj_to_fd f = Ok n ->
  _fd_to_key (self w) !! n = None ->
  _closed (self w) = false ->
  _thread (self w) = Some t ->
  _loop (self w) = Some l ->
  running_loop w = Some l ->
  is_Some (_waker_w (self w)) ->
  exists w',
    register add_reader f events data w = (Ok None, w') /\
    _fd_to_key (self w') = <[n := mkKey f n events data]> (_fd_to_key (self w)) /\
    _readers (self w') =
      (if truthy (Z.land events EVENT_READ)
       then {[n]} ∪ _readers (self w) else _readers (self w)) /\
    _writers (self w') =
      (if truthy (Z.land events EVENT_WRITE)
       then {[n]} ∪ _writers (self w) else _writers (self w)) /\
    waker_bytes w' = one_more_byte w /\
    threads_started w' = threads_started w /\
    _thread (self w') = Some t.
Proof.
  intros Hev Hf Hk _ Ht Hl Hr [s Hs].
  unfold register, SelectSelector_register, BaseSelectorImpl.register,
    set_readers_writers, on_self, _wake_selector, try_except,
    get_running_loop, waker_send, swallow_BlockingIOError, one_more_byte.
  rewrite Hev. unfold bind at 1. unfold bind at 1. unfold bind at 1.
  assert (BaseSelectorImpl._fileobj_lookup f w = (Ok n, w)) as ->.
  { unfold BaseSelectorImpl._fileobj_lookup. by rewrite Hf. }
  unfold bind, get, ret, raise, modify_state. cbv beta iota. simpl.
  rewrite decide_False by (rewrite Hk; by intros [? ?]).
  simpl. rewrite Hr. simpl. rewrite Ht, Hl. simpl.
  rewrite bool_decide_eq_true_2 by done. simpl. rewrite Hs.
  destruct (waker_bytes w <? waker_room w)%nat; simpl;
    eexists; (split; [reflexivity|]); simpl; repeat split; done.
Qed.

(** X26.  [unregister] of a registered descriptor on an open selector
    whose thread runs under the running loop: it returns; the key is out of the key
    map and the descriptor out of the readers and the writers; one
    wake byte has been sent, or none if the wake socket is full. *)
Theorem unregister_wakes_running_thread
    (w : world) f n key l t :
  _fileobj_to_fd f = Ok n ->
  _fd_to_key (self w) !! n = Some key ->
  key_fd key = n ->
  _closed (self w) = false ->
  _thread (self w) = Some t ->
  _loop (self w) = Some l ->
  running_loop w = Some l ->
  is_Some (_waker_w (self w)) ->
  exists w',
    unregister add_reader f w = (Ok None, w') /\
    _fd_to_key (self w') = delete n (_fd_to_key (self w)) /\
    _readers (self w') = _readers (self w) ∖ {[n]} /\
    _writers (self w') = _writers (self w) ∖ {[n]} /\
    waker_bytes w' = one_more_byte w /\
    threads_started w' = threads_started w.
Proof.
  intros Hf Hk Hfd _ Ht Hl Hr [s Hs].
  unfold unregister, SelectSelector_unregister, BaseSelectorImpl.unregister,
    set_readers_writers, on_self, _wake_selector, try_except,
    get_running_loop, waker_send, swallow_BlockingIOError, one_more_byte.
  unfold bind at 1. unfold bind at 1. unfold bind at 1.
  assert (BaseSelectorImpl._fileobj_lookup f w = (Ok n, w)) as ->.
  { unfold BaseSelectorImpl._fileobj_lookup. by rewrite Hf. }
  unfold bind, get, ret, raise, modify_state. cbv beta iota. simpl.
  rewrite Hk. simpl. rewrite Hr. simpl. rewrite Ht, Hl. simpl.
  rewrite bool_decide_eq_true_2 by done. simpl. rewrite Hs, Hfd.
  destruct (waker_bytes w <? waker_room w)%nat; simpl;
    eexists; (split; [reflexivity|]); simpl; repeat split; done.
Qed.

End Steady.


Lemma register_wakes_running_thread_witness :
  let w := snd (register (fun _ => ret tt) (FdInt 5) EVENT_READ
                  (Some 0%nat, None) (init_world (Some 0%nat))) in
  exists w',
    register (fun _ => ret tt) (FdInt 6) EVENT_WRITE (None, Some 1%nat) w
      = (Ok None, w') /\
    _writers (self w') = {[6]} ∪ _writers (self w) /\
    waker_bytes w' = 2%nat /\ threads_started w' = 1%nat.
Proof.
  intros w.
  destruct (register_wakes_running_thread (fun _ => ret tt) w (FdInt 6)
              EVENT_WRITE (None, Some 1%nat) 6 0%nat 0%nat)
    as (w' & Hr & _ & _ & Hw & Hb & Ht & _); try reflexivity.
  - vm_compute. eauto.
  - exists w'. split; [exact Hr|]. split; [exact Hw|].
    split; [rewrite Hb|rewrite Ht]; reflexivity.
Defined.

Lemma unregister_wakes_running_thread_witness :
  let w := snd (register (fun _ => ret tt) (FdInt 5) EVENT_READ
                  (Some 0%nat, None) (init_world (Some 0%nat))) in
  exists w',
    unregister (fun _ => ret tt) (FdInt 5) w = (Ok None, w') /\
    _fd_to_key (self w') = delete 5 (_fd_to_key (self w)) /\
    waker_bytes w' = 2%nat.
Proof.
  intros w.
  destruct (unregister_wakes_running_thread (fun _ => ret tt) w (FdInt 5) 5
              (mkKey (FdInt 5) 5 EVENT_READ (Some 0%nat, None)) 0%nat 0%nat)
    as (w' & Hu & Hk & _ & _ & Hb & _); try reflexivity.
  - vm_compute. eauto.
  - exists w'. split; [exact Hu|]. split; [exact Hk|]. rewrite Hb. reflexivity.
Defined.

End ThreadSelectorMore.
